(** * Lumios: the game core of [game.js], embedded and verified

    The JavaScript source keeps its numbers in IEEE binary64.  The physics
    below is written once over an interface of number operations ([Num],
    [Trig]) and read at two instances:
    - [R], exact arithmetic, for the algebraic laws of the physics and for
      the turn logic;
    - primitive binary64 floats, for what rounding and NaN do.
    Division is total on [R], where binary64 gives NaN for [0 / 0]: a
    statement over [R] about values the code computes by a division
    assumes the divisor is not zero, and a statement about positions that
    may be NaN is made over the interface, with the comparisons the code
    makes.

    [Math.random()] and [Date.now()] read from two tapes held by the host
    (one value per call made by the code modelled here); writes to the page
    (score texts, badge, toast, victory overlay) are appended to a trace.
    Canvas drawing and the power meter change nothing the game reads back
    and are left out; so is the never-updated [scores] field. *)
From Stdlib Require Import Reals Lra Psatz ZArith Lia List Bool.

From Stdlib Require Floats.

From stdpp Require Import base option list gmap.

(** ** Numbers *)
Class Num (T : Type) := {
  nadd : T -> T -> T;
  nsub : T -> T -> T;
  nmul : T -> T -> T;
  ndiv : T -> T -> T;
  nneg : T -> T;
  nabs : T -> T;            (* Math.abs *)
  nhypot : T -> T -> T;     (* Math.hypot *)
  nmin : T -> T -> T;       (* Math.min *)
  nlt : T -> T -> bool;     (* a < b *)
  neq : T -> T -> bool;     (* a === b *)
  nofZ : Z -> T             (* integer literals *)
}.

Class Trig (T : Type) := {
  npi : T;                  (* Math.PI *)
  ncos : T -> T;
  nsin : T -> T
}.

Declare Scope js_scope.

Delimit Scope js_scope with js.

Infix "+" := nadd : js_scope.

Infix "-" := nsub : js_scope.

Infix "*" := nmul : js_scope.

Infix "/" := ndiv : js_scope.

Notation "- a" := (nneg a) : js_scope.

Infix "<?" := nlt : js_scope.

Notation "a >? b" := (nlt b a) : js_scope.

Infix "=?" := neq : js_scope.

(** A decimal literal [m / 10^k]; the quotient of two exactly represented
    integers is correctly rounded, so at binary64 this is the double the
    literal denotes. *)
Definition dec {T} `{Num T} (m : Z) (k : nat) : T :=
  (nofZ m / nofZ (10 ^ Z.of_nat k))%js.

(** ** Data *)
Inductive Color := red | green | blue | gold.

Global Instance Color_eq_dec : EqDecision Color.

Proof. solve_decision. Defined.

Inductive TurnState := aiming | rolling | process_turn.

Global Instance TurnState_eq_dec : EqDecision TurnState.

Proof. solve_decision. Defined.

Record Point (T : Type) := mkPoint { px : T; py : T }.

Arguments mkPoint {T}.

Arguments px {T}.

Arguments py {T}.

Record Ball (T : Type) := mkBall {
  x : T;
  y : T;
  r : T;
  color : Color;
  vx : T;
  vy : T;
  mass : T;
  angle : T;
  angularVelocity : T;
  heavyPhase : T;
  isLumie : bool;
  lockedUntil : Z;
  lastHit : Z
}.

Arguments mkBall {T}.

Arguments x {T}.

Arguments y {T}.

Arguments r {T}.

Arguments color {T}.

Arguments vx {T}.

Arguments vy {T}.

Arguments mass {T}.

Arguments angle {T}.

Arguments angularVelocity {T}.

Arguments heavyPhase {T}.

Arguments isLumie {T}.

Arguments lockedUntil {T}.

Arguments lastHit {T}.

(** One entry of [turnChanges]; [ball] is the index of the target in
    [allBalls]. *)
Record Change := mkChange { ball : nat; before : Color; after : Color }.

(** What the game writes to the page. *)
Inductive DomEvent :=
| ScoreGreen (n : nat)
| ScoreBlue (n : nat)
| Badge (player : nat) (col : option Color)
| ToastReplay (col : option Color)
| ToastTurn (player : nat)
| Victory (winnerColor : Color).

Record Host (T : Type) := mkHost {
  rand : nat -> T;          (* results of Math.random(), in call order *)
  nrand : nat;
  clock : nat -> Z;         (* results of Date.now(), in call order *)
  nclock : nat;
  dom : list DomEvent
}.

Arguments mkHost {T}.

Arguments rand {T}.

Arguments nrand {T}.

Arguments clock {T}.

Arguments nclock {T}.

Arguments dom {T}.

Record Game (T : Type) := mkGame {
  width : T;
  height : T;
  lumies : list (Ball T);
  playerBall : Ball T;
  currentPlayer : nat;
  playerColors : gmap nat (option Color);
  turnState : TurnState;
  dragStart : option (Point T);
  dragCurrent : option (Point T);
  turnChanges : list Change;
  turnStartTime : option Z
}.

Arguments mkGame {T}.

Arguments width {T}.

Arguments height {T}.

Arguments lumies {T}.

Arguments playerBall {T}.

Arguments currentPlayer {T}.

Arguments playerColors {T}.

Arguments turnState {T}.

Arguments dragStart {T}.

Arguments dragCurrent {T}.

Arguments turnChanges {T}.

Arguments turnStartTime {T}.

(** ** Field updates *)

Section Setters.
Context {T : Type}.

Definition set_x (v : T) (b : Ball T) : Ball T :=
  mkBall v (y b) (r b) (color b) (vx b) (vy b) (mass b) (angle b)
    (angularVelocity b) (heavyPhase b) (isLumie b) (lockedUntil b) (lastHit b).

Definition set_y (v : T) (b : Ball T) : Ball T :=
  mkBall (x b) v (r b) (color b) (vx b) (vy b) (mass b) (angle b)
    (angularVelocity b) (heavyPhase b) (isLumie b) (lockedUntil b) (lastHit b).

Definition set_color (c : Color) (b : Ball T) : Ball T :=
  mkBall (x b) (y b) (r b) c (vx b) (vy b) (mass b) (angle b)
    (angularVelocity b) (heavyPhase b) (isLumie b) (lockedUntil b) (lastHit b).

Definition set_vx (v : T) (b : Ball T) : Ball T :=
  mkBall (x b) (y b) (r b) (color b) v (vy b) (mass b) (angle b)
    (angularVelocity b) (heavyPhase b) (isLumie b) (lockedUntil b) (lastHit b).

Definition set_vy (v : T) (b : Ball T) : Ball T :=
  mkBall (x b) (y b) (r b) (color b) (vx b) v (mass b) (angle b)
    (angularVelocity b) (heavyPhase b) (isLumie b) (lockedUntil b) (lastHit b).

Definition set_angle (v : T) (b : Ball T) : Ball T :=
  mkBall (x b) (y b) (r b) (color b) (vx b) (vy b) (mass b) v
    (angularVelocity b) (heavyPhase b) (isLumie b) (lockedUntil b) (lastHit b).

Definition set_angularVelocity (v : T) (b : Ball T) : Ball T :=
  mkBall (x b) (y b) (r b) (color b) (vx b) (vy b) (mass b) (angle b)
    v (heavyPhase b) (isLumie b) (lockedUntil b) (lastHit b).

Definition set_lockedUntil (t : Z) (b : Ball T) : Ball T :=
  mkBall (x b) (y b) (r b) (color b) (vx b) (vy b) (mass b) (angle b)
    (angularVelocity b) (heavyPhase b) (isLumie b) t (lastHit b).

Definition set_lumies (l : list (Ball T)) (g : Game T) : Game T :=
  mkGame (width g) (height g) l (playerBall g) (currentPlayer g)
    (playerColors g) (turnState g) (dragStart g) (dragCurrent g)
    (turnChanges g) (turnStartTime g).

Definition set_playerBall (b : Ball T) (g : Game T) : Game T :=
  mkGame (width g) (height g) (lumies g) b (currentPlayer g)
    (playerColors g) (turnState g) (dragStart g) (dragCurrent g)
    (turnChanges g) (turnStartTime g).

Definition set_currentPlayer (p : nat) (g : Game T) : Game T :=
  mkGame (width g) (height g) (lumies g) (playerBall g) p
    (playerColors g) (turnState g) (dragStart g) (dragCurrent g)
    (turnChanges g) (turnStartTime g).

Definition set_playerColors (pc : gmap nat (option Color)) (g : Game T)
  : Game T :=
  mkGame (width g) (height g) (lumies g) (playerBall g) (currentPlayer g)
    pc (turnState g) (dragStart g) (dragCurrent g)
    (turnChanges g) (turnStartTime g).

Definition set_turnState (s : TurnState) (g : Game T) : Game T :=
  mkGame (width g) (height g) (lumies g) (playerBall g) (currentPlayer g)
    (playerColors g) s (dragStart g) (dragCurrent g)
    (turnChanges g) (turnStartTime g).

Definition set_drag (s c : option (Point T)) (g : Game T) : Game T :=
  mkGame (width g) (height g) (lumies g) (playerBall g) (currentPlayer g)
    (playerColors g) (turnState g) s c
    (turnChanges g) (turnStartTime g).

Definition set_turnChanges (l : list Change) (g : Game T) : Game T :=
  mkGame (width g) (height g) (lumies g) (playerBall g) (currentPlayer g)
    (playerColors g) (turnState g) (dragStart g) (dragCurrent g)
    l (turnStartTime g).

Definition set_turnStartTime (t : option Z) (g : Game T) : Game T :=
  mkGame (width g) (height g) (lumies g) (playerBall g) (currentPlayer g)
    (playerColors g) (turnState g) (dragStart g) (dragCurrent g)
    (turnChanges g) t.

Definition set_size (w h : T) (g : Game T) : Game T :=
  mkGame w h (lumies g) (playerBall g) (currentPlayer g)
    (playerColors g) (turnState g) (dragStart g) (dragCurrent g)
    (turnChanges g) (turnStartTime g).

(** [allBalls = [...this.lumies, this.playerBall]]: index [k] below
    [lumies.length] is a target, index [lumies.length] is the player's
    ball.  The loops only produce indices up to [lumies.length]. *)
Definition getBall (g : Game T) (k : nat) : Ball T :=
  nth k (lumies g) (playerBall g).

Definition setBall (k : nat) (b : Ball T) (g : Game T) : Game T :=
  if (k <? length (lumies g))%nat
  then set_lumies (<[k := b]> (lumies g)) g
  else set_playerBall b g.

End Setters.

(** ** The state monad: a host and an object [S] ([this]) *)

Section Monad.
Context {T : Type}.

Definition M (S A : Type) : Type := Host T -> S -> A * Host T * S.

Definition ret {S A} (a : A) : M S A := fun h s => (a, h, s).

Definition bind {S A B} (m : M S A) (k : A -> M S B) : M S B :=
  fun h s => let '(a, h', s') := m h s in k a h' s'.

Definition get {S} : M S S := fun h s => (s, h, s).

Definition modify {S} (f : S -> S) : M S unit :=
  fun h s => (tt, h, f s).

Definition Math_random {S} : M S T :=
  fun h s =>
    (rand h (nrand h),
     mkHost (rand h) (Datatypes.S (nrand h)) (clock h) (nclock h) (dom h),
     s).

Definition Date_now {S} : M S Z :=
  fun h s =>
    (clock h (nclock h),
     mkHost (rand h) (nrand h) (clock h) (Datatypes.S (nclock h)) (dom h),
     s).

Definition emit {S} (e : DomEvent) : M S unit :=
  fun h s =>
    (tt, mkHost (rand h) (nrand h) (clock h) (nclock h) (dom h ++ [e]), s).

(** A method of the ball at index [k], called from the game. *)
Definition onBall {A} (k : nat) (m : M (Ball T) A) : M (Game T) A :=
  fun h g => let '(a, h', b') := m h (getBall g k) in
             (a, h', setBall k b' g).

Definition when {S} (c : bool) (m : M S unit) : M S unit :=
  if c then m else ret tt.

(** [l.forEach(f)] *)
Fixpoint forEach {S A} (l : list A) (f : A -> M S unit) : M S unit :=
  match l with
  | [] => ret tt
  | a :: l' => bind (f a) (fun _ => forEach l' f)
  end.

(** The host and the object a computation leaves behind. *)
Definition hostAfter {S A} (m : M S A) (h : Host T) (s : S) : Host T :=
  snd (fst (m h s)).

Definition stateAfter {S A} (m : M S A) (h : Host T) (s : S) : S :=
  snd (m h s).

Definition valueOf {S A} (m : M S A) (h : Host T) (s : S) : A :=
  fst (fst (m h s)).

End Monad.

Arguments M : clear implicits.

Declare Scope monad_scope.

Delimit Scope monad_scope with M.

Notation "x <- m ;; k" := (bind m (fun x => k))
  (at level 100, m at next level, k at level 200, right associativity)
  : monad_scope.

Notation "m ;; k" := (bind m (fun _ => k))
  (at level 100, k at level 200, right associativity) : monad_scope.

(** ** Constants & Config *)
Module CONFIG.

Section Config.
Context {T : Type} `{Num T}.

Definition friction : T := dec 94 2.

Definition angularFriction : T := dec 95 2.

Definition restitution : T := dec 8 1.

Definition stopThreshold : T := dec 5 2.

Definition maxPower : T := nofZ 25.

Definition dragScale : T := dec 15 2.

Definition wobbleStrength : T := dec 15 2.

Definition curveBias : T := dec 2 2.

Definition ballRadius : T := nofZ 22.

Definition lumieRadius : T := nofZ 20.

Definition lumieSpacing : T := nofZ 70.

End Config.

Definition cooldown : Z := 4000.

End CONFIG.

(** ** Math Helpers *)
Module Vec2.

Section Vec2.
Context {T : Type} `{Num T}.

Local Open Scope js_scope.

Definition add (v1 v2 : Point T) : Point T :=
  mkPoint (px v1 + px v2) (py v1 + py v2).

Definition sub (v1 v2 : Point T) : Point T :=
  mkPoint (px v1 - px v2) (py v1 - py v2).

Definition mul (v : Point T) (s : T) : Point T :=
  mkPoint (px v * s) (py v * s).

Definition len (v : Point T) : T := nhypot (px v) (py v).

Definition norm (v : Point T) : Point T :=
  let l := nhypot (px v) (py v) in
  if l =? nofZ 0 then mkPoint (nofZ 0) (nofZ 0)
  else mkPoint (px v / l) (py v / l).

Definition dot (v1 v2 : Point T) : T := px v1 * px v2 + py v1 * py v2.

Definition dist (v1 v2 : Point T) : T :=
  nhypot (px v1 - px v2) (py v1 - py v2).

End Vec2.

End Vec2.

(** ** class Ball *)

Section BallCode.
Context {T : Type} `{Num T} `{Trig T}.

Local Open Scope js_scope.

Local Open Scope monad_scope.

(** A ball read as a point ([Vec2.dist(p, this.playerBall)]). *)
Definition pos (b : Ball T) : Point T := mkPoint (x b) (y b).

(** [new Ball(x, y, r, color, isLumie)] *)
Definition Ball_new {S} (x0 y0 r0 : T) (c : Color) (lumie : bool)
  : M T S (Ball T) :=
  a <- Math_random ;;
  h <- Math_random ;;
  ret (mkBall x0 y0 r0 c (nofZ 0) (nofZ 0) r0 (a * npi * nofZ 2) (nofZ 0)
         (h * npi * nofZ 2) lumie 0%Z 0%Z).

Definition update : M T (Ball T) unit :=
  (* 1. Apply Physics *)
  modify (fun b => set_x (x b + vx b) b) ;;
  modify (fun b => set_y (y b + vy b) b) ;;
  modify (fun b => set_angle (angle b + angularVelocity b) b) ;;
  (* 2. Friction *)
  modify (fun b => set_vx (vx b * CONFIG.friction) b) ;;
  modify (fun b => set_vy (vy b * CONFIG.friction) b) ;;
  modify (fun b =>
    set_angularVelocity (angularVelocity b * CONFIG.angularFriction) b) ;;
  (* 3. "Eccentric Mass" Simulation *)
  this <- get ;;
  let speed := nhypot (vx this) (vy this) in
  when (isLumie this && (speed >? dec 1 1))
    (let currentHeavyAngle := angle this + heavyPhase this in
     let wobbleX := ncos currentHeavyAngle * CONFIG.wobbleStrength in
     let wobbleY := nsin currentHeavyAngle * CONFIG.wobbleStrength in
     modify (fun b => set_vx (vx b + wobbleX) b) ;;
     modify (fun b => set_vy (vy b + wobbleY) b) ;;
     rnd <- Math_random ;;
     modify (fun b =>
       set_angularVelocity
         (angularVelocity b +
          (speed * dec 5 2) *
          (if rnd >? dec 5 1 then nofZ 1 else - nofZ 1)) b)) ;;
  (* 4. Stop Threshold *)
  when (speed <? CONFIG.stopThreshold)
    (modify (set_vx (nofZ 0)) ;;
     modify (set_vy (nofZ 0)) ;;
     modify (set_angularVelocity (nofZ 0))).

End BallCode.

(** ** class Game *)

(** JavaScript truthiness of [playerColors[p]]: a color name is truthy,
    [null] and a missing key are not. *)
Definition truthy (c : option (option Color)) : bool :=
  match c with Some (Some _) => true | _ => false end.

(** [p === 1 ? 2 : 1] *)
Definition otherPlayer (p : nat) : nat := if (p =? 1)%nat then 2%nat else 1%nat.

Definition count_color {T} (c : Color) (l : list (Ball T)) : nat :=
  length (filter (fun b => color b = c) l).

Definition count_after (c : Color) (l : list Change) : nat :=
  length (filter (fun ch => after ch = c) l).

Section GameCode.
Context {T : Type} `{Num T} `{Trig T}.

Local Open Scope js_scope.

Local Open Scope monad_scope.

Definition resetPlayerBall : M T (Game T) unit :=
  this <- get ;;
  let y0 := if (currentPlayer this =? 1)%nat
            then height this - nofZ 100 else nofZ 100 in
  b <- Ball_new (width this / nofZ 2) y0 CONFIG.ballRadius gold false ;;
  modify (set_playerBall b).

Definition initBoard : M T (Game T) unit :=
  modify (set_lumies []) ;;
  this <- get ;;
  let count := 5%nat in
  let spacing :=
    nmin (width this / nofZ (Z.of_nat count + 1)) CONFIG.lumieSpacing in
  let startX :=
    (width this - spacing * nofZ (Z.of_nat count - 1)) / nofZ 2 in
  let centerY := height this / nofZ 2 in
  forEach (seq 0 count) (fun i =>
    b <- Ball_new (startX + nofZ (Z.of_nat i) * spacing) centerY
           CONFIG.lumieRadius red true ;;
    modify (fun g => set_lumies (lumies g ++ [b]) g)) ;;
  resetPlayerBall.

(** The victory overlay and fifty confetti particles; of these writes
    the trace keeps the overlay. *)
Definition gameOver (winnerColor : Color) : M T (Game T) unit :=
  _ <- Math_random ;;                   (* charImg *)
  emit (Victory winnerColor) ;;
  forEach (seq 0 50) (fun _ =>
    _ <- Math_random ;;                 (* c.style.left *)
    _ <- Math_random ;;                 (* c.style.background *)
    _ <- Math_random ;;                 (* c.style.animation *)
    ret tt).

Definition updateScores : M T (Game T) unit :=
  this <- get ;;
  let g := count_color green (lumies this) in
  let b := count_color blue (lumies this) in
  emit (ScoreGreen g) ;;
  emit (ScoreBlue b) ;;
  (* Win cond *)
  when (g =? 5)%nat (gameOver green) ;;
  when (b =? 5)%nat (gameOver blue).

(** Once player 1 has a color the badge text is built from
    [myCol.toUpperCase()], [myCol] being [playerColors[currentPlayer]]:
    the source raises a TypeError there when the player to move has no
    color.  The embedding has no exceptions and writes [Badge p None] in
    that case, which is not reached in play.  What is proved of the steps
    of [endTurn] that follow this call (the new player's ball, the aiming
    state) is stated for the states in which the call succeeds
    ([badgeReady] below). *)
Definition updateBadge : M T (Game T) unit :=
  this <- get ;;
  let p1Col := playerColors this !! 1%nat in
  if negb (truthy p1Col) then emit (Badge (currentPlayer this) None)
  else emit (Badge (currentPlayer this)
               (mjoin (playerColors this !! currentPlayer this))).

Definition onHitLumie (k : nat) : M T (Game T) unit :=
  now <- Date_now ;;
  this <- get ;;
  let lumie := getBall this k in
  if (now <? lockedUntil lumie)%Z then ret tt
  else
    let prevColor := color lumie in
    (* Logic: Red -> Random(Green/Blue), Green->Blue, Blue->Green *)
    match color lumie with
    | red =>
        rnd <- Math_random ;;
        let pick := if rnd >? dec 5 1 then green else blue in
        onBall k (modify (set_color pick)) ;;
        (* First blood assignment *)
        when (negb (truthy (playerColors this !! 1%nat)) &&
              negb (truthy (playerColors this !! 2%nat)))
          (modify (fun g =>
             set_playerColors
               (<[currentPlayer g := Some pick]> (playerColors g)) g) ;;
           modify (fun g =>
             set_playerColors
               (<[otherPlayer (currentPlayer g) :=
                    Some (if decide (pick = green) then blue else green)]>
                  (playerColors g)) g) ;;
           updateBadge)
    | green => onBall k (modify (set_color blue))
    | blue => onBall k (modify (set_color green))
    | gold => ret tt
    end ;;
    (* Lock it *)
    now' <- Date_now ;;
    onBall k (modify (set_lockedUntil (now' + CONFIG.cooldown)%Z)) ;;
    (* Track change *)
    modify (fun g =>
      set_turnChanges
        (turnChanges g ++ [mkChange k prevColor (color (getBall g k))]) g) ;;
    updateScores.

Definition resolveCollision (i j : nat) : M T (Game T) unit :=
  this <- get ;;
  let b1 := getBall this i in
  let b2 := getBall this j in
  let dx := x b2 - x b1 in
  let dy := y b2 - y b1 in
  let dist := nhypot dx dy in
  let minDist := r b1 + r b2 in
  when (dist <? minDist)
    ((* 1. Separate *)
     let overlap := minDist - dist in
     let nx := dx / dist in
     let ny := dy / dist in
     onBall i (modify (fun b => set_x (x b - nx * overlap * dec 5 1) b)) ;;
     onBall i (modify (fun b => set_y (y b - ny * overlap * dec 5 1) b)) ;;
     onBall j (modify (fun b => set_x (x b + nx * overlap * dec 5 1) b)) ;;
     onBall j (modify (fun b => set_y (y b + ny * overlap * dec 5 1) b)) ;;
     (* 2. Reflect velocity *)
     let tx := - ny in
     let ty := nx in
     let dpTan1 := vx b1 * tx + vy b1 * ty in
     let dpTan2 := vx b2 * tx + vy b2 * ty in
     let dpNorm1 := vx b1 * nx + vy b1 * ny in
     let dpNorm2 := vx b2 * nx + vy b2 * ny in
     let m1 := mass b1 in
     let m2 := mass b2 in
     let v1n := (dpNorm1 * (m1 - m2) + nofZ 2 * m2 * dpNorm2) / (m1 + m2) in
     let v2n := (dpNorm2 * (m2 - m1) + nofZ 2 * m1 * dpNorm1) / (m1 + m2) in
     onBall i (modify (set_vx (tx * dpTan1 + nx * v1n))) ;;
     onBall i (modify (set_vy (ty * dpTan1 + ny * v1n))) ;;
     onBall j (modify (set_vx (tx * dpTan2 + nx * v2n))) ;;
     onBall j (modify (set_vy (ty * dpTan2 + ny * v2n))) ;;
     (* Handle Game Logic if Lumie Impact *)
     let impactPower := nabs (dpNorm1 - dpNorm2) in
     when (impactPower >? dec 5 1)
       (when (isLumie b1) (onHitLumie i) ;;
        when (isLumie b2) (onHitLumie j)) ;;
     (* Add wobble to angular velocity on impact (chaos) *)
     rnd1 <- Math_random ;;
     onBall i (modify (fun b =>
       set_angularVelocity (angularVelocity b + (rnd1 - dec 5 1)) b)) ;;
     rnd2 <- Math_random ;;
     onBall j (modify (fun b =>
       set_angularVelocity (angularVelocity b + (rnd2 - dec 5 1)) b))).

Definition endTurn : M T (Game T) unit :=
  modify (set_turnState process_turn) ;;
  (* --- Replay Rules --- *)
  this <- get ;;
  let myCol := playerColors this !! currentPlayer this in
  let switchTurn :=
    match myCol with
    | Some (Some c) =>
        let opponentCol := if decide (c = green) then blue else green in
        let gainedMy := count_after c (turnChanges this) in
        let gainedOpponent := count_after opponentCol (turnChanges this) in
        if (0 <? gainedMy)%nat && (gainedOpponent =? 0)%nat
        then false (* Replay! *)
        else true
    | _ => true (* Colors not assigned yet, standard switch *)
    end in
  when switchTurn
    (modify (fun g => set_currentPlayer (otherPlayer (currentPlayer g)) g)) ;;
  updateBadge ;;
  resetPlayerBall ;;
  modify (set_turnState aiming) ;;
  (* Show toast *)
  this' <- get ;;
  if negb switchTurn then emit (ToastReplay (mjoin myCol))
  else emit (ToastTurn (currentPlayer this')).

(** [shoot] is only called by the release handler below, which has
    checked [dragStart]; [dragCurrent] is set whenever [dragStart] is. *)
Definition shoot : M T (Game T) unit :=
  this <- get ;;
  match dragCurrent this, dragStart this with
  | Some dc, Some ds =>
      let v := Vec2.sub dc ds in
      let len := Vec2.len v in
      if len <? nofZ 5 then ret tt (* Ignore small taps *)
      else
        let power :=
          nmin (len * CONFIG.dragScale) CONFIG.maxPower in
        let dir := Vec2.norm v in
        modify (fun g => set_playerBall (set_vx (px dir * power) (playerBall g)) g) ;;
        modify (fun g => set_playerBall (set_vy (py dir * power) (playerBall g)) g) ;;
        modify (fun g =>
          set_playerBall
            (set_angularVelocity (power * dec 1 1) (playerBall g)) g) ;;
        modify (set_turnState rolling) ;;
        modify (set_turnChanges []) ;;
        t0 <- Date_now ;;
        modify (set_turnStartTime (Some t0)) ;;
        (* Unlock expired Lumies *)
        now <- Date_now ;;
        modify (fun g =>
          set_lumies
            (map (fun l => if (lockedUntil l <? now)%Z
                           then set_lockedUntil 0%Z l else l)
               (lumies g)) g)
  | _, _ => ret tt
  end.

(** The callback of [allBalls.forEach] in [updatePhysics], run on one
    ball; [moving] is the local flag it may raise. *)
Definition updatePhysics_each (timeLimitReached : bool) (w h : T)
    (moving : bool) : M T (Ball T) bool :=
  update ;;
  (* If time limit reached, Force Hard Stop to prevent drifting *)
  when timeLimitReached
    (modify (set_vx (nofZ 0)) ;;
     modify (set_vy (nofZ 0)) ;;
     modify (set_angularVelocity (nofZ 0))) ;;
  b <- get ;;
  let moving :=
    if (nabs (vx b) >? nofZ 0) || (nabs (vy b) >? nofZ 0)
    then true else moving in
  (* Walls *)
  b <- get ;;
  when (x b <? r b)
    (modify (fun b => set_x (r b) b) ;;
     modify (fun b => set_vx (vx b * - CONFIG.restitution) b)) ;;
  b <- get ;;
  when (x b >? w - r b)
    (modify (fun b => set_x (w - r b) b) ;;
     modify (fun b => set_vx (vx b * - CONFIG.restitution) b)) ;;
  b <- get ;;
  when (y b <? r b)
    (modify (fun b => set_y (r b) b) ;;
     modify (fun b => set_vy (vy b * - CONFIG.restitution) b)) ;;
  b <- get ;;
  when (y b >? h - r b)
    (modify (fun b => set_y (h - r b) b) ;;
     modify (fun b => set_vy (vy b * - CONFIG.restitution) b)) ;;
  ret moving.

(** [l.forEach(f)] where [f] updates a captured local. *)
Fixpoint forEachWith {S A L} (l : list A) (f : A -> L -> M T S L) (acc : L)
  : M T S L :=
  match l with
  | [] => ret acc
  | a :: l' => acc' <- f a acc ;; forEachWith l' f acc'
  end.

Definition updatePhysics : M T (Game T) unit :=
  this <- get ;;
  let n := length (lumies this) in
  let allBalls := seq 0 (n + 1) in
  (* 3-SECOND RULE *)
  now <- Date_now ;;
  let elapsed := (now - default 0 (turnStartTime this))%Z in
  let timeLimitReached := (3000 <? elapsed)%Z in
  (* Update positions *)
  moving <- forEachWith allBalls (fun k moving =>
              onBall k (updatePhysics_each timeLimitReached
                          (width this) (height this) moving)) false ;;
  (* Collisions *)
  forEach allBalls (fun i =>
    forEach (seq (i + 1) (n + 1 - (i + 1))) (fun j =>
      resolveCollision i j)) ;;
  this' <- get ;;
  when (negb moving)
    (when (bool_decide (turnState this' = rolling)) endTurn).

(** One animation frame; drawing is not modelled. *)
Definition loop : M T (Game T) unit :=
  this <- get ;;
  when (bool_decide (turnState this = rolling)) updatePhysics.

(** The pointer handlers of [bindEvents]. *)
Definition on_start (p : Point T) : M T (Game T) unit :=
  this <- get ;;
  if negb (bool_decide (turnState this = aiming)) then ret tt
  else
    let allowedY :=
      if (currentPlayer this =? 1)%nat
      then py p >? height this * dec 75 2
      else py p <? height this * dec 25 2 in
    let distToBall := Vec2.dist p (pos (playerBall this)) in
    when (allowedY || (distToBall <? nofZ 60))
      (modify (set_drag (Some p) (Some p))).

Definition on_move (p : Point T) : M T (Game T) unit :=
  this <- get ;;
  match dragStart this with
  | None => ret tt
  | Some ds => modify (set_drag (Some ds) (Some p))
  end.

Definition on_end : M T (Game T) unit :=
  this <- get ;;
  match dragStart this with
  | None => ret tt
  | Some _ => shoot ;; modify (set_drag None None)
  end.

Definition resize (w h : T) : M T (Game T) unit :=
  modify (set_size w h).

(** [this.playerBall = null], until [initBoard] creates the ball. *)
Definition nullBall : Ball T :=
  mkBall (nofZ 0) (nofZ 0) (nofZ 0) gold (nofZ 0) (nofZ 0) (nofZ 0)
    (nofZ 0) (nofZ 0) (nofZ 0) false 0%Z 0%Z.

(** [new Game()] in a window of the given size, up to the first frame. *)
Definition Game_new (w ht : T) (h : Host T) : Host T * Game T :=
  let this :=
    mkGame w ht [] nullBall 1 (<[2%nat := None]> (<[1%nat := None]> ∅))
      aiming None None [] None in
  let '(_, h', this') := (resize w ht ;; initBoard ;; loop) h this in
  (h', this').

(** What the browser can deliver to the running game. *)
Inductive Input :=
| MouseDown (p : Point T)
| MouseMove (p : Point T)
| MouseUp
| Frame
| Resize (w h : T).

Definition handle (i : Input) : M T (Game T) unit :=
  match i with
  | MouseDown p => on_start p
  | MouseMove p => on_move p
  | MouseUp => on_end
  | Frame => loop
  | Resize w h => resize w h
  end.

Definition run (l : list Input) : M T (Game T) unit := forEach l handle.

End GameCode.

(** ** The two readings of the numbers *)

(** *** Exact arithmetic *)
Definition Rltb (a b : R) : bool := if Rlt_dec a b then true else false.

Definition Reqb (a b : R) : bool := if Req_dec_T a b then true else false.

Definition Rhypot (a b : R) : R := sqrt (a * a + b * b)%R.

Global Instance Num_R : Num R := {|
  nadd := Rplus; nsub := Rminus; nmul := Rmult; ndiv := Rdiv;
  nneg := Ropp; nabs := Rabs; nhypot := Rhypot; nmin := Rmin;
  nlt := Rltb; neq := Reqb; nofZ := IZR |}.

Global Instance Trig_R : Trig R := {| npi := PI; ncos := cos; nsin := sin |}.

(** *** IEEE binary64 *)
Definition float_ofZ (z : Z) : PrimFloat.float :=
  match z with
  | Z0 => PrimFloat.zero
  | Zpos _ => PrimFloat.of_uint63 (Uint63.of_Z z)
  | Zneg p => PrimFloat.opp (PrimFloat.of_uint63 (Uint63.of_Z (Zpos p)))
  end.

(** [Math.min]: NaN if either argument is. *)
Definition float_min (a b : PrimFloat.float) : PrimFloat.float :=
  if PrimFloat.is_nan a then a
  else if PrimFloat.is_nan b then b
  else if PrimFloat.ltb b a then b else a.

(** [Math.hypot] is only required to approximate the root of the sum of
    squares.  The evaluations below call it with a second argument of
    zero, where an implementation returns the absolute value of the first
    argument, as this one does on the values used. *)
Definition float_hypot (a b : PrimFloat.float) : PrimFloat.float :=
  PrimFloat.sqrt (PrimFloat.add (PrimFloat.mul a a) (PrimFloat.mul b b)).

Global Instance Num_float : Num PrimFloat.float := {|
  nadd := PrimFloat.add; nsub := PrimFloat.sub; nmul := PrimFloat.mul;
  ndiv := PrimFloat.div; nneg := PrimFloat.opp; nabs := PrimFloat.abs;
  nhypot := float_hypot; nmin := float_min;
  nlt := PrimFloat.ltb; neq := PrimFloat.eqb; nofZ := float_ofZ |}.

(** [Number.isFinite] *)
Definition float_finite (f : PrimFloat.float) : bool :=
  negb (PrimFloat.is_nan f) && negb (PrimFloat.is_infinity f).

(** Every field of a body's position and velocity is finite. *)
Definition body_finite (b : Ball PrimFloat.float) : bool :=
  float_finite (x b) && float_finite (y b) &&
  float_finite (vx b) && float_finite (vy b) &&
  float_finite (angularVelocity b).

(** * Vocabulary of the statements and sample states *)

Import ListNotations.

Section UpdateExactDefs.
Local Open Scope R_scope.

Definition speed (b : Ball R) : R := Rhypot (vx b) (vy b).

Definition updated (h : Host R) (b : Ball R) : Ball R :=
  stateAfter update h b.

(** Speed after the friction step, the [speed] local of [update]. *)
Definition frictionSpeed (b : Ball R) : R :=
  Rhypot (vx b * CONFIG.friction) (vy b * CONFIG.friction).

Definition sample_host : Host R := mkHost (fun _ => 0) 0 (fun _ => 0%Z) 0 [].

(** A target rolling at speed 0.2 with its heavy spot straight ahead. *)
Definition wobbling_lumie : Ball R :=
  mkBall 0 0 20 red (2 / 10) 0 20 0 0 0 true 0%Z 0%Z.

(** The player's ball rolling at speed 1. *)
Definition rolling_ball : Ball R :=
  mkBall 0 0 22 gold 1 0 22 0 0 0 false 0%Z 0%Z.

(** A ball creeping at speed 0.01. *)
Definition creeping_ball : Ball R :=
  mkBall 0 0 22 gold (1 / 100) 0 22 0 0 0 false 0%Z 0%Z.

End UpdateExactDefs.

Section ConversionDefs.
Context {T : Type} `{Num T}.

Implicit Types (g : Game T) (h : Host T) (k : nat).

(** [!playerColors[1] && !playerColors[2]] *)
Definition unassigned (g : Game T) : bool :=
  negb (truthy (playerColors g !! 1%nat)) &&
  negb (truthy (playerColors g !! 2%nat)).

(** The color an unlocked target takes when hit; [rnd] is the draw used
    for a neutral one. *)
Definition converted (c : Color) (rnd : T) : Color :=
  match c with
  | red => if (rnd >? dec 5 1)%js then green else blue
  | green => blue
  | blue => green
  | gold => gold
  end.

Definition opposite (c : Color) : Color :=
  if decide (c = green) then blue else green.

End ConversionDefs.

Section PreservesDefs.
Context {T : Type}.

(** [m] keeps the invariant [I] of the object it runs on, whatever the
    host. *)
Definition preserves {S A} (I : S -> Prop) (m : M T S A) : Prop :=
  forall h s, I s -> I (stateAfter m h s).

End PreservesDefs.

Section FramesDefs.
Context {T : Type} `{Num T} `{Trig T}.

Implicit Types (g : Game T) (h : Host T) (b : Ball T) (k : nat).

(** *** What the methods of a ball leave alone *)
Definition sameBody (b b' : Ball T) : Prop :=
  color b' = color b /\ r b' = r b /\ mass b' = mass b /\
  isLumie b' = isLumie b /\ lockedUntil b' = lockedUntil b.

End FramesDefs.

Section Frames2Defs.
Context {T : Type} `{Num T} `{Trig T}.

Implicit Types (g : Game T) (h : Host T) (b : Ball T) (k : nat).

Definition colorsAre (pc : gmap nat (option Color)) (g : Game T) : Prop :=
  playerColors g = pc.

(** *** While no player has a color, every target is still neutral *)
Definition targetColors (g : Game T) : list Color := map color (lumies g).

Definition neutralUntilAssigned (g : Game T) : Prop :=
  unassigned g = true -> Forall (fun c => c = red) (targetColors g).

End Frames2Defs.

Section TurnLogicDefs.
Context {T : Type} `{Num T} `{Trig T}.

Implicit Types (g : Game T) (h : Host T) (b : Ball T) (k : nat).

(** The decision of [endTurn]: the local [switchTurn]. *)
Definition switchTurn (g : Game T) : bool :=
  match playerColors g !! currentPlayer g with
  | Some (Some c) =>
      let opponentCol := if decide (c = green) then blue else green in
      if (0 <? count_after c (turnChanges g))%nat &&
         (count_after opponentCol (turnChanges g) =? 0)%nat
      then false else true
  | _ => true
  end.

End TurnLogicDefs.

Section KinematicsDefs.
Context {T : Type} `{Num T}.

Implicit Types (g : Game T) (h : Host T) (b : Ball T) (k m : nat).

(** Position and linear velocity of a ball. *)
Definition kinematics (b : Ball T) : T * T * T * T :=
  (x b, y b, vx b, vy b).

Definition sameKinematics (g0 g : Game T) : Prop :=
  forall m, kinematics (getBall g m) = kinematics (getBall g0 m).

End KinematicsDefs.

Section SamplesDefs.
Local Open Scope R_scope.

Definition lumieAt (x0 : R) (c : Color) : Ball R :=
  mkBall x0 300 20 c 0 0 20 0 0 0 true 0%Z 0%Z.

Definition ballAt (x0 y0 : R) : Ball R :=
  mkBall x0 y0 22 gold 0 0 22 0 0 0 false 0%Z 0%Z.

Definition nobody : gmap nat (option Color) :=
  <[2%nat := None]> (<[1%nat := None]> ∅).

Definition late_host : Host R :=
  mkHost (fun _ => 0) 0 (fun _ => 5000%Z) 0 [].

Definition crowded_board : Game R :=
  mkGame 800 600
    [lumieAt 260 red; lumieAt 290 red; lumieAt 400 red; lumieAt 470 red;
     lumieAt 540 red]
    (ballAt 400 500) 1 nobody rolling None None [] (Some 0%Z).

End SamplesDefs.

Section CollisionExactDefs.
Local Open Scope R_scope.

Implicit Types (g : Game R) (h : Host R) (b : Ball R).

(** Distance of the centers and the contact normal and tangent of two
    bodies: the locals [dist], [nx], [ny], [tx], [ty]. *)
Definition centerDist (b1 b2 : Ball R) : R :=
  Rhypot (x b2 - x b1) (y b2 - y b1).

Definition normalX (b1 b2 : Ball R) : R := (x b2 - x b1) / centerDist b1 b2.

Definition normalY (b1 b2 : Ball R) : R := (y b2 - y b1) / centerDist b1 b2.

(** Components of [b]'s velocity along the normal and the tangent of the
    contact of [b1] and [b2]. *)
Definition alongNormal (b1 b2 b : Ball R) : R :=
  vx b * normalX b1 b2 + vy b * normalY b1 b2.

Definition alongTangent (b1 b2 b : Ball R) : R :=
  vx b * - normalY b1 b2 + vy b * normalX b1 b2.

End CollisionExactDefs.

Section PassesDefs.
Context {T : Type} `{Num T} `{Trig T}.

Implicit Types (g : Game T) (h : Host T) (b : Ball T) (k m : nat).

(** Everything of the game but its balls. *)
Definition frameOf (g : Game T) :=
  (width g, height g, currentPlayer g, playerColors g, turnState g,
   dragStart g, dragCurrent g, turnChanges g, turnStartTime g).

End PassesDefs.

Section TimeoutTickDefs.
Local Open Scope R_scope.

Implicit Types (g : Game R) (h : Host R) (b : Ball R) (k m : nat).

Definition atRest (b : Ball R) : Prop := vx b = 0 /\ vy b = 0.

(** *** The collision pass when every ball is at rest *)
Definition stillAs {F} (F0 : F) (frame : Game R -> F) (g : Game R) : Prop :=
  (forall m, atRest (getBall g m)) /\ frame g = F0.

(** The two passes of [updatePhysics]. *)
Definition positionsPass (tl : bool) (w ht : R) (n : nat)
  : M R (Game R) bool :=
  forEachWith (seq 0 (n + 1))
    (fun k moving => onBall k (updatePhysics_each tl w ht moving)) false.

Definition collisionsPass (n : nat) : M R (Game R) unit :=
  forEach (seq 0 (n + 1)) (fun i =>
    forEach (seq (i + 1) (n + 1 - (i + 1))) (fun j =>
      resolveCollision i j)).

End TimeoutTickDefs.

Section TapeDefs.
Context {T : Type} `{Num T}.

Implicit Types (g : Game T) (h : Host T) (b : Ball T) (k m : nat).

(** [m] keeps the invariant [I] when the random draws come from
    [tape]. *)
Definition keeps {S A} (tape : nat -> T) (I : S -> Prop) (m : M T S A)
  : Prop :=
  forall h s, rand h = tape -> I s ->
              rand (hostAfter m h s) = tape /\ I (stateAfter m h s).

(** With draws from [tape], [m] leads from [P] to [Q]. *)
Definition leads {S A} (tape : nat -> T) (P : S -> Prop) (m : M T S A)
    (Q : S -> Prop) : Prop :=
  forall h s, rand h = tape -> P s ->
              rand (hostAfter m h s) = tape /\ Q (stateAfter m h s).

End TapeDefs.

Section SpinAfterTimeoutDefs.
Local Open Scope R_scope.

Implicit Types (g : Game R) (h : Host R) (b : Ball R) (k m : nat).

Definition zeroTape : nat -> R := fun _ => 0.

(** The first ball's angular velocity is at most [c]. *)
Definition spunBelow (c : R) (g : Game R) : Prop :=
  angularVelocity (getBall g 0) <= c.

(** The locals [dist < minDist] of [resolveCollision] for the pair. *)
Definition overlapping (i j : nat) (g : Game R) : Prop :=
  centerDist (getBall g i) (getBall g j) <
  r (getBall g i) + r (getBall g j).

End SpinAfterTimeoutDefs.

Section CountDefs.
Context {T : Type} `{Num T} `{Trig T}.

Implicit Types (g : Game T) (h : Host T) (b : Ball T) (k m : nat).

(** The number of targets. *)
Definition targetCount (n : nat) (g : Game T) : Prop :=
  length (lumies g) = n.

End CountDefs.

Section TapeOfPassesDefs.
Context {T : Type} `{Num T} `{Trig T}.

Implicit Types (g : Game T) (h : Host T) (b : Ball T) (k m : nat).

Definition anyBall (b : Ball T) : Prop := True.

End TapeOfPassesDefs.

Section AfterVictoryDefs.
Local Open Scope R_scope.

Implicit Types (g : Game R) (h : Host R) (b : Ball R) (k m : nat).

(** Player 1 plays blue, player 2 green. *)
Definition blue_green : gmap nat (option Color) :=
  <[2%nat := Some green]> (<[1%nat := Some blue]> ∅).

(** Four green targets and a blue one, player 1 rolling. *)
Definition last_blue_board : Game R :=
  mkGame 800 600
    [lumieAt 240 green; lumieAt 320 green; lumieAt 400 green;
     lumieAt 480 green; lumieAt 560 blue]
    (ballAt 400 500) 1 blue_green rolling None None [] (Some 0%Z).

End AfterVictoryDefs.

Section Binary64Defs.
(** A target at rest at [(x0, y0)], in binary64. *)
Definition float_lumie (x0 y0 : Z) : Ball PrimFloat.float :=
  mkBall (nofZ x0) (nofZ y0) (nofZ 20) red (nofZ 0) (nofZ 0) (nofZ 20)
    (nofZ 0) (nofZ 0) (nofZ 0) true 0%Z 0%Z.

(** Two targets with the same center. *)
Definition stacked_board : Game PrimFloat.float :=
  mkGame (nofZ 800) (nofZ 600)
    [float_lumie 400 300; float_lumie 400 300]
    (mkBall (nofZ 400) (nofZ 500) (nofZ 22) gold (nofZ 0) (nofZ 0)
       (nofZ 22) (nofZ 0) (nofZ 0) (nofZ 0) false 0%Z 0%Z)
    1 nobody rolling None None [] None.

Definition quiet_host : Host PrimFloat.float :=
  mkHost (fun _ => dec 25 2) 0 (fun _ => 0%Z) 0 [].

(** A target at rest at [(x0, 300)], in binary64. *)
Definition float_lumie_at (x0 : PrimFloat.float) : Ball PrimFloat.float :=
  mkBall x0 (nofZ 300) (nofZ 20) red (nofZ 0) (nofZ 0) (nofZ 20)
    (nofZ 0) (nofZ 0) (nofZ 0) true 0%Z 0%Z.

(** Two targets side by side, 0.003 apart. *)
Definition near_board : Game PrimFloat.float :=
  mkGame (nofZ 800) (nofZ 600)
    [float_lumie_at (dec 250007 3); float_lumie_at (dec 250010 3)]
    (mkBall (nofZ 400) (nofZ 500) (nofZ 22) gold (nofZ 0) (nofZ 0)
       (nofZ 22) (nofZ 0) (nofZ 0) (nofZ 0) false 0%Z 0%Z)
    1 nobody rolling None None [] None.

End Binary64Defs.

Section WitnessesDefs.
Local Open Scope R_scope.

(** A ball rolling to the right at speed 3, overlapping a target at rest
    30 to its right. *)
Definition striker : Ball R :=
  mkBall 260 300 22 gold 3 0 22 0 0 0 false 0%Z 0%Z.

Definition strike_board : Game R :=
  mkGame 800 600 [lumieAt 290 red] striker 1 nobody rolling None None []
    (Some 0%Z).

(** Player 2 (green) has just turned the last blue target green. *)
Definition replay_board : Game R :=
  mkGame 800 600
    [lumieAt 240 green; lumieAt 320 green; lumieAt 400 green;
     lumieAt 480 green; lumieAt 560 green]
    (ballAt 400 100) 2 blue_green rolling None None
    [mkChange 4 blue green] (Some 0%Z).

End WitnessesDefs.

Section FieldFramesDefs.
Context {T : Type} `{Num T} `{Trig T}.

Implicit Types (g : Game T) (h : Host T) (b : Ball T) (i j k m : nat).

(** What a ball is made of: radius, mass and kind. *)
Definition shapeOf (b : Ball T) : T * T * bool :=
  (r b, mass b, isLumie b).

(** A field of a ball that no collision writes. *)
Definition collisionFree {X} (F : Ball T -> X) : Prop :=
  (forall v b, F (set_x v b) = F b) /\
  (forall v b, F (set_y v b) = F b) /\
  (forall v b, F (set_vx v b) = F b) /\
  (forall v b, F (set_vy v b) = F b) /\
  (forall v b, F (set_angularVelocity v b) = F b) /\
  (forall c b, F (set_color c b) = F b) /\
  (forall t b, F (set_lockedUntil t b) = F b).

End FieldFramesDefs.

Section ShootExactDefs.
Local Open Scope R_scope.

Implicit Types (g : Game R) (h : Host R) (b : Ball R) (p ds dc : Point R).

(** The launch speed [shoot] computes for a drag of length [len]. *)
Definition launchPower (len : R) : R := Rmin (len * (15 / 100)) 25.

(** A game in which the player drags from the ball's place 2 px, and one
    in which he drags 300 px. *)
Definition tap_board : Game R :=
  mkGame 800 600 [lumieAt 400 red] (ballAt 400 500) 1 nobody aiming
    (Some (mkPoint 400 500)) (Some (mkPoint 400 498)) [] None.

Definition pull_board : Game R :=
  mkGame 800 600 [lumieAt 400 red] (ballAt 400 500) 1 nobody aiming
    (Some (mkPoint 400 500)) (Some (mkPoint 400 200)) [] None.

End ShootExactDefs.

Section PhysicsExactDefs.
Local Open Scope R_scope.

Implicit Types (g : Game R) (h : Host R) (b : Ball R) (i j k m : nat).

(** A ball at rest with no spin; one crossing the right wall. *)
Definition resting_ball : Ball R :=
  mkBall 400 300 20 red 0 0 20 1 0 2 true 0%Z 0%Z.

Definition leaving_ball : Ball R :=
  mkBall 795 300 22 gold 10 0 22 0 0 0 false 0%Z 0%Z.

(** Kinetic energy of a body. *)
Definition energy (b : Ball R) : R :=
  mass b * (vx b * vx b + vy b * vy b) / 2.

(** Two targets, the first rolling into the second. *)
Definition pair_board : Game R :=
  mkGame 800 600
    [mkBall 260 300 20 green 3 1 20 0 0 0 true 0%Z 0%Z; lumieAt 290 green]
    (ballAt 400 500) 1 nobody rolling None None [] (Some 0%Z).

End PhysicsExactDefs.

Section ControlDefs.
Context {T : Type} `{Num T} `{Trig T}.

Implicit Types (g : Game T) (h : Host T) (b : Ball T) (i j k m : nat).

(** The fields of the game that only the handlers and [endTurn] write. *)
Definition controlOf (g : Game T) :=
  (width g, height g, currentPlayer g, turnState g, dragStart g,
   dragCurrent g, turnStartTime g).

Definition validPlayer (g : Game T) : Prop :=
  currentPlayer g = 1%nat \/ currentPlayer g = 2%nat.

(** Radius, mass and kind of the targets, in order. *)
Definition targetShapes (L : list (T * T * bool)) (g : Game T) : Prop :=
  map shapeOf (lumies g) = L.

End ControlDefs.

Section WritesDefs.
Context {T : Type} `{Num T} `{Trig T}.

Implicit Types (g : Game T) (h : Host T) (b : Ball T) (i j k m : nat).

(** [shoot]'s unlocking of a target at time [now]. *)
Definition unlockExpired (now : Z) (l : Ball T) : Ball T :=
  if (lockedUntil l <? now)%Z then set_lockedUntil 0%Z l else l.

(** A fresh player's ball: gold, of radius and mass [ballRadius], at
    rest. *)
Definition freshBall (b : Ball T) : Prop :=
  color b = gold /\ shapeOf b = (CONFIG.ballRadius, CONFIG.ballRadius, false) /\
  vx b = nofZ 0 /\ vy b = nofZ 0 /\ angularVelocity b = nofZ 0.

(** The elementary writes a roll is made of; [I] is stable under each. *)
Record stableInRoll (I : Game T -> Prop) : Prop := {
  onBallWrite : forall k b' g,
    sameBody (getBall g k) b' -> I g -> I (setBall k b' g);
  onHit : forall k, preserves I (onHitLumie k);
  onTurnState : forall s g, I g -> I (set_turnState s g);
  onSwitch : forall g,
    I g -> I (set_currentPlayer (otherPlayer (currentPlayer g)) g);
  onFreshBall : forall b g, freshBall b -> I g -> I (set_playerBall b g)
}.

(** The writes of a roll and those of the input handlers. *)
Record stableUnderWrites (I : Game T -> Prop) : Prop := {
  inRoll : stableInRoll I;
  onLaunch : forall (f : Ball T -> Ball T) g,
    (forall b, sameBody b (f b)) -> I g ->
    I (set_playerBall (f (playerBall g)) g);
  onLog : forall l g, I g -> I (set_turnChanges l g);
  onStartTime : forall t g, I g -> I (set_turnStartTime t g);
  onDrag : forall s c g, I g -> I (set_drag s c g);
  onSize : forall w ht g, I g -> I (set_size w ht g);
  onUnlock : forall now g,
    I g -> I (set_lumies (map (unlockExpired now) (lumies g)) g)
}.

End WritesDefs.

Section InstancesDefs.
Context {T : Type} `{Num T} `{Trig T}.

Implicit Types (g : Game T) (h : Host T) (b : Ball T) (i j k m : nat).

(** Gold is the color of the player's ball and of no target. *)
Definition goldIsPlayer (g : Game T) : Prop :=
  forall m, color (getBall g m) = gold <-> (length (lumies g) <= m)%nat.

Definition isGold (b : Ball T) : bool := bool_decide (color b = gold).

End InstancesDefs.

Section HandlersDefs.
Context {T : Type} `{Num T} `{Trig T}.

Implicit Types (g : Game T) (h : Host T) (b : Ball T) (i j k m : nat)
  (p : Point T).

(** Between two events the game is aiming or rolling, and a drag is in
    progress only while aiming, with both of its ends set. *)
Definition betweenEvents (g : Game T) : Prop :=
  turnState g <> process_turn /\
  (dragStart g = None \/
   (turnState g = aiming /\ dragCurrent g <> None)).

End HandlersDefs.

Section ScoresDefs.
Context {T : Type} `{Num T}.

Implicit Types (g : Game T) (h : Host T) (k : nat).

(** What [updateScores] writes to the page for the targets [l]. *)
Definition scoreEvents (l : list (Ball T)) : list DomEvent :=
  [ScoreGreen (count_color green l); ScoreBlue (count_color blue l)] ++
  (if (count_color green l =? 5)%nat then [Victory green] else []) ++
  (if (count_color blue l =? 5)%nat then [Victory blue] else []).

End ScoresDefs.

Section NaturalStopDefs.
Local Open Scope R_scope.

Implicit Types (g : Game R) (h : Host R) (b : Ball R) (i j k m : nat).

(** A host whose clock reads 1000 ms. *)
Definition early_host : Host R :=
  mkHost (fun _ => 0) 0 (fun _ => 1000%Z) 0 [].

End NaturalStopDefs.

Section BoardDefs.
Local Open Scope R_scope.

Implicit Types (g : Game R) (h : Host R) (b : Ball R) (i j k m : nat).

(** The distance [initBoard] puts between neighbouring targets. *)
Definition boardSpacing (w : R) : R := Rmin (w / 6) 70.

End BoardDefs.

Section StillRollingDefs.
Local Open Scope R_scope.

Implicit Types (g : Game R) (h : Host R) (b : Ball R) (i j k m : nat).

(** The player's ball, rolling fast enough not to be snapped to rest. *)
Definition stillMoving (b : Ball R) : Prop :=
  isLumie b = false /\ vx b <> 0 /\
  CONFIG.stopThreshold <= frictionSpeed b.

(** A ball flying to the right at speed 10. *)
Definition flying_board : Game R :=
  mkGame 800 600 [lumieAt 400 red]
    (mkBall 400 500 22 gold 10 0 22 0 0 0 false 0%Z 0%Z)
    1 nobody rolling None None [] (Some 0%Z).

End StillRollingDefs.

Section BadgeDefs.
Context {T : Type} `{Num T} `{Trig T}.

Implicit Types (g : Game T) (h : Host T) (b : Ball T) (i j k m : nat).

(** Both players have a color or neither has. *)
Definition colorsPaired (g : Game T) : Prop :=
  truthy (playerColors g !! 1%nat) = truthy (playerColors g !! 2%nat).

(** The states in which [updateBadge] can be called after [endTurn] has
    chosen the player to move.  In the source the badge text is built
    from [myCol.toUpperCase()] once player 1 has a color, and [myCol] is
    [playerColors[currentPlayer]]: the call raises a TypeError when
    player 1 has a color and the player to move has none.  The embedding
    has no exceptions and writes [Badge p None] there, so what is proved
    of the state [endTurn] ends in is stated for [badgeReady] states,
    where that branch is not taken. *)
Definition badgeReady (g : Game T) : Prop :=
  validPlayer g /\ colorsPaired g.

End BadgeDefs.

Section WallsDefs.
Context {T : Type} `{Num T} `{Trig T}.

Implicit Types (g : Game T) (h : Host T) (b : Ball T).

Local Open Scope js_scope.

(** [lo <= a] and [a <= hi] as JavaScript decides them, by [<] and
    [===]: both are false as soon as an operand is NaN. *)
Definition atLeast (lo a : T) : bool := (lo <? a) || (a =? lo).

Definition atMost (a hi : T) : bool := (a <? hi) || (a =? hi).

Definition between (lo a hi : T) : bool := atLeast lo a && atMost a hi.

(** [a] and [c] compare: one of [a < c], [c < a], [a === c] holds.  At
    binary64 this fails exactly when [a] or [c] is NaN. *)
Definition comparable (a c : T) : bool := (a <? c) || (c <? a) || (a =? c).

(** What the wall checks of one axis need: the coordinate [a] compares
    with both bounds, and the two bounds, which are the values the checks
    may write, lie in the range themselves (the diameter fits, and
    neither bound is NaN). *)
Definition axisChecked (lo a hi : T) : bool :=
  comparable a lo && comparable a hi && between lo lo hi && between lo hi hi.

End WallsDefs.

Section PairsOfThePassDefs.
Context {T : Type} `{Num T} `{Trig T}.

(** The pairs [(i, j)] of the collision loops, in the order in which
    [resolveCollision] is called. *)
Definition collisionPairs (n : nat) : list (nat * nat) :=
  flat_map (fun i => map (pair i) (seq (i + 1) (n + 1 - (i + 1))))
    (seq 0 (n + 1)).

End PairsOfThePassDefs.

Section EndOfRollDefs.
Local Open Scope R_scope.

Implicit Types (g : Game R) (h : Host R) (b : Ball R) (i j k m : nat).

(** [update] will snap the ball to rest: its speed after friction is
    below the stop threshold.  A ball at rest is one of these. *)
Definition stopping (b : Ball R) : Prop :=
  frictionSpeed b < CONFIG.stopThreshold.

(** The two divisions of [resolveCollision], by the distance of the
    centers and by the sum of the masses, are divisions by a positive
    number.  (Where one of them is zero the code, in binary64, writes
    NaN or an infinity, while over the reals the quotient is a
    number.) *)
Definition wellPosed (b1 b2 : Ball R) : Prop :=
  0 < centerDist b1 b2 /\ 0 < mass b1 + mass b2.

(** Every call of [resolveCollision] made on the pairs, in turn, finds
    the two bodies [wellPosed]. *)
Fixpoint callsDefined (pairs : list (nat * nat)) (h : Host R) (g : Game R)
  : Prop :=
  match pairs with
  | [] => True
  | (i, j) :: rest =>
      wellPosed (getBall g i) (getBall g j) /\
      callsDefined rest (hostAfter (resolveCollision i j) h g)
        (stateAfter (resolveCollision i j) h g)
  end.

(** The host and the game when the first pass of [updatePhysics] has
    run, for the tick that starts at [h] and [g]. *)
Definition afterPositions (h : Host R) (g : Game R) : Host R * Game R :=
  let tl := (3000 <? clock h (nclock h) - default 0 (turnStartTime g))%Z in
  let h1 := mkHost (rand h) (nrand h) (clock h) (S (nclock h)) (dom h) in
  let pass := positionsPass tl (width g) (height g) (length (lumies g)) in
  (hostAfter pass h1 g, stateAfter pass h1 g).

(** In the tick that starts at [h] and [g], no call of the collision
    pass divides by zero. *)
Definition collisionsDefined (h : Host R) (g : Game R) : Prop :=
  callsDefined (collisionPairs (length (lumies g)))
    (fst (afterPositions h g)) (snd (afterPositions h g)).

(** A ball creeping to the right at speed 0.04, overlapping a target at
    rest 30 to its right. *)
Definition settling_board : Game R :=
  mkGame 800 600 [lumieAt 290 red]
    (mkBall 260 300 22 gold (4 / 100) 0 22 0 0 0 false 0%Z 0%Z)
    1 nobody rolling None None [] (Some 0%Z).

End EndOfRollDefs.

(** * Properties *)

Section ExactNumbers.
Local Open Scope R_scope.

Lemma dec_R (m : Z) (k : nat) :
  @dec R _ m k = IZR m / IZR (10 ^ Z.of_nat k).
Proof. reflexivity. Qed.

Lemma friction_R : @CONFIG.friction R _ = 94 / 100.
Proof. reflexivity. Qed.

Lemma angularFriction_R : @CONFIG.angularFriction R _ = 95 / 100.
Proof. reflexivity. Qed.

Lemma restitution_R : @CONFIG.restitution R _ = 8 / 10.
Proof. reflexivity. Qed.

Lemma stopThreshold_R : @CONFIG.stopThreshold R _ = 5 / 100.
Proof. reflexivity. Qed.

Lemma wobbleStrength_R : @CONFIG.wobbleStrength R _ = 15 / 100.
Proof. reflexivity. Qed.

Lemma dec_1_1 : @dec R _ 1 1 = 1 / 10.
Proof. reflexivity. Qed.

Lemma dec_5_1 : @dec R _ 5 1 = 5 / 10.
Proof. reflexivity. Qed.

Lemma dec_5_2 : @dec R _ 5 2 = 5 / 100.
Proof. reflexivity. Qed.

Lemma Rltb_true a b : a < b -> Rltb a b = true.
Proof. intros. unfold Rltb. destruct (Rlt_dec a b); [reflexivity | contradiction]. Qed.

Lemma Rltb_false a b : b <= a -> Rltb a b = false.
Proof. intros. unfold Rltb. destruct (Rlt_dec a b); [lra | reflexivity]. Qed.

Lemma Rltb_spec a b : reflect (a < b) (Rltb a b).
Proof. unfold Rltb. destruct (Rlt_dec a b); constructor; assumption. Qed.

Lemma Rhypot_nonneg a b : 0 <= Rhypot a b.
Proof. apply sqrt_pos. Qed.

Lemma Rhypot_sqr a b : Rhypot a b * Rhypot a b = a * a + b * b.
Proof. unfold Rhypot. apply sqrt_sqrt. nra. Qed.

Lemma Rhypot_unique a b s : 0 <= s -> s * s = a * a + b * b -> Rhypot a b = s.
Proof.
  intros Hs Hq. unfold Rhypot. rewrite <- Hq. apply sqrt_square. exact Hs.
Qed.

Lemma Rhypot_scale a b c : 0 <= c -> Rhypot (a * c) (b * c) = c * Rhypot a b.
Proof.
  intros Hc. apply Rhypot_unique.
  - apply Rmult_le_pos; [exact Hc | apply Rhypot_nonneg].
  - pose proof (Rhypot_sqr a b). nra.
Qed.

Lemma Rhypot_0 : Rhypot 0 0 = 0.
Proof. apply Rhypot_unique; lra. Qed.

Lemma Rhypot_triangle a b c d :
  Rhypot (a + c) (b + d) <= Rhypot a b + Rhypot c d.
Proof.
  pose proof (Rhypot_nonneg a b) as Hp. pose proof (Rhypot_nonneg c d) as Hq.
  pose proof (Rhypot_sqr a b) as Hp2. pose proof (Rhypot_sqr c d) as Hq2.
  pose proof (Rhypot_nonneg (a + c) (b + d)) as Hs.
  pose proof (Rhypot_sqr (a + c) (b + d)) as Hs2.
  set (p := Rhypot a b) in *. set (q := Rhypot c d) in *.
  set (s := Rhypot (a + c) (b + d)) in *.
  clearbody p q s.
  assert (Hcs : a * c + b * d <= p * q).
  { destruct (Rle_dec (a * c + b * d) 0) as [Hn | Hn].
    - nra.
    - apply Rnot_le_lt in Hn.
      assert ((a * c + b * d) * (a * c + b * d) <= (p * q) * (p * q)).
      { replace ((p * q) * (p * q)) with ((p * p) * (q * q)) by ring.
        rewrite Hp2, Hq2.
        pose proof (Rle_0_sqr (a * d - b * c)) as Hsq. unfold Rsqr in Hsq.
        nra. }
      assert (0 <= p * q) by nra.
      apply Rnot_lt_le; intro Hlt.
      assert ((p * q) * (p * q) < (a * c + b * d) * (a * c + b * d))
        by (apply Rmult_le_0_lt_compat; lra).
      lra. }
  assert (s * s <= (p + q) * (p + q)) by nra.
  nra.
Qed.

Lemma Rhypot_cos_sin t c : 0 <= c -> Rhypot (cos t * c) (sin t * c) = c.
Proof.
  intros Hc. apply Rhypot_unique; [exact Hc |].
  pose proof (sin2_cos2 t) as Ht. unfold Rsqr in Ht. nra.
Qed.

End ExactNumbers.

Section UpdateExact.
Local Open Scope R_scope.

Ltac unfold_update :=
  unfold updated, stateAfter, update, bind, modify, get, when, ret, Math_random;
  cbn beta iota zeta delta
    [fst snd andb
     x y r color vx vy mass angle angularVelocity heavyPhase isLumie
     lockedUntil lastHit set_x set_y set_vx set_vy set_angle
     set_angularVelocity rand nrand clock nclock dom
     nadd nsub nmul ndiv nneg nabs nhypot nmin nlt neq nofZ Num_R
     ncos nsin npi Trig_R].

Lemma frictionSpeed_eq b : frictionSpeed b = 94 / 100 * speed b.
Proof.
  unfold frictionSpeed, speed. rewrite friction_R.
  apply Rhypot_scale. lra.
Qed.

Lemma update_snap h b :
  frictionSpeed b < CONFIG.stopThreshold ->
  vx (updated h b) = 0 /\ vy (updated h b) = 0 /\
  angularVelocity (updated h b) = 0.
Proof.
  intros Hs. unfold frictionSpeed in Hs. unfold_update.
  rewrite (Rltb_true _ _ Hs).
  destruct (isLumie b); [destruct (Rltb _ _) |]; auto.
Qed.

Lemma update_coast h b :
  isLumie b = false \/ frictionSpeed b <= 1 / 10 ->
  CONFIG.stopThreshold <= frictionSpeed b ->
  vx (updated h b) = vx b * CONFIG.friction /\
  vy (updated h b) = vy b * CONFIG.friction.
Proof.
  intros Hw Hs. unfold frictionSpeed in *. unfold_update.
  rewrite (Rltb_false _ _ Hs).
  destruct Hw as [-> | Hw]; [auto |].
  rewrite (Rltb_false (dec 1 1)) by (rewrite dec_1_1; exact Hw).
  destruct (isLumie b); auto.
Qed.

Lemma update_wobble h b :
  isLumie b = true -> 1 / 10 < frictionSpeed b ->
  vx (updated h b) =
    vx b * CONFIG.friction +
    cos (angle b + angularVelocity b + heavyPhase b) * CONFIG.wobbleStrength /\
  vy (updated h b) =
    vy b * CONFIG.friction +
    sin (angle b + angularVelocity b + heavyPhase b) * CONFIG.wobbleStrength.
Proof.
  intros Hl Hs. unfold frictionSpeed in *. unfold_update.
  rewrite Hl, dec_1_1, (Rltb_true _ _ Hs).
  rewrite Rltb_false by (rewrite stopThreshold_R; lra).
  auto.
Qed.

Lemma update_wobble_bound h b :
  isLumie b = true -> 1 / 10 < frictionSpeed b ->
  speed (updated h b) <= CONFIG.friction * speed b + CONFIG.wobbleStrength.
Proof.
  intros Hl Hs. destruct (update_wobble h b Hl Hs) as [Hx Hy].
  unfold speed at 1. rewrite Hx, Hy.
  eapply Rle_trans; [apply Rhypot_triangle |].
  rewrite Rhypot_cos_sin by (rewrite wobbleStrength_R; lra).
  fold (frictionSpeed b). rewrite frictionSpeed_eq, friction_R. lra.
Qed.

Lemma update_slows h b :
  CONFIG.stopThreshold < speed b ->
  isLumie b = false \/ frictionSpeed b <= 1 / 10 \/ 25 / 10 < speed b ->
  speed (updated h b) < speed b.
Proof.
  intros Hs Hc. rewrite stopThreshold_R in Hs.
  pose proof (frictionSpeed_eq b) as Hf.
  assert (Hcoast : isLumie b = false \/ frictionSpeed b <= 1 / 10 ->
                   speed (updated h b) < speed b).
  { intros Hw.
    destruct (Rlt_dec (frictionSpeed b) CONFIG.stopThreshold) as [Hlt | Hge].
    - destruct (update_snap h b Hlt) as (Hx & Hy & _).
      unfold speed at 1. rewrite Hx, Hy, Rhypot_0. lra.
    - apply Rnot_lt_le in Hge.
      destruct (update_coast h b Hw Hge) as [Hx Hy].
      unfold speed at 1. rewrite Hx, Hy.
      fold (frictionSpeed b). lra. }
  destruct Hc as [Hc | [Hc | Hc]]; [apply Hcoast; auto | apply Hcoast; auto |].
  destruct (isLumie b) eqn:Hl; [| apply Hcoast; auto].
  assert (Hw : 1 / 10 < frictionSpeed b) by lra.
  pose proof (update_wobble_bound h b Hl Hw) as Hb.
  rewrite friction_R, wobbleStrength_R in Hb. lra.
Qed.

(** C2, as the code has it: the snap to rest holds for every body; the
    speed strictly decreases for a body that gets no wobble (not a target,
    or post-friction speed at most 0.1) and for any body faster than 2.5;
    a target that gets the wobble ends at most [friction * speed +
    wobbleStrength]. *)
Theorem update_speed_law (h : Host R) (b : Ball R) :
  (frictionSpeed b < CONFIG.stopThreshold ->
     vx (updated h b) = 0 /\ vy (updated h b) = 0 /\
     angularVelocity (updated h b) = 0) /\
  (CONFIG.stopThreshold < speed b ->
     isLumie b = false \/ frictionSpeed b <= 1 / 10 \/ 25 / 10 < speed b ->
     speed (updated h b) < speed b) /\
  (isLumie b = true -> 1 / 10 < frictionSpeed b ->
     speed (updated h b) <=
       CONFIG.friction * speed b + CONFIG.wobbleStrength).
Proof.
  split; [apply update_snap |].
  split; [apply update_slows | apply update_wobble_bound].
Qed.

Lemma Rhypot_0_r a : 0 <= a -> Rhypot a 0 = a.
Proof. intros Ha. apply Rhypot_unique; [exact Ha | ring]. Qed.

(** C2 fails as stated: a target above the stop threshold whose heavy
    spot points along its motion leaves [update] faster than it entered. *)
Lemma update_wobble_speeds_up :
  CONFIG.stopThreshold < speed wobbling_lumie /\
  ~ speed (updated sample_host wobbling_lumie) < speed wobbling_lumie.
Proof.
  assert (Hs : speed wobbling_lumie = 2 / 10)
    by (apply Rhypot_0_r; lra).
  assert (Hf : 1 / 10 < frictionSpeed wobbling_lumie)
    by (rewrite frictionSpeed_eq, Hs; lra).
  destruct (update_wobble sample_host wobbling_lumie eq_refl Hf) as [Hx Hy].
  cbn [vx vy angle angularVelocity heavyPhase wobbling_lumie] in Hx, Hy.
  replace (0 + 0 + 0) with 0 in Hx, Hy by ring.
  rewrite cos_0, friction_R, wobbleStrength_R in Hx.
  rewrite sin_0, friction_R, wobbleStrength_R in Hy.
  split; [rewrite stopThreshold_R, Hs; lra |].
  unfold speed at 1. rewrite Hx, Hy, Hs.
  replace (0 * (94 / 100) + 0 * (15 / 100)) with 0 by ring.
  rewrite Rhypot_0_r; lra.
Qed.

(** C2, witness: the hypotheses of [update_speed_law] hold on a sample state. *)
Lemma update_speed_law_witness :
  (vx (updated sample_host creeping_ball) = 0 /\
   vy (updated sample_host creeping_ball) = 0 /\
   angularVelocity (updated sample_host creeping_ball) = 0) /\
  speed (updated sample_host rolling_ball) < speed rolling_ball.
Proof.
  assert (Hc : speed creeping_ball = 1 / 100) by (apply Rhypot_0_r; lra).
  assert (Hr : speed rolling_ball = 1) by (apply Rhypot_0_r; lra).
  split.
  - apply (proj1 (update_speed_law sample_host creeping_ball)).
    rewrite frictionSpeed_eq, Hc, stopThreshold_R. lra.
  - apply (proj1 (proj2 (update_speed_law sample_host rolling_ball))).
    + rewrite stopThreshold_R, Hr. lra.
    + left. reflexivity.
Defined.

End UpdateExact.

Section Store.
Context {T : Type}.

Implicit Types (g : Game T) (b : Ball T) (k j : nat).

Lemma setBall_length k b g :
  length (lumies (setBall k b g)) = length (lumies g).
Proof.
  unfold setBall. destruct (k <? length (lumies g))%nat; cbn; [|reflexivity].
  apply length_insert.
Qed.

Lemma getBall_setBall k b g : getBall (setBall k b g) k = b.
Proof.
  unfold getBall, setBall.
  destruct (k <? length (lumies g))%nat eqn:Hk; cbn.
  - apply Nat.ltb_lt in Hk. apply nth_lookup_Some.
    apply list_lookup_insert_eq. exact Hk.
  - apply Nat.ltb_ge in Hk. apply nth_overflow. exact Hk.
Qed.

Lemma getBall_setBall_ne k j b g :
  k <> j -> (k <= length (lumies g))%nat -> (j <= length (lumies g))%nat ->
  getBall (setBall k b g) j = getBall g j.
Proof.
  intros Hne Hk Hj. unfold getBall, setBall.
  destruct (k <? length (lumies g))%nat eqn:Hlt; cbn.
  - destruct (decide (j < length (lumies g))%nat) as [Hj'|Hj'].
    + destruct (lookup_lt_is_Some_2 (lumies g) j Hj') as [bj Hbj].
      rewrite (nth_lookup_Some _ _ _ _ Hbj).
      apply nth_lookup_Some. rewrite list_lookup_insert_ne by exact Hne.
      exact Hbj.
    + rewrite !nth_overflow; [reflexivity | lia |].
      rewrite length_insert. lia.
  - apply Nat.ltb_ge in Hlt. assert (k = length (lumies g)) by lia. subst k.
    assert (Hj' : (j < length (lumies g))%nat) by lia.
    apply nth_indep. exact Hj'.
Qed.

Lemma setBall_width k b g : width (setBall k b g) = width g.
Proof. unfold setBall. destruct (_ <? _)%nat; reflexivity. Qed.

Lemma setBall_height k b g : height (setBall k b g) = height g.
Proof. unfold setBall. destruct (_ <? _)%nat; reflexivity. Qed.

Lemma setBall_currentPlayer k b g :
  currentPlayer (setBall k b g) = currentPlayer g.
Proof. unfold setBall. destruct (_ <? _)%nat; reflexivity. Qed.

Lemma setBall_playerColors k b g :
  playerColors (setBall k b g) = playerColors g.
Proof. unfold setBall. destruct (_ <? _)%nat; reflexivity. Qed.

Lemma setBall_turnState k b g : turnState (setBall k b g) = turnState g.
Proof. unfold setBall. destruct (_ <? _)%nat; reflexivity. Qed.

Lemma setBall_turnChanges k b g :
  turnChanges (setBall k b g) = turnChanges g.
Proof. unfold setBall. destruct (_ <? _)%nat; reflexivity. Qed.

Lemma setBall_turnStartTime k b g :
  turnStartTime (setBall k b g) = turnStartTime g.
Proof. unfold setBall. destruct (_ <? _)%nat; reflexivity. Qed.

Lemma setBall_dragStart k b g : dragStart (setBall k b g) = dragStart g.
Proof. unfold setBall. destruct (_ <? _)%nat; reflexivity. Qed.

Lemma setBall_dragCurrent k b g :
  dragCurrent (setBall k b g) = dragCurrent g.
Proof. unfold setBall. destruct (_ <? _)%nat; reflexivity. Qed.

Lemma getBall_set_playerColors pc g k :
  getBall (set_playerColors pc g) k = getBall g k.
Proof. reflexivity. Qed.

Lemma getBall_set_turnChanges l g k :
  getBall (set_turnChanges l g) k = getBall g k.
Proof. reflexivity. Qed.

Lemma getBall_set_turnState s g k :
  getBall (set_turnState s g) k = getBall g k.
Proof. reflexivity. Qed.

Lemma getBall_set_currentPlayer p g k :
  getBall (set_currentPlayer p g) k = getBall g k.
Proof. reflexivity. Qed.

End Store.

Create Rewrite HintDb store.

#[export] Hint Rewrite @setBall_length @getBall_setBall @setBall_width
  @setBall_height @setBall_currentPlayer @setBall_playerColors
  @setBall_turnState @setBall_turnChanges @setBall_turnStartTime
  @setBall_dragStart @setBall_dragCurrent @getBall_set_playerColors
  @getBall_set_turnChanges @getBall_set_turnState @getBall_set_currentPlayer
  : store.

(** The projections and setters that symbolic execution may reduce. *)
Lemma gameOver_run {T} `{Num T} (c : Color) (h : Host T) (g : Game T) :
  gameOver c h g =
  (tt, mkHost (rand h) (151 + nrand h) (clock h) (nclock h)
         (dom h ++ [Victory c]), g).
Proof. reflexivity. Qed.

Ltac record_cbn :=
  cbn beta iota zeta delta
    [fst snd
     x y r color vx vy mass angle angularVelocity heavyPhase isLumie
     lockedUntil lastHit set_x set_y set_color set_vx set_vy set_angle
     set_angularVelocity set_lockedUntil
     rand nrand clock nclock dom
     width height lumies playerBall currentPlayer playerColors turnState
     dragStart dragCurrent turnChanges turnStartTime
     set_lumies set_playerBall set_currentPlayer set_playerColors
     set_turnState set_drag set_turnChanges set_turnStartTime set_size
     ball before after].

Ltac record_simpl :=
  record_cbn; repeat (rewrite gameOver_run; record_cbn).

Ltac record_simpl_in H :=
  cbn beta iota zeta delta
    [fst snd
     x y r color vx vy mass angle angularVelocity heavyPhase isLumie
     lockedUntil lastHit set_x set_y set_color set_vx set_vy set_angle
     set_angularVelocity set_lockedUntil
     rand nrand clock nclock dom
     width height lumies playerBall currentPlayer playerColors turnState
     dragStart dragCurrent turnChanges turnStartTime
     set_lumies set_playerBall set_currentPlayer set_playerColors
     set_turnState set_drag set_turnChanges set_turnStartTime set_size
     ball before after] in H.

Section Conversion.
Context {T : Type} `{Num T}.

Implicit Types (g : Game T) (h : Host T) (k : nat).

Ltac run_monad :=
  unfold stateAfter, hostAfter, valueOf;
  unfold onHitLumie, updateScores, updateBadge, onBall, bind,
    modify, get, when, ret, Math_random, Date_now, emit.

Ltac split_ifs :=
  repeat match goal with
         | |- context [if ?c then _ else _] =>
             destruct c eqn:?; record_simpl
         end.

Lemma onHitLumie_locked_eq h g k :
  (clock h (nclock h) < lockedUntil (getBall g k))%Z ->
  onHitLumie k h g =
    (tt, mkHost (rand h) (nrand h) (clock h) (S (nclock h)) (dom h), g).
Proof.
  intros Hl. run_monad.
  apply Z.ltb_lt in Hl. rewrite Hl. reflexivity.
Qed.

Lemma onHitLumie_unlocked h g k :
  (lockedUntil (getBall g k) <= clock h (nclock h))%Z ->
  let g' := stateAfter (onHitLumie k) h g in
  color (getBall g' k) = converted (color (getBall g k)) (rand h (nrand h)) /\
  lockedUntil (getBall g' k) = (clock h (S (nclock h)) + CONFIG.cooldown)%Z /\
  turnChanges g' =
    turnChanges g ++ [mkChange k (color (getBall g k)) (color (getBall g' k))] /\
  currentPlayer g' = currentPlayer g /\
  turnState g' = turnState g /\
  turnStartTime g' = turnStartTime g.
Proof.
  intros Hl g'. subst g'. apply Z.ltb_ge in Hl.
  run_monad. rewrite Hl. unfold converted.
  destruct (color (getBall g k)) eqn:Hc; record_simpl; split_ifs;
    autorewrite with store; record_simpl; autorewrite with store;
    rewrite ?Hc; auto 10.
Qed.

End Conversion.

Section Preserves.
Context {T : Type}.

Lemma bind_run {S A B} (m : M T S A) (k : A -> M T S B) h s :
  bind m k h s = k (valueOf m h s) (hostAfter m h s) (stateAfter m h s).
Proof.
  unfold bind, valueOf, hostAfter, stateAfter.
  destruct (m h s) as [[a h'] s']. reflexivity.
Qed.

Lemma stateAfter_bind {S A B} (m : M T S A) (k : A -> M T S B) h s :
  stateAfter (bind m k) h s =
  stateAfter (k (valueOf m h s)) (hostAfter m h s) (stateAfter m h s).
Proof. unfold stateAfter at 1. rewrite bind_run. reflexivity. Qed.

Lemma hostAfter_bind {S A B} (m : M T S A) (k : A -> M T S B) h s :
  hostAfter (bind m k) h s =
  hostAfter (k (valueOf m h s)) (hostAfter m h s) (stateAfter m h s).
Proof. unfold hostAfter at 1. rewrite bind_run. reflexivity. Qed.

Lemma valueOf_bind {S A B} (m : M T S A) (k : A -> M T S B) h s :
  valueOf (bind m k) h s =
  valueOf (k (valueOf m h s)) (hostAfter m h s) (stateAfter m h s).
Proof. unfold valueOf at 1. rewrite bind_run. reflexivity. Qed.

Section Rules.
Context {S : Type} (I : S -> Prop).

Lemma preserves_ret {A} (a : A) : preserves I (@ret T S A a).
Proof. intros h s Hs. exact Hs. Qed.

Lemma preserves_bind {A B} (m : M T S A) (k : A -> M T S B) :
  preserves I m -> (forall a, preserves I (k a)) -> preserves I (bind m k).
Proof.
  intros Hm Hk h s Hs. rewrite stateAfter_bind. apply Hk, Hm, Hs.
Qed.

Lemma preserves_get : preserves I (@get T S).
Proof. intros h s Hs. exact Hs. Qed.

(** After [this <- get], what the invariant says of the snapshot is
    known for the rest of the method. *)
Lemma preserves_bind_get {B} (k : S -> M T S B) :
  (forall s0, I s0 -> preserves I (k s0)) -> preserves I (bind get k).
Proof.
  intros Hk h s Hs. rewrite stateAfter_bind. apply Hk; exact Hs.
Qed.

Lemma preserves_random : preserves I (@Math_random T S).
Proof. intros h s Hs. exact Hs. Qed.

Lemma preserves_now : preserves I (@Date_now T S).
Proof. intros h s Hs. exact Hs. Qed.

Lemma preserves_emit e : preserves I (@emit T S e).
Proof. intros h s Hs. exact Hs. Qed.

Lemma preserves_modify (f : S -> S) :
  (forall s, I s -> I (f s)) -> preserves I (@modify T S f).
Proof. intros Hf h s Hs. apply Hf, Hs. Qed.

Lemma preserves_when (c : bool) (m : M T S unit) :
  (c = true -> preserves I m) -> preserves I (when c m).
Proof.
  intros Hm. destruct c; [apply Hm; reflexivity | apply preserves_ret].
Qed.

Lemma preserves_if {A} (c : bool) (m1 m2 : M T S A) :
  (c = true -> preserves I m1) -> (c = false -> preserves I m2) ->
  preserves I (if c then m1 else m2).
Proof. intros H1 H2. destruct c; auto. Qed.

Lemma preserves_forEach {A} (l : list A) (f : A -> M T S unit) :
  (forall a, In a l -> preserves I (f a)) -> preserves I (forEach l f).
Proof.
  induction l as [|a l IH]; intros Hf; cbn [forEach].
  - apply preserves_ret.
  - apply preserves_bind.
    + apply Hf. left. reflexivity.
    + intros _. apply IH. intros a' Ha'. apply Hf. right. exact Ha'.
Qed.

Lemma preserves_forEachWith {A L} (l : list A) (f : A -> L -> M T S L)
    (acc : L) :
  (forall a acc', In a l -> preserves I (f a acc')) ->
  preserves I (forEachWith l f acc).
Proof.
  revert acc. induction l as [|a l IH]; intros acc Hf; cbn [forEachWith].
  - apply preserves_ret.
  - apply preserves_bind.
    + apply Hf. left. reflexivity.
    + intros acc'. apply IH. intros a' acc'' Ha'. apply Hf. right. exact Ha'.
Qed.

End Rules.

Lemma preserves_onBall {A} (I : Game T -> Prop) (k : nat)
    (m : M T (Ball T) A) :
  (forall h g, I g -> I (setBall k (stateAfter m h (getBall g k)) g)) ->
  preserves I (onBall k m).
Proof.
  intros Hm h g Hg. unfold stateAfter, onBall.
  specialize (Hm h g Hg). unfold stateAfter in Hm.
  destruct (m h (getBall g k)) as [[a h'] b']. exact Hm.
Qed.

End Preserves.

Ltac preserves_step :=
  lazymatch goal with
  | |- preserves _ (ret _) => apply preserves_ret
  | |- preserves _ get => apply preserves_get
  | |- preserves _ Math_random => apply preserves_random
  | |- preserves _ Date_now => apply preserves_now
  | |- preserves _ (emit _) => apply preserves_emit
  | |- preserves _ (bind get _) => apply preserves_bind_get; intros ? ?
  | |- preserves _ (bind _ _) => apply preserves_bind; [| intros ?]
  | |- preserves _ (when _ _) => apply preserves_when; intros ?
  | |- preserves _ (forEach _ _) => apply preserves_forEach; intros ? ?
  | |- preserves _ (forEachWith _ _ _) =>
      apply preserves_forEachWith; intros ? ? ?
  | |- preserves _ (if _ then _ else _) => apply preserves_if; intros ?
  | |- preserves _ (let _ := _ in _) => cbv zeta
  end.

Section Frames.
Context {T : Type} `{Num T} `{Trig T}.

Implicit Types (g : Game T) (h : Host T) (b : Ball T) (k : nat).

Lemma update_sameBody h b : sameBody b (stateAfter update h b).
Proof.
  unfold stateAfter, update, bind, modify, get, when, ret, Math_random.
  record_simpl.
  repeat match goal with
         | |- context [if ?c then _ else _] => destruct c; record_simpl
         end; repeat split.
Qed.

Lemma updatePhysics_each_sameBody tl w ht mv h b :
  sameBody b (stateAfter (updatePhysics_each tl w ht mv) h b).
Proof.
  unfold updatePhysics_each. rewrite stateAfter_bind.
  pose proof (update_sameBody h b) as Hu.
  set (b1 := stateAfter update h b) in *.
  set (h1 := hostAfter update h b). clearbody b1 h1.
  unfold stateAfter, bind, modify, get, when, ret.
  destruct Hu as (Hc & Hr & Hm & Hl & Hk).
  destruct tl; record_simpl;
  repeat match goal with
         | |- context [if ?c then _ else _] => destruct c; record_simpl
         end; repeat split; assumption.
Qed.

End Frames.

Section Frames2.
Context {T : Type} `{Num T} `{Trig T}.

Implicit Types (g : Game T) (h : Host T) (b : Ball T) (k : nat).

Ltac split_ifs :=
  repeat match goal with
         | |- context [if ?c then _ else _] =>
             destruct c eqn:?; record_simpl
         end.

Section Assigned.
Variable pc : gmap nat (option Color).

Hypothesis assigned :
  negb (truthy (pc !! 1%nat)) && negb (truthy (pc !! 2%nat)) = false.

Lemma onHitLumie_keeps_colors k : preserves (colorsAre pc) (onHitLumie k).
Proof.
  intros h g Hg. unfold colorsAre in *.
  unfold stateAfter, onHitLumie, bind, get, Date_now.
  record_simpl.
  destruct (_ <? _)%Z; [exact Hg |].
  rewrite Hg, assigned.
  (destruct (color (getBall g k));
    unfold updateScores, onBall, bind, modify, get, when, ret,
      Math_random, Date_now, emit; record_simpl; split_ifs;
    autorewrite with store; exact Hg).
Qed.

Ltac frame_leaf :=
  lazymatch goal with
  | |- preserves _ (onHitLumie _) => apply onHitLumie_keeps_colors
  | |- preserves _ (onBall _ _) =>
      apply preserves_onBall; intros ? ? ?; unfold colorsAre in *;
      autorewrite with store; assumption
  | |- preserves _ (modify _) =>
      apply preserves_modify; intros ? ?; unfold colorsAre in *;
      record_simpl; assumption
  end.

Ltac frame := repeat first [frame_leaf | preserves_step].

Lemma resolveCollision_keeps_colors i j :
  preserves (colorsAre pc) (resolveCollision i j).
Proof. unfold resolveCollision. frame. Qed.

Lemma resetPlayerBall_keeps_colors :
  preserves (colorsAre pc) resetPlayerBall.
Proof. unfold resetPlayerBall, Ball_new. frame. Qed.

Lemma updateBadge_keeps_colors :
  preserves (colorsAre pc) (@updateBadge T).
Proof. unfold updateBadge. frame. Qed.

Ltac frame_call :=
  lazymatch goal with
  | |- preserves _ resetPlayerBall => apply resetPlayerBall_keeps_colors
  | |- preserves _ updateBadge => apply updateBadge_keeps_colors
  | |- preserves _ (resolveCollision _ _) =>
      apply resolveCollision_keeps_colors
  end.

Lemma endTurn_keeps_colors : preserves (colorsAre pc) endTurn.
Proof.
  unfold endTurn. repeat first [frame_call | frame_leaf | preserves_step].
Qed.

Lemma shoot_keeps_colors : preserves (colorsAre pc) shoot.
Proof.
  unfold shoot. apply preserves_bind_get. intros g0 _.
  destruct (dragCurrent g0), (dragStart g0); frame.
Qed.

Lemma updatePhysics_keeps_colors : preserves (colorsAre pc) updatePhysics.
Proof.
  unfold updatePhysics.
  repeat first [ frame_call | apply endTurn_keeps_colors | frame_leaf
               | preserves_step ].
Qed.

Lemma handle_keeps_colors (i : Input) : preserves (colorsAre pc) (handle i).
Proof.
  destruct i; cbn [handle];
    unfold loop, on_start, on_move, on_end, resize.
  - frame.
  - apply preserves_bind_get. intros g0 _. destruct (dragStart g0); frame.
  - apply preserves_bind_get. intros g0 _. destruct (dragStart g0);
      repeat first [apply shoot_keeps_colors | frame_leaf | preserves_step].
  - repeat first [apply updatePhysics_keeps_colors | preserves_step].
  - frame.
Qed.

Lemma run_keeps_colors (l : list Input) : preserves (colorsAre pc) (run l).
Proof.
  unfold run. apply preserves_forEach. intros i _.
  apply handle_keeps_colors.
Qed.

End Assigned.

Lemma targetColors_setBall k b g :
  color b = color (getBall g k) ->
  targetColors (setBall k b g) = targetColors g.
Proof.
  intros Hc. unfold targetColors, setBall, getBall in *.
  destruct (k <? length (lumies g))%nat eqn:Hk; [| reflexivity].
  apply Nat.ltb_lt in Hk. cbn [lumies set_lumies].
  destruct (lookup_lt_is_Some_2 (lumies g) k Hk) as [bk Hbk].
  rewrite (nth_lookup_Some _ _ _ _ Hbk) in Hc.
  change (color <$> <[k:=b]> (lumies g) = color <$> lumies g).
  rewrite list_fmap_insert, Hc. apply list_insert_id.
  rewrite list_lookup_fmap, Hbk. reflexivity.
Qed.

Lemma targetColors_setBall_player k b g :
  (length (lumies g) <= k)%nat ->
  targetColors (setBall k b g) = targetColors g.
Proof.
  intros Hk. unfold targetColors, setBall.
  apply Nat.ltb_ge in Hk. rewrite Hk. reflexivity.
Qed.

Lemma targetColors_set_turnChanges l g :
  targetColors (set_turnChanges l g) = targetColors g.
Proof. reflexivity. Qed.

Lemma target_color_red k g :
  Forall (fun c => c = red) (targetColors g) ->
  (k < length (lumies g))%nat -> color (getBall g k) = red.
Proof.
  intros Hall Hk. unfold targetColors, getBall in *.
  destruct (lookup_lt_is_Some_2 (lumies g) k Hk) as [bk Hbk].
  rewrite (nth_lookup_Some _ _ _ _ Hbk).
  rewrite Forall_forall in Hall. apply Hall.
  apply (list_elem_of_fmap_2 color). apply list_elem_of_lookup. eauto.
Qed.

Lemma unassigned_first_blood (pc : gmap nat (option Color)) p c c' :
  negb (truthy (<[otherPlayer p := Some c']> (<[p := Some c]> pc) !! 1%nat))
  && negb (truthy (<[otherPlayer p := Some c']> (<[p := Some c]> pc) !! 2%nat))
  = false.
Proof.
  unfold otherPlayer. destruct (p =? 1)%nat eqn:Hp.
  - rewrite (lookup_insert_eq _ 2%nat). cbn. apply andb_false_r.
  - rewrite (lookup_insert_eq _ 1%nat). reflexivity.
Qed.

Lemma onHitLumie_keeps_neutral k :
  preserves neutralUntilAssigned (onHitLumie k).
Proof.
  intros h g Hg.
  unfold stateAfter, onHitLumie, bind, get, Date_now. record_simpl.
  destruct (_ <? _)%Z; [exact Hg |].
  unfold neutralUntilAssigned, unassigned in *.
  destruct (color (getBall g k)) eqn:Hc;
    unfold updateScores, updateBadge, onBall, bind, modify, get,
      when, ret, Math_random, Date_now, emit; record_simpl.
  - destruct (negb (truthy (playerColors g !! 1%nat)) &&
              negb (truthy (playerColors g !! 2%nat))) eqn:Hu;
      record_simpl; split_ifs; autorewrite with store; record_simpl;
      autorewrite with store; intros Hu';
      first [ rewrite unassigned_first_blood in Hu'; discriminate
            | rewrite Hu in Hu'; discriminate ].
  - split_ifs; autorewrite with store; intros Hu; specialize (Hg Hu);
      destruct (decide (k < length (lumies g))%nat) as [Hk | Hk];
      try (rewrite (target_color_red k g Hg Hk) in Hc; discriminate);
      rewrite targetColors_set_turnChanges;
      rewrite !targetColors_setBall_player
        by (autorewrite with store; lia); exact Hg.
  - split_ifs; autorewrite with store; intros Hu; specialize (Hg Hu);
      destruct (decide (k < length (lumies g))%nat) as [Hk | Hk];
      try (rewrite (target_color_red k g Hg Hk) in Hc; discriminate);
      rewrite targetColors_set_turnChanges;
      rewrite !targetColors_setBall_player
        by (autorewrite with store; lia); exact Hg.
  - split_ifs; autorewrite with store; intros Hu; specialize (Hg Hu);
      rewrite targetColors_set_turnChanges;
      rewrite targetColors_setBall by reflexivity; exact Hg.
Qed.

Lemma unassigned_setBall k b g : unassigned (setBall k b g) = unassigned g.
Proof. unfold unassigned. rewrite setBall_playerColors. reflexivity. Qed.

Ltac neutral_leaf :=
  lazymatch goal with
  | |- preserves _ (onHitLumie _) => apply onHitLumie_keeps_neutral
  | |- preserves _ (onBall _ _) =>
      let Hg := fresh "Hg" in
      apply preserves_onBall; intros ? ? Hg;
      unfold neutralUntilAssigned in *;
      rewrite unassigned_setBall, targetColors_setBall;
      [ exact Hg
      | first [ apply updatePhysics_each_sameBody | reflexivity ] ]
  | |- preserves _ (modify _) =>
      let Hg := fresh "Hg" in
      apply preserves_modify; intros ? Hg; exact Hg
  end.

Ltac neutral := repeat first [neutral_leaf | preserves_step].

Lemma resolveCollision_keeps_neutral i j :
  preserves neutralUntilAssigned (resolveCollision i j).
Proof. unfold resolveCollision. neutral. Qed.

Lemma resetPlayerBall_keeps_neutral :
  preserves neutralUntilAssigned resetPlayerBall.
Proof. unfold resetPlayerBall, Ball_new. neutral. Qed.

Lemma updateBadge_keeps_neutral :
  preserves neutralUntilAssigned (@updateBadge T).
Proof. unfold updateBadge. neutral. Qed.

Ltac neutral_call :=
  lazymatch goal with
  | |- preserves _ resetPlayerBall => apply resetPlayerBall_keeps_neutral
  | |- preserves _ updateBadge => apply updateBadge_keeps_neutral
  | |- preserves _ (resolveCollision _ _) =>
      apply resolveCollision_keeps_neutral
  end.

Lemma endTurn_keeps_neutral : preserves neutralUntilAssigned endTurn.
Proof.
  unfold endTurn. repeat first [neutral_call | neutral_leaf | preserves_step].
Qed.

Lemma unlock_keeps_colors now (l : list (Ball T)) :
  map color
    (map (fun b => if (lockedUntil b <? now)%Z
                   then set_lockedUntil 0%Z b else b) l) = map color l.
Proof.
  rewrite map_map. apply map_ext. intros b.
  destruct (_ <? _)%Z; reflexivity.
Qed.

Lemma shoot_keeps_neutral : preserves neutralUntilAssigned shoot.
Proof.
  unfold shoot. apply preserves_bind_get. intros g0 _.
  destruct (dragCurrent g0), (dragStart g0); try solve [neutral].
  repeat first
    [ lazymatch goal with
      | |- preserves _ (modify (fun g => set_lumies _ g)) =>
          let Hg := fresh "Hg" in
          apply preserves_modify; intros ? Hg;
          unfold neutralUntilAssigned, targetColors in *;
          cbn [lumies set_lumies]; rewrite unlock_keeps_colors; exact Hg
      end
    | neutral_leaf | preserves_step ].
Qed.

Lemma updatePhysics_keeps_neutral :
  preserves neutralUntilAssigned updatePhysics.
Proof.
  unfold updatePhysics.
  repeat first [ neutral_call | apply endTurn_keeps_neutral | neutral_leaf
               | preserves_step ].
Qed.

Lemma handle_keeps_neutral (i : Input) :
  preserves neutralUntilAssigned (handle i).
Proof.
  destruct i; cbn [handle];
    unfold loop, on_start, on_move, on_end, resize.
  - neutral.
  - apply preserves_bind_get. intros g0 _. destruct (dragStart g0); neutral.
  - apply preserves_bind_get. intros g0 _. destruct (dragStart g0);
      repeat first [apply shoot_keeps_neutral | neutral_leaf | preserves_step].
  - repeat first [apply updatePhysics_keeps_neutral | preserves_step].
  - neutral.
Qed.

Lemma run_keeps_neutral (l : list Input) :
  preserves neutralUntilAssigned (run l).
Proof.
  unfold run. apply preserves_forEach. intros i _.
  apply handle_keeps_neutral.
Qed.

End Frames2.

Section TurnLogic.
Context {T : Type} `{Num T} `{Trig T}.

Implicit Types (g : Game T) (h : Host T) (b : Ball T) (k : nat).

Lemma otherPlayer_ne p : otherPlayer p <> p.
Proof. unfold otherPlayer. destruct (p =? 1)%nat eqn:Hp.
  - apply Nat.eqb_eq in Hp. lia.
  - apply Nat.eqb_neq in Hp. lia.
Qed.

Lemma endTurn_player h g :
  currentPlayer (stateAfter endTurn h g) =
    if switchTurn g then otherPlayer (currentPlayer g) else currentPlayer g.
Proof.
  unfold stateAfter, endTurn, updateBadge, resetPlayerBall, Ball_new,
    bind, modify, get, when, ret, emit, Math_random.
  record_simpl. unfold switchTurn.
  destruct (playerColors g !! currentPlayer g) as [[c|]|]; record_simpl.
  - destruct (_ && _); record_simpl;
      repeat match goal with
             | |- context [if ?c then _ else _] => destruct c; record_simpl
             end; reflexivity.
  - repeat match goal with
           | |- context [if ?c then _ else _] => destruct c; record_simpl
           end; reflexivity.
  - repeat match goal with
           | |- context [if ?c then _ else _] => destruct c; record_simpl
           end; reflexivity.
Qed.

Lemma endTurn_state h g : turnState (stateAfter endTurn h g) = aiming.
Proof.
  unfold stateAfter, endTurn, updateBadge, resetPlayerBall, Ball_new,
    bind, modify, get, when, ret, emit, Math_random.
  record_simpl.
  repeat match goal with
         | |- context [if ?c then _ else _] => destruct c; record_simpl
         end; reflexivity.
Qed.

(** C6: the replay rule of [endTurn]. *)
Theorem endTurn_replay_rule (h : Host T) (g : Game T) :
  let cp := currentPlayer g in
  let cp' := currentPlayer (stateAfter endTurn h g) in
  (truthy (playerColors g !! cp) = false -> cp' = otherPlayer cp) /\
  (forall c, playerColors g !! cp = Some (Some c) ->
     let opponentCol := if decide (c = green) then blue else green in
     let gained := count_after c (turnChanges g) in
     let lost := count_after opponentCol (turnChanges g) in
     (cp' = cp <-> (0 < gained)%nat /\ lost = 0%nat) /\
     (~ ((0 < gained)%nat /\ lost = 0%nat) -> cp' = otherPlayer cp)).
Proof.
  cbv zeta. rewrite endTurn_player. unfold switchTurn. split.
  - destruct (playerColors g !! currentPlayer g) as [[c|]|]; cbn;
      [discriminate | reflexivity | reflexivity].
  - intros c Hc. rewrite Hc.
    pose proof (otherPlayer_ne (currentPlayer g)) as Hne.
    destruct (Nat.ltb_spec 0 (count_after c (turnChanges g)));
      destruct (Nat.eqb_spec
                  (count_after
                     (if decide (c = green) then blue else green)
                     (turnChanges g)) 0); cbn [andb];
      (split; [split |]); intros; try tauto; try lia.
Qed.

(** C9: a hit on a target whose lock has not expired changes nothing. *)
Theorem onHitLumie_locked (h : Host T) (g : Game T) (k : nat) :
  (clock h (nclock h) < lockedUntil (getBall g k))%Z ->
  let g' := stateAfter (onHitLumie k) h g in
  color (getBall g' k) = color (getBall g k) /\
  lockedUntil (getBall g' k) = lockedUntil (getBall g k) /\
  turnChanges g' = turnChanges g /\
  g' = g /\
  dom (hostAfter (onHitLumie k) h g) = dom h.
Proof.
  intros Hl. cbv zeta. unfold stateAfter, hostAfter.
  rewrite (onHitLumie_locked_eq h g k Hl). cbn. auto.
Qed.

(** *** First blood *)
Lemma Game_new_neutral (w ht : T) (h0 : Host T) :
  neutralUntilAssigned (snd (Game_new w ht h0)).
Proof.
  intros _. unfold targetColors. vm_compute. repeat constructor.
Qed.

Lemma Game_new_unassigned (w ht : T) (h0 : Host T) :
  unassigned (snd (Game_new w ht h0)) = true.
Proof. vm_compute. reflexivity. Qed.

Lemma onHitLumie_first_blood h g k :
  (lockedUntil (getBall g k) <= clock h (nclock h))%Z ->
  color (getBall g k) = red ->
  unassigned g = true ->
  playerColors (stateAfter (onHitLumie k) h g) =
    <[otherPlayer (currentPlayer g) :=
        Some (opposite (converted red (rand h (nrand h))))]>
      (<[currentPlayer g := Some (converted red (rand h (nrand h)))]>
         (playerColors g)).
Proof.
  intros Hl Hc Hu. apply Z.ltb_ge in Hl. unfold unassigned in Hu.
  unfold stateAfter, onHitLumie, bind, get, Date_now. record_simpl.
  rewrite Hl, Hc, Hu.
  unfold updateScores, updateBadge, onBall, bind, modify, get,
    when, ret, Math_random, Date_now, emit; record_simpl.
  unfold converted, opposite.
  destruct (nlt _ _); record_simpl;
    repeat match goal with
           | |- context [if ?c then _ else _] =>
               destruct c eqn:?; record_simpl
           end;
    autorewrite with store; try reflexivity; congruence.
Qed.

(** C8: while no player has a color every target is neutral; the first
    conversion gives the acting player the color the target took and the
    other player the other color; once a player has a color, no handler
    and no step of the simulation writes [playerColors] again. *)
Theorem first_blood_is_permanent :
  (forall (w ht : T) (h0 : Host T),
     neutralUntilAssigned (snd (Game_new w ht h0)) /\
     unassigned (snd (Game_new w ht h0)) = true) /\
  (forall (l : list Input) (i j k : nat),
     preserves neutralUntilAssigned (run l) /\
     preserves neutralUntilAssigned (resolveCollision i j) /\
     preserves neutralUntilAssigned (onHitLumie k)) /\
  (forall (h : Host T) (g : Game T) (k : nat),
     neutralUntilAssigned g ->
     unassigned g = true ->
     (k < length (lumies g))%nat ->
     (lockedUntil (getBall g k) <= clock h (nclock h))%Z ->
     let g' := stateAfter (onHitLumie k) h g in
     let c' := color (getBall g' k) in
     (c' = green \/ c' = blue) /\
     playerColors g' !! currentPlayer g = Some (Some c') /\
     playerColors g' !! otherPlayer (currentPlayer g) =
       Some (Some (opposite c')) /\
     unassigned g' = false) /\
  (forall (h : Host T) (g : Game T),
     unassigned g = false ->
     (forall l, playerColors (stateAfter (run l) h g) = playerColors g) /\
     (forall i j,
        playerColors (stateAfter (resolveCollision i j) h g) =
        playerColors g) /\
     (forall k,
        playerColors (stateAfter (onHitLumie k) h g) = playerColors g)).
Proof.
  split; [| split; [| split]].
  - intros w ht h0. split;
      [apply Game_new_neutral | apply Game_new_unassigned].
  - intros l i j k. split; [apply run_keeps_neutral |].
    split; [apply resolveCollision_keeps_neutral
           | apply onHitLumie_keeps_neutral].
  - intros h g k Hinv Hu Hk Hl. cbv zeta.
    pose proof (target_color_red k g (Hinv Hu) Hk) as Hc.
    destruct (onHitLumie_unlocked h g k Hl) as (Hc' & _).
    rewrite Hc', Hc.
    rewrite (onHitLumie_first_blood h g k Hl Hc Hu).
    pose proof (otherPlayer_ne (currentPlayer g)) as Hne.
    split; [unfold converted; destruct (nlt _ _); auto |].
    split; [rewrite lookup_insert_ne by exact Hne;
            apply lookup_insert_eq |].
    split; [apply lookup_insert_eq |].
    unfold unassigned.
    rewrite (onHitLumie_first_blood h g k Hl Hc Hu).
    apply unassigned_first_blood.
  - intros h g Hu.
    split; [| split]; intros;
      [ apply (run_keeps_colors (playerColors g) Hu l h g)
      | apply (resolveCollision_keeps_colors (playerColors g) Hu i j h g)
      | apply (onHitLumie_keeps_colors (playerColors g) Hu k h g) ];
      reflexivity.
Qed.

End TurnLogic.

Section Kinematics.
Context {T : Type} `{Num T}.

Implicit Types (g : Game T) (h : Host T) (b : Ball T) (k m : nat).

Lemma getBall_setBall_field {X} (F : Ball T -> X) k m b g :
  F b = F (getBall g k) ->
  F (getBall (setBall k b g) m) = F (getBall g m).
Proof.
  intros HF. unfold getBall, setBall in *.
  destruct (k <? length (lumies g))%nat eqn:Hk; cbn [lumies set_lumies
    playerBall set_playerBall].
  - apply Nat.ltb_lt in Hk.
    destruct (decide (m = k)) as [-> | Hne].
    + rewrite (nth_lookup_Some _ _ _ b); [exact HF |].
      apply list_lookup_insert_eq. exact Hk.
    + destruct (decide (m < length (lumies g))%nat) as [Hm | Hm].
      * destruct (lookup_lt_is_Some_2 (lumies g) m Hm) as [bm Hbm].
        rewrite (nth_lookup_Some _ _ _ bm);
          [| rewrite list_lookup_insert_ne by auto; exact Hbm].
        rewrite (nth_lookup_Some _ _ _ bm Hbm). reflexivity.
      * rewrite !nth_overflow; [reflexivity | lia |].
        rewrite length_insert. lia.
  - apply Nat.ltb_ge in Hk. rewrite (nth_overflow _ _ Hk) in HF.
    destruct (decide (m < length (lumies g))%nat) as [Hm | Hm].
    + f_equal. apply nth_indep. exact Hm.
    + rewrite !nth_overflow by lia. exact HF.
Qed.

Lemma onHitLumie_kinematics k h g :
  sameKinematics g (stateAfter (onHitLumie k) h g).
Proof.
  intros m.
  unfold stateAfter, onHitLumie, bind, get, Date_now. record_simpl.
  destruct (_ <? _)%Z; [reflexivity |].
  destruct (color (getBall g k)) eqn:Hc;
    unfold updateScores, updateBadge, onBall, bind, modify, get,
      when, ret, Math_random, Date_now, emit; record_simpl;
    repeat match goal with
           | |- context [if ?c then _ else _] =>
               destruct c eqn:?; record_simpl
           end;
    repeat first
      [ rewrite getBall_set_turnChanges
      | rewrite getBall_set_playerColors
      | rewrite (getBall_setBall_field kinematics)
          by (autorewrite with store; reflexivity) ];
    reflexivity.
Qed.

End Kinematics.

Section Collision.
Context {T : Type} `{Num T}.

Implicit Types (g : Game T) (h : Host T) (b : Ball T) (k m : nat).

Local Open Scope js_scope.

Lemma kinematics_hit k h g m :
  kinematics (getBall (stateAfter (onHitLumie k) h g) m) =
  kinematics (getBall g m).
Proof. apply onHitLumie_kinematics. Qed.

(** What follows the velocity update in [resolveCollision] (conversions
    and the two angular kicks) moves no ball and changes no linear
    velocity. *)
Lemma collision_tail_kinematics h g i j (k1 k2 : T) (c l1 l2 : bool) m :
  kinematics
    (getBall
       (stateAfter
          (when c
             (when l1 (onHitLumie i) ;;
              when l2 (onHitLumie j)) ;;
           rnd1 <- Math_random ;;
           onBall i (modify (fun b =>
             set_angularVelocity (angularVelocity b + (rnd1 - k1)) b)) ;;
           rnd2 <- Math_random ;;
           onBall j (modify (fun b =>
             set_angularVelocity (angularVelocity b + (rnd2 - k2)) b)))%M
          h g) m) =
  kinematics (getBall g m).
Proof.
  rewrite stateAfter_bind.
  assert (Hk : forall s0 h0,
            kinematics
              (getBall
                 (stateAfter
                    (when c (when l1 (onHitLumie i) ;;
                             when l2 (onHitLumie j)))%M h0 s0) m) =
            kinematics (getBall s0 m)).
  { intros s0 h0. destruct c; [| reflexivity]. unfold when at 1.
    rewrite stateAfter_bind.
    destruct l2; unfold when at 1.
    - rewrite kinematics_hit.
      destruct l1; [apply kinematics_hit | reflexivity].
    - unfold ret, stateAfter at 1. cbn [snd].
      destruct l1; [apply kinematics_hit | reflexivity]. }
  rewrite <- (Hk g h).
  set (g2 := stateAfter _ h g). set (h2 := hostAfter _ h g).
  clearbody g2 h2.
  unfold stateAfter, bind, Math_random, onBall, modify. record_simpl.
  rewrite (getBall_setBall_field kinematics) by reflexivity.
  apply (getBall_setBall_field kinematics). reflexivity.
Qed.

(** The body of [resolveCollision] once its locals are computed: the
    displacement [d], the two new velocities, whether the impact is strong
    enough, and which of the two balls are targets. *)
Lemma collision_steps_kinematics h g i j
    (dx1 dy1 : T) (wx1 wy1 wx2 wy2 : T) (k1 k2 : T) (c l1 l2 : bool) :
  i <> j -> (i <= length (lumies g))%nat -> (j <= length (lumies g))%nat ->
  let g' :=
    stateAfter
      (onBall i (modify (fun b => set_x (x b - dx1) b)) ;;
       onBall i (modify (fun b => set_y (y b - dy1) b)) ;;
       onBall j (modify (fun b => set_x (x b + dx1) b)) ;;
       onBall j (modify (fun b => set_y (y b + dy1) b)) ;;
       onBall i (modify (set_vx wx1)) ;;
       onBall i (modify (set_vy wy1)) ;;
       onBall j (modify (set_vx wx2)) ;;
       onBall j (modify (set_vy wy2)) ;;
       when c
         (when l1 (onHitLumie i) ;;
          when l2 (onHitLumie j)) ;;
       rnd1 <- Math_random ;;
       onBall i (modify (fun b =>
         set_angularVelocity (angularVelocity b + (rnd1 - k1)) b)) ;;
       rnd2 <- Math_random ;;
       onBall j (modify (fun b =>
         set_angularVelocity (angularVelocity b + (rnd2 - k2)) b)))%M h g in
  kinematics (getBall g' i) =
    (x (getBall g i) - dx1, y (getBall g i) - dy1, wx1, wy1) /\
  kinematics (getBall g' j) =
    (x (getBall g j) + dx1, y (getBall g j) + dy1, wx2, wy2).
Proof.
  intros Hij Hi Hj. cbv zeta.
  assert (Hji : j <> i) by auto.
  do 8 rewrite stateAfter_bind.
  rewrite !collision_tail_kinematics.
  unfold stateAfter, hostAfter, onBall, modify. record_simpl.
  autorewrite with store.
  repeat (rewrite ?getBall_setBall;
          rewrite ?getBall_setBall_ne
            by (autorewrite with store; auto)).
  record_simpl. unfold kinematics. record_simpl.
  repeat (rewrite ?getBall_setBall;
          rewrite ?getBall_setBall_ne
            by (autorewrite with store; auto)).
  record_simpl. split; reflexivity.
Qed.

Lemma resolveCollision_kinematics h g i j :
  i <> j -> (i <= length (lumies g))%nat -> (j <= length (lumies g))%nat ->
  let b1 := getBall g i in
  let b2 := getBall g j in
  let dx := x b2 - x b1 in
  let dy := y b2 - y b1 in
  let dist := nhypot dx dy in
  let minDist := r b1 + r b2 in
  let overlap := minDist - dist in
  let nx := dx / dist in
  let ny := dy / dist in
  let tx := - ny in
  let ty := nx in
  let dpTan1 := vx b1 * tx + vy b1 * ty in
  let dpTan2 := vx b2 * tx + vy b2 * ty in
  let dpNorm1 := vx b1 * nx + vy b1 * ny in
  let dpNorm2 := vx b2 * nx + vy b2 * ny in
  let m1 := mass b1 in
  let m2 := mass b2 in
  let v1n := (dpNorm1 * (m1 - m2) + nofZ 2 * m2 * dpNorm2) / (m1 + m2) in
  let v2n := (dpNorm2 * (m2 - m1) + nofZ 2 * m1 * dpNorm1) / (m1 + m2) in
  (dist <? minDist) = true ->
  let g' := stateAfter (resolveCollision i j) h g in
  kinematics (getBall g' i) =
    (x b1 - nx * overlap * dec 5 1, y b1 - ny * overlap * dec 5 1,
     tx * dpTan1 + nx * v1n, ty * dpTan1 + ny * v1n) /\
  kinematics (getBall g' j) =
    (x b2 + nx * overlap * dec 5 1, y b2 + ny * overlap * dec 5 1,
     tx * dpTan2 + nx * v2n, ty * dpTan2 + ny * v2n).
Proof.
  intros Hij Hi Hj. cbv zeta. intros Hov.
  unfold resolveCollision. rewrite stateAfter_bind.
  unfold get at 2 3 4. unfold valueOf, hostAfter, stateAfter at 2.
  cbn [fst snd get]. cbv zeta. rewrite Hov. unfold when at 1.
  apply collision_steps_kinematics; assumption.
Qed.

End Collision.

Section CollisionExact.
Local Open Scope R_scope.

Implicit Types (g : Game R) (h : Host R) (b : Ball R).

Lemma normal_unit b1 b2 :
  0 < centerDist b1 b2 ->
  normalX b1 b2 * normalX b1 b2 + normalY b1 b2 * normalY b1 b2 = 1.
Proof.
  intros Hd. unfold normalX, normalY.
  pose proof (Rhypot_sqr (x b2 - x b1) (y b2 - y b1)) as Hs.
  fold (centerDist b1 b2) in Hs.
  set (d := centerDist b1 b2) in *. clearbody d.
  replace ((x b2 - x b1) / d * ((x b2 - x b1) / d) +
           (y b2 - y b1) / d * ((y b2 - y b1) / d))
    with (((x b2 - x b1) * (x b2 - x b1) + (y b2 - y b1) * (y b2 - y b1))
          / (d * d)) by (field; lra).
  rewrite <- Hs. field. lra.
Qed.

Lemma resolveCollision_exact h g i j :
  i <> j -> (i <= length (lumies g))%nat -> (j <= length (lumies g))%nat ->
  let b1 := getBall g i in
  let b2 := getBall g j in
  let overlap := r b1 + r b2 - centerDist b1 b2 in
  let nx := normalX b1 b2 in
  let ny := normalY b1 b2 in
  let m1 := mass b1 in
  let m2 := mass b2 in
  let v1n := (alongNormal b1 b2 b1 * (m1 - m2) +
              2 * m2 * alongNormal b1 b2 b2) / (m1 + m2) in
  let v2n := (alongNormal b1 b2 b2 * (m2 - m1) +
              2 * m1 * alongNormal b1 b2 b1) / (m1 + m2) in
  centerDist b1 b2 < r b1 + r b2 ->
  let g' := stateAfter (resolveCollision i j) h g in
  kinematics (getBall g' i) =
    (x b1 - nx * overlap * (5 / 10), y b1 - ny * overlap * (5 / 10),
     - ny * alongTangent b1 b2 b1 + nx * v1n,
     nx * alongTangent b1 b2 b1 + ny * v1n) /\
  kinematics (getBall g' j) =
    (x b2 + nx * overlap * (5 / 10), y b2 + ny * overlap * (5 / 10),
     - ny * alongTangent b1 b2 b2 + nx * v2n,
     nx * alongTangent b1 b2 b2 + ny * v2n).
Proof.
  intros Hij Hi Hj. cbv zeta. intros Hov.
  exact (resolveCollision_kinematics h g i j Hij Hi Hj
           (Rltb_true _ _ Hov)).
Qed.

Lemma kinematics_inv b (a1 a2 a3 a4 : R) :
  kinematics b = (a1, a2, a3, a4) ->
  x b = a1 /\ y b = a2 /\ vx b = a3 /\ vy b = a4.
Proof. unfold kinematics. intros [= -> -> -> ->]. auto. Qed.

(** C5: one call separates two overlapping bodies with distinct centers
    to exactly touching, each moved by half the overlap along the
    normal. *)
Theorem resolveCollision_separates (h : Host R) (g : Game R) (i j : nat) :
  i <> j -> (i <= length (lumies g))%nat -> (j <= length (lumies g))%nat ->
  let b1 := getBall g i in
  let b2 := getBall g j in
  0 < centerDist b1 b2 ->
  centerDist b1 b2 < r b1 + r b2 ->
  let g' := stateAfter (resolveCollision i j) h g in
  let half := (r b1 + r b2 - centerDist b1 b2) / 2 in
  x (getBall g' i) = x b1 - normalX b1 b2 * half /\
  y (getBall g' i) = y b1 - normalY b1 b2 * half /\
  x (getBall g' j) = x b2 + normalX b1 b2 * half /\
  y (getBall g' j) = y b2 + normalY b1 b2 * half /\
  centerDist (getBall g' i) (getBall g' j) = r b1 + r b2.
Proof.
  intros Hij Hi Hj. cbv zeta. intros Hpos Hov.
  destruct (resolveCollision_exact h g i j Hij Hi Hj Hov) as [K1 K2].
  apply kinematics_inv in K1. apply kinematics_inv in K2.
  destruct K1 as (X1 & Y1 & _ & _). destruct K2 as (X2 & Y2 & _ & _).
  set (b1 := getBall g i) in *. set (b2 := getBall g j) in *.
  set (g' := stateAfter (resolveCollision i j) h g) in *.
  split; [rewrite X1; field |].
  split; [rewrite Y1; field |].
  split; [rewrite X2; field |].
  split; [rewrite Y2; field |].
  unfold centerDist at 1. rewrite X1, X2, Y1, Y2.
  unfold normalX, normalY. fold (centerDist b1 b2).
  set (d := centerDist b1 b2) in *.
  replace (x b2 + (x b2 - x b1) / d * (r b1 + r b2 - d) * (5 / 10) -
           (x b1 - (x b2 - x b1) / d * (r b1 + r b2 - d) * (5 / 10)))
    with ((x b2 - x b1) * ((r b1 + r b2) / d)) by (field; lra).
  replace (y b2 + (y b2 - y b1) / d * (r b1 + r b2 - d) * (5 / 10) -
           (y b1 - (y b2 - y b1) / d * (r b1 + r b2 - d) * (5 / 10)))
    with ((y b2 - y b1) * ((r b1 + r b2) / d)) by (field; lra).
  rewrite Rhypot_scale.
  - fold (centerDist b1 b2). fold d. field. lra.
  - apply Rlt_le. apply Rdiv_lt_0_compat; lra.
Qed.

(** C4: one call on two overlapping bodies of positive mass with distinct
    centers keeps the momentum along the contact normal and leaves both
    tangential velocity components as they were. *)
Theorem resolveCollision_momentum (h : Host R) (g : Game R) (i j : nat) :
  i <> j -> (i <= length (lumies g))%nat -> (j <= length (lumies g))%nat ->
  let b1 := getBall g i in
  let b2 := getBall g j in
  0 < centerDist b1 b2 ->
  centerDist b1 b2 < r b1 + r b2 ->
  0 < mass b1 -> 0 < mass b2 ->
  let g' := stateAfter (resolveCollision i j) h g in
  mass b1 * alongNormal b1 b2 (getBall g' i) +
  mass b2 * alongNormal b1 b2 (getBall g' j) =
  mass b1 * alongNormal b1 b2 b1 + mass b2 * alongNormal b1 b2 b2 /\
  alongTangent b1 b2 (getBall g' i) = alongTangent b1 b2 b1 /\
  alongTangent b1 b2 (getBall g' j) = alongTangent b1 b2 b2.
Proof.
  intros Hij Hi Hj. cbv zeta. intros Hpos Hov Hm1 Hm2.
  destruct (resolveCollision_exact h g i j Hij Hi Hj Hov) as [K1 K2].
  apply kinematics_inv in K1. apply kinematics_inv in K2.
  destruct K1 as (_ & _ & V1 & W1). destruct K2 as (_ & _ & V2 & W2).
  pose proof (normal_unit _ _ Hpos) as Hu.
  set (b1 := getBall g i) in *. set (b2 := getBall g j) in *.
  set (g' := stateAfter (resolveCollision i j) h g) in *.
  unfold alongNormal at 1 2, alongTangent at 1 3.
  rewrite V1, W1, V2, W2.
  set (n1 := alongNormal b1 b2 b1) in *.
  set (n2 := alongNormal b1 b2 b2) in *.
  set (t1 := alongTangent b1 b2 b1) in *.
  set (t2 := alongTangent b1 b2 b2) in *.
  set (nx := normalX b1 b2) in *. set (ny := normalY b1 b2) in *.
  clearbody n1 n2 t1 t2 nx ny.
  assert (Hnn : ny * ny = 1 - nx * nx) by lra.
  split; [| split].
  - replace ((- ny * t1 + nx * ((n1 * (mass b1 - mass b2) + 2 * mass b2 * n2) / (mass b1 + mass b2))) * nx +
             (nx * t1 + ny * ((n1 * (mass b1 - mass b2) + 2 * mass b2 * n2) / (mass b1 + mass b2))) * ny)
      with ((nx * nx + ny * ny) *
            ((n1 * (mass b1 - mass b2) + 2 * mass b2 * n2) / (mass b1 + mass b2)))
      by (field; lra).
    replace ((- ny * t2 + nx * ((n2 * (mass b2 - mass b1) + 2 * mass b1 * n1) / (mass b1 + mass b2))) * nx +
             (nx * t2 + ny * ((n2 * (mass b2 - mass b1) + 2 * mass b1 * n1) / (mass b1 + mass b2))) * ny)
      with ((nx * nx + ny * ny) *
            ((n2 * (mass b2 - mass b1) + 2 * mass b1 * n1) / (mass b1 + mass b2)))
      by (field; lra).
    rewrite Hu. field. lra.
  - replace ((- ny * t1 + nx * ((n1 * (mass b1 - mass b2) + 2 * mass b2 * n2) / (mass b1 + mass b2))) * - ny +
             (nx * t1 + ny * ((n1 * (mass b1 - mass b2) + 2 * mass b2 * n2) / (mass b1 + mass b2))) * nx)
      with ((nx * nx + ny * ny) * t1) by (field; lra).
    rewrite Hu. ring.
  - replace ((- ny * t2 + nx * ((n2 * (mass b2 - mass b1) + 2 * mass b1 * n1) / (mass b1 + mass b2))) * - ny +
             (nx * t2 + ny * ((n2 * (mass b2 - mass b1) + 2 * mass b1 * n1) / (mass b1 + mass b2))) * nx)
      with ((nx * nx + ny * ny) * t2) by (field; lra).
    rewrite Hu. ring.
Qed.

End CollisionExact.

Section ConversionExact.
Local Open Scope R_scope.

(** C7: a hit on a target whose lock has expired turns a neutral target
    green when the draw is above one half and blue otherwise, a green one
    blue and a blue one green; it locks the target until [cooldown] after
    the time then read and appends the change to the roll's log. *)
Theorem onHitLumie_converts (h : Host R) (g : Game R) (k : nat) :
  (lockedUntil (getBall g k) <= clock h (nclock h))%Z ->
  let lumie := getBall g k in
  let rnd := rand h (nrand h) in
  let g' := stateAfter (onHitLumie k) h g in
  let lumie' := getBall g' k in
  (color lumie = red ->
     (1 / 2 < rnd -> color lumie' = green) /\
     (rnd <= 1 / 2 -> color lumie' = blue)) /\
  (color lumie = green -> color lumie' = blue) /\
  (color lumie = blue -> color lumie' = green) /\
  lockedUntil lumie' = (clock h (S (nclock h)) + 4000)%Z /\
  turnChanges g' =
    turnChanges g ++ [mkChange k (color lumie) (color lumie')].
Proof.
  intros Hl. cbv zeta.
  destruct (onHitLumie_unlocked h g k Hl) as (Hc & Hlock & Hlog & _).
  rewrite Hc. split; [| split; [| split; [| split]]].
  - intros ->. cbn [converted nlt Num_R]. rewrite dec_5_1. split; intros Hr.
    + rewrite Rltb_true by lra. reflexivity.
    + rewrite Rltb_false by lra. reflexivity.
  - intros ->. reflexivity.
  - intros ->. reflexivity.
  - exact Hlock.
  - rewrite Hlog, Hc. reflexivity.
Qed.

End ConversionExact.

Section Passes.
Context {T : Type} `{Num T} `{Trig T}.

Implicit Types (g : Game T) (h : Host T) (b : Ball T) (k m : nat).

Lemma frameOf_setBall k b g : frameOf (setBall k b g) = frameOf g.
Proof. unfold frameOf. autorewrite with store. reflexivity. Qed.

Lemma getBall_setBall_cases k b g m :
  (getBall (setBall k b g) m = b /\ getBall g m = getBall g k) \/
  getBall (setBall k b g) m = getBall g m.
Proof.
  destruct (decide (m = k)) as [-> | Hne];
    [left; split; [apply getBall_setBall | reflexivity] |].
  unfold getBall, setBall.
  destruct (k <? length (lumies g))%nat eqn:Hk;
    cbn [lumies playerBall set_lumies set_playerBall].
  - right. apply Nat.ltb_lt in Hk.
    destruct (decide (m < length (lumies g))%nat) as [Hm | Hm].
    + destruct (lookup_lt_is_Some_2 (lumies g) m Hm) as [bm Hbm].
      rewrite (nth_lookup_Some _ _ _ bm Hbm).
      apply nth_lookup_Some. rewrite list_lookup_insert_ne by auto.
      exact Hbm.
    + rewrite !nth_overflow; [reflexivity | lia |].
      rewrite length_insert. lia.
  - apply Nat.ltb_ge in Hk.
    destruct (decide (m < length (lumies g))%nat) as [Hm | Hm].
    + right. apply nth_indep. exact Hm.
    + left. rewrite !nth_overflow by lia. auto.
Qed.

(** *** The first pass of [updatePhysics]: each ball once *)
Lemma forEachWith_onBall {L} (f : L -> M T (Ball T) L) (l : list nat) :
  NoDup l ->
  forall (acc : L) h g,
    (forall k, k ∈ l -> (k <= length (lumies g))%nat) ->
    let g' := stateAfter (forEachWith l (fun k a => onBall k (f a)) acc) h g in
    length (lumies g') = length (lumies g) /\
    frameOf g' = frameOf g /\
    (forall m, (m <= length (lumies g))%nat -> m ∉ l ->
               getBall g' m = getBall g m) /\
    (forall m, m ∈ l ->
               exists a0 h0, getBall g' m = stateAfter (f a0) h0 (getBall g m)).
Proof.
  induction 1 as [| k l Hk Hnd IH]; intros acc h g Hr; cbv zeta.
  - cbn [forEachWith]. unfold stateAfter, ret. cbn [snd].
    repeat split; auto. intros m Hm. apply elem_of_nil in Hm. contradiction.
  - cbn [forEachWith]. rewrite stateAfter_bind.
    set (g1 := stateAfter (onBall k (f acc)) h g).
    set (h1 := hostAfter (onBall k (f acc)) h g).
    set (a1 := valueOf (onBall k (f acc)) h g).
    assert (Hg1 : g1 = setBall k (stateAfter (f acc) h (getBall g k)) g).
    { unfold g1, stateAfter, onBall.
      destruct (f acc h (getBall g k)) as [[a h'] b']. reflexivity. }
    assert (Hlen : length (lumies g1) = length (lumies g))
      by (rewrite Hg1; apply setBall_length).
    assert (Hkr : (k <= length (lumies g))%nat)
      by (apply Hr; left).
    destruct (IH a1 h1 g1) as (IH1 & IH2 & IH3 & IH4).
    { intros k' Hk'. rewrite Hlen. apply Hr. right. exact Hk'. }
    split; [rewrite IH1; exact Hlen |].
    split; [rewrite IH2, Hg1; apply frameOf_setBall |].
    split.
    + intros m Hm Hnot. rewrite not_elem_of_cons in Hnot.
      destruct Hnot as [Hmk Hml].
      rewrite IH3 by (rewrite ?Hlen; auto).
      rewrite Hg1. apply getBall_setBall_ne; auto.
    + intros m Hm. apply elem_of_cons in Hm. destruct Hm as [-> | Hm].
      * rewrite IH3 by (rewrite ?Hlen; auto).
        rewrite Hg1, getBall_setBall. eauto.
      * destruct (IH4 m Hm) as (a0 & h0 & E). rewrite E.
        assert (m <> k) by (intros ->; contradiction).
        assert (m <= length (lumies g))%nat by (apply Hr; right; exact Hm).
        rewrite Hg1, getBall_setBall_ne; eauto.
Qed.

Lemma forEachWith_value {S A L} (F : A -> L -> M T S L) (l : list A) :
  (forall a acc h s, valueOf (F a acc) h s = acc) ->
  forall acc h s, valueOf (forEachWith l F acc) h s = acc.
Proof.
  intros HF. induction l as [| a l IH]; intros acc h s;
    cbn [forEachWith]; [reflexivity |].
  rewrite valueOf_bind, IH. apply HF.
Qed.

End Passes.

Section TimeoutTick.
Local Open Scope R_scope.

Implicit Types (g : Game R) (h : Host R) (b : Ball R) (k m : nat).

Lemma Rltb_0_abs0 : Rltb 0 (Rabs 0) = false.
Proof. apply Rltb_false. rewrite Rabs_R0. lra. Qed.

(** The [forEach] callback on one ball when the time limit is reached. *)
Lemma each_timeout w ht mv h b :
  let b' := stateAfter (updatePhysics_each true w ht mv) h b in
  vx b' = 0 /\ vy b' = 0 /\ angularVelocity b' = 0 /\
  valueOf (updatePhysics_each true w ht mv) h b = mv.
Proof.
  cbv zeta. unfold updatePhysics_each.
  rewrite stateAfter_bind, valueOf_bind.
  set (b1 := stateAfter update h b). set (h1 := hostAfter update h b).
  clearbody b1 h1.
  unfold stateAfter, valueOf, bind, modify, get, when, ret.
  cbn beta iota zeta delta
    [fst snd x y r color vx vy mass angle angularVelocity heavyPhase
     isLumie lockedUntil lastHit set_x set_y set_vx set_vy
     set_angularVelocity nadd nsub nmul ndiv nneg nabs nlt nofZ Num_R].
  rewrite Rltb_0_abs0. cbn [orb].
  repeat match goal with
         | |- context [if Rltb ?a ?c then _ else _] =>
             destruct (Rltb a c);
             cbn beta iota zeta delta
               [fst snd x y r color vx vy mass angle angularVelocity
                heavyPhase isLumie lockedUntil lastHit set_x set_y set_vx
                set_vy set_angularVelocity]
         end;
    repeat split; try reflexivity; ring.
Qed.

Lemma still_setBall F0 k b g :
  stillAs F0 frameOf g -> atRest b -> stillAs F0 frameOf (setBall k b g).
Proof.
  intros [Hr Hf] Hb. split.
  - intros m. destruct (getBall_setBall_cases k b g m) as [[-> _] | ->];
      auto.
  - rewrite frameOf_setBall. exact Hf.
Qed.

Ltac still_leaf :=
  lazymatch goal with
  | |- preserves _ (onBall _ (modify _)) =>
      let Hg := fresh "Hg" in
      apply preserves_onBall; intros ? ? Hg;
      apply still_setBall; [exact Hg |];
      unfold stateAfter, modify; cbn [snd];
      match goal with
      | Hg : stillAs _ _ ?g |- atRest (_ (getBall ?g ?k)) =>
          destruct (proj1 Hg k) as [? ?]
      end;
      unfold atRest;
      cbn [vx vy set_x set_y set_vx set_vy set_angularVelocity];
      split; try assumption
  end.

Lemma resolveCollision_keeps_still F0 i j :
  preserves (stillAs F0 frameOf) (resolveCollision i j).
Proof.
  unfold resolveCollision. apply preserves_bind_get. intros s0 [Hs0 _].
  cbv zeta. apply preserves_when. intros _.
  destruct (Hs0 i) as [Vi Wi]. destruct (Hs0 j) as [Vj Wj].
  rewrite Vi, Wi, Vj, Wj.
  cbn [nadd nsub nmul ndiv nneg nabs nlt nofZ Num_R].
  repeat first
    [ still_leaf
    | lazymatch goal with
      | |- preserves _ (when _ (bind (when _ (onHitLumie _)) _)) =>
          apply preserves_when; intros Himp; exfalso; revert Himp;
          match goal with
          | |- Rltb ?a (Rabs ?e) = true -> False =>
              replace e with 0 by ring; rewrite Rabs_R0;
              rewrite Rltb_false by (rewrite dec_5_1; lra); discriminate
          end
      end
    | preserves_step ];
    unfold Rdiv; ring.
Qed.

Lemma valueOf_get {S} (h : Host R) (s : S) : valueOf get h s = s.
Proof. reflexivity. Qed.

Lemma hostAfter_get {S} (h : Host R) (s : S) : hostAfter get h s = h.
Proof. reflexivity. Qed.

Lemma stateAfter_get {S} (h : Host R) (s : S) : stateAfter get h s = s.
Proof. reflexivity. Qed.

Lemma valueOf_now {S} (h : Host R) (s : S) :
  valueOf Date_now h s = clock h (nclock h).
Proof. reflexivity. Qed.

Lemma hostAfter_now {S} (h : Host R) (s : S) :
  hostAfter Date_now h s =
  mkHost (rand h) (nrand h) (clock h) (Datatypes.S (nclock h)) (dom h).
Proof. reflexivity. Qed.

Lemma stateAfter_now {S} (h : Host R) (s : S) :
  stateAfter Date_now h s = s.
Proof. reflexivity. Qed.

Lemma seq_NoDup a n : NoDup (seq a n).
Proof. apply NoDup_ListNoDup, List.seq_NoDup. Qed.

Lemma bind_get_run {S B} (k : S -> M R S B) (h : Host R) (s : S) :
  bind get k h s = k s h s.
Proof. reflexivity. Qed.

Lemma bind_now_run {S B} (k : Z -> M R S B) (h : Host R) (s : S) :
  bind Date_now k h s =
  k (clock h (nclock h))
    (mkHost (rand h) (nrand h) (clock h) (Datatypes.S (nclock h)) (dom h)) s.
Proof. reflexivity. Qed.

Lemma updatePhysics_passes h g :
  updatePhysics h g =
  (let n := length (lumies g) in
   let now := clock h (nclock h) in
   let tl := (3000 <? now - default 0 (turnStartTime g))%Z in
   (moving <- positionsPass tl (width g) (height g) n ;;
    collisionsPass n ;;
    this' <- get ;;
    when (negb moving)
      (when (bool_decide (turnState this' = rolling)) endTurn))%M
     (mkHost (rand h) (nrand h) (clock h) (S (nclock h)) (dom h)) g).
Proof. reflexivity. Qed.

Lemma valueOf_onBall {A} k (m : M R (Ball R) A) h g :
  valueOf (onBall k m) h g = valueOf m h (getBall g k).
Proof.
  unfold valueOf, onBall. destruct (m h (getBall g k)) as [[a h'] b'].
  reflexivity.
Qed.

Lemma onBall_each_value w ht k acc h g :
  valueOf (onBall k (updatePhysics_each true w ht acc)) h g = acc.
Proof.
  rewrite valueOf_onBall. apply each_timeout.
Qed.

Lemma positionsPass_value w ht n h g :
  valueOf (positionsPass true w ht n) h g = false.
Proof.
  unfold positionsPass.
  apply (forEachWith_value
           (fun k moving => onBall k (updatePhysics_each true w ht moving))).
  intros k acc h0 g0. apply onBall_each_value.
Qed.

Lemma positionsPass_still w ht h g :
  stillAs (frameOf g) frameOf
    (stateAfter (positionsPass true w ht (length (lumies g))) h g).
Proof.
  pose proof (forEachWith_onBall (updatePhysics_each true w ht)
                (seq 0 (length (lumies g) + 1)) (seq_NoDup _ _)
                false h g) as Hp.
  destruct Hp as (Hlen & Hfr & _ & Hin).
  { intros k Hk. apply elem_of_seq in Hk. lia. }
  change (forEachWith (seq 0 (length (lumies g) + 1))
            (fun k a => onBall k (updatePhysics_each true w ht a)) false)
    with (positionsPass true w ht (length (lumies g))) in Hlen, Hfr, Hin.
  set (g1 := stateAfter _ h g) in *. clearbody g1.
  split; [| exact Hfr].
  assert (Hle : forall m, (m <= length (lumies g))%nat ->
                          atRest (getBall g1 m)).
  { intros m Hm. destruct (Hin m) as (a0 & h0 & E).
    - apply elem_of_seq. lia.
    - rewrite E.
      pose proof (each_timeout w ht a0 h0 (getBall g m))
        as (V & W & _). split; assumption. }
  intros m. destruct (decide (m <= length (lumies g))%nat) as [Hm | Hm];
    [apply Hle; exact Hm |].
  replace (getBall g1 m) with (getBall g1 (length (lumies g))).
  - apply Hle. lia.
  - unfold getBall. rewrite !nth_overflow by lia. reflexivity.
Qed.

Lemma collisionsPass_still F0 n :
  preserves (stillAs F0 frameOf) (collisionsPass n).
Proof.
  unfold collisionsPass. apply preserves_forEach.
  intros i _. apply preserves_forEach. intros j _.
  apply resolveCollision_keeps_still.
Qed.

(** A tick past the time limit is the end-of-roll evaluation of a game
    whose balls are all at rest and whose other fields are untouched. *)
Lemma timeout_tick_run h g :
  turnState g = rolling ->
  (3000 < clock h (nclock h) - default 0 (turnStartTime g))%Z ->
  exists h3 g2,
    updatePhysics h g = endTurn h3 g2 /\
    stillAs (frameOf g) frameOf g2.
Proof.
  intros Hroll Hlate. apply Z.ltb_lt in Hlate.
  rewrite updatePhysics_passes. cbv zeta. rewrite Hlate.
  set (h1 := mkHost _ _ _ _ _). clearbody h1.
  rewrite bind_run.
  rewrite positionsPass_value.
  pose proof (positionsPass_still (width g) (height g) h1 g) as Hg1.
  set (g1 := stateAfter _ h1 g) in *. set (h2 := hostAfter _ h1 g).
  clearbody g1 h2.
  rewrite bind_run.
  pose proof (collisionsPass_still (frameOf g) (length (lumies g)) h2 g1 Hg1)
    as Hg2.
  set (g2 := stateAfter _ h2 g1) in *. set (h3 := hostAfter _ h2 g1).
  clearbody g2 h3.
  rewrite bind_get_run.
  assert (Hts : turnState g2 = rolling).
  { destruct Hg2 as [_ Hf]. unfold frameOf in Hf.
    injection Hf as _ _ _ _ Hts _ _ _ _. congruence. }
  rewrite Hts. rewrite (bool_decide_eq_true_2 (rolling = rolling) eq_refl).
  exists h3, g2. split; [reflexivity | exact Hg2].
Qed.

Lemma loop_rolling h g : turnState g = rolling -> loop h g = updatePhysics h g.
Proof.
  intros Hr. unfold loop. rewrite bind_get_run, Hr.
  rewrite (bool_decide_eq_true_2 (rolling = rolling) eq_refl). reflexivity.
Qed.

Lemma endTurn_lumies h g : lumies (stateAfter endTurn h g) = lumies g.
Proof.
  unfold stateAfter, endTurn, updateBadge, resetPlayerBall, Ball_new,
    bind, modify, get, when, ret, emit, Math_random.
  record_simpl.
  repeat match goal with
         | |- context [if ?c then _ else _] => destruct c; record_simpl
         | |- context [match ?c with _ => _ end] => destruct c; record_simpl
         end; reflexivity.
Qed.

Lemma endTurn_playerBall h g :
  atRest (playerBall (stateAfter endTurn h g)) /\
  angularVelocity (playerBall (stateAfter endTurn h g)) = 0.
Proof.
  unfold stateAfter, endTurn, updateBadge, resetPlayerBall, Ball_new,
    bind, modify, get, when, ret, emit, Math_random, atRest.
  record_simpl.
  repeat match goal with
         | |- context [if ?c then _ else _] => destruct c; record_simpl
         | |- context [match ?c with _ => _ end] => destruct c; record_simpl
         end; auto.
Qed.

Lemma endTurn_still h g :
  (forall m, atRest (getBall g m)) ->
  forall m, atRest (getBall (stateAfter endTurn h g) m).
Proof.
  intros Hr m. unfold getBall. rewrite endTurn_lumies.
  destruct (decide (m < length (lumies g))%nat) as [Hm | Hm].
  - rewrite (nth_indep _ _ (playerBall g) Hm). apply (Hr m).
  - rewrite nth_overflow by lia. apply endTurn_playerBall.
Qed.

Lemma switchTurn_frame (g1 g2 : Game R) :
  frameOf g2 = frameOf g1 ->
  switchTurn g2 = switchTurn g1 /\ currentPlayer g2 = currentPlayer g1.
Proof.
  unfold frameOf. intros [= _ _ Hcp Hpc _ _ _ Htc _].
  unfold switchTurn. rewrite Hcp, Hpc, Htc. auto.
Qed.

Lemma timeout_tick_player h g :
  turnState g = rolling ->
  (3000 < clock h (nclock h) - default 0 (turnStartTime g))%Z ->
  currentPlayer (stateAfter loop h g) =
    if switchTurn g then otherPlayer (currentPlayer g) else currentPlayer g.
Proof.
  intros Hroll Hlate.
  destruct (timeout_tick_run h g Hroll Hlate) as (h3 & g2 & E & _ & Hf).
  unfold stateAfter. rewrite (loop_rolling h g Hroll), E.
  fold (stateAfter endTurn h3 g2). rewrite endTurn_player.
  destruct (switchTurn_frame g g2 Hf) as [-> ->]. reflexivity.
Qed.

End TimeoutTick.

Section Tape.
Context {T : Type} `{Num T}.

Implicit Types (g : Game T) (h : Host T) (b : Ball T) (k m : nat).

Lemma onHitLumie_field {X} (F : Ball T -> X) :
  (forall c b, F (set_color c b) = F b) ->
  (forall t b, F (set_lockedUntil t b) = F b) ->
  forall k h g m,
    F (getBall (stateAfter (onHitLumie k) h g) m) = F (getBall g m).
Proof.
  intros Hc Hl k h g m.
  unfold stateAfter, onHitLumie, bind, get, Date_now. record_simpl.
  destruct (_ <? _)%Z; [reflexivity |].
  destruct (color (getBall g k)) eqn:Hcol;
    unfold updateScores, updateBadge, onBall, bind, modify, get,
      when, ret, Math_random, Date_now, emit; record_simpl;
    repeat match goal with
           | |- context [if ?c then _ else _] =>
               destruct c eqn:?; record_simpl
           end;
    repeat first
      [ rewrite getBall_set_turnChanges
      | rewrite getBall_set_playerColors
      | rewrite (getBall_setBall_field F)
          by (autorewrite with store; rewrite ?Hl, ?Hc; reflexivity) ];
    reflexivity.
Qed.

Lemma onHitLumie_rand k h g : rand (hostAfter (onHitLumie k) h g) = rand h.
Proof.
  unfold hostAfter, onHitLumie, bind, get, Date_now. record_simpl.
  destruct (_ <? _)%Z; [reflexivity |].
  destruct (color (getBall g k)) eqn:Hcol;
    unfold updateScores, updateBadge, onBall, bind, modify, get,
      when, ret, Math_random, Date_now, emit; record_simpl;
    repeat match goal with
           | |- context [if ?c then _ else _] =>
               destruct c eqn:?; record_simpl
           end; reflexivity.
Qed.

Section KeepsRules.
Context {S : Type} (tape : nat -> T) (I : S -> Prop).

Lemma keeps_ret {A} (a : A) : keeps tape I (ret a).
Proof. intros h s Hh Hs. split; assumption. Qed.

Lemma keeps_bind {A B} (m : M T S A) (k : A -> M T S B) :
  keeps tape I m -> (forall a, keeps tape I (k a)) ->
  keeps tape I (bind m k).
Proof.
  intros Hm Hk h s Hh Hs. rewrite stateAfter_bind, hostAfter_bind.
  destruct (Hm h s Hh Hs) as [Hh' Hs']. apply Hk; assumption.
Qed.

Lemma keeps_bind_get {B} (k : S -> M T S B) :
  (forall s0, I s0 -> keeps tape I (k s0)) -> keeps tape I (bind get k).
Proof.
  intros Hk h s Hh Hs. rewrite stateAfter_bind, hostAfter_bind.
  apply Hk; assumption.
Qed.

Lemma keeps_bind_random {B} (k : T -> M T S B) :
  (forall n, keeps tape I (k (tape n))) ->
  keeps tape I (bind Math_random k).
Proof.
  intros Hk h s Hh Hs. rewrite stateAfter_bind, hostAfter_bind.
  change (valueOf Math_random h s) with (rand h (nrand h)).
  rewrite Hh. apply Hk; [exact Hh | exact Hs].
Qed.

Lemma keeps_when (c : bool) (m : M T S unit) :
  (c = true -> keeps tape I m) -> keeps tape I (when c m).
Proof.
  intros Hm. destruct c; [apply Hm; reflexivity | apply keeps_ret].
Qed.

Lemma keeps_forEach {A} (l : list A) (f : A -> M T S unit) :
  (forall a, a ∈ l -> keeps tape I (f a)) -> keeps tape I (forEach l f).
Proof.
  induction l as [| a l IH]; intros Hf; cbn [forEach].
  - apply keeps_ret.
  - apply keeps_bind.
    + apply Hf. left.
    + intros _. apply IH. intros a' Ha'. apply Hf. right. exact Ha'.
Qed.

End KeepsRules.

Lemma keeps_onBall_modify (tape : nat -> T) (I : Game T -> Prop) k
    (f : Ball T -> Ball T) :
  (forall g, I g -> I (setBall k (f (getBall g k)) g)) ->
  keeps tape I (onBall k (modify f)).
Proof. intros Hf h g Hh Hg. split; [exact Hh | apply Hf; exact Hg]. Qed.

Lemma keeps_leads {S A} tape (I : S -> Prop) (m : M T S A) :
  keeps tape I m -> leads tape I m I.
Proof. intros Hk. exact Hk. Qed.

Lemma leads_bind {S A B} tape (P Q W : S -> Prop) (m : M T S A)
    (k : A -> M T S B) :
  leads tape P m Q -> (forall a, leads tape Q (k a) W) ->
  leads tape P (bind m k) W.
Proof.
  intros Hm Hk h s Hh Hs. rewrite stateAfter_bind, hostAfter_bind.
  destruct (Hm h s Hh Hs) as [Hh' Hs']. apply Hk; assumption.
Qed.

Lemma leads_bind_random {S B} tape (P W : S -> Prop) (k : T -> M T S B) :
  (forall n, leads tape P (k (tape n)) W) ->
  leads tape P (bind Math_random k) W.
Proof.
  intros Hk h s Hh Hs. rewrite stateAfter_bind, hostAfter_bind.
  change (valueOf Math_random h s) with (rand h (nrand h)).
  rewrite Hh. apply Hk; [exact Hh | exact Hs].
Qed.

Lemma leads_bind_get {S B} tape (P W : S -> Prop) (k : S -> M T S B) :
  (forall s0, P s0 -> leads tape P (k s0) W) ->
  leads tape P (bind get k) W.
Proof.
  intros Hk h s Hh Hs. rewrite stateAfter_bind, hostAfter_bind.
  apply Hk; assumption.
Qed.

Lemma leads_pre {S A} tape (P P' Q : S -> Prop) (m : M T S A) :
  (forall s, P s -> P' s) -> leads tape P' m Q -> leads tape P m Q.
Proof. intros Hp Hm h s Hh Hs. apply Hm; auto. Qed.

Lemma rand_onBall {A} k (m : M T (Ball T) A) h g :
  rand (hostAfter (onBall k m) h g) = rand (hostAfter m h (getBall g k)).
Proof.
  unfold hostAfter, onBall. destruct (m h (getBall g k)) as [[a h'] b'].
  reflexivity.
Qed.

End Tape.

Ltac keeps_step :=
  lazymatch goal with
  | |- keeps _ _ (ret _) => apply keeps_ret
  | |- keeps _ _ (bind get _) => apply keeps_bind_get; intros ? ?
  | |- keeps _ _ (bind Math_random _) => apply keeps_bind_random; intros ?
  | |- keeps _ _ (bind _ _) => apply keeps_bind; [| intros ?]
  | |- keeps _ _ (when _ _) => apply keeps_when; intros ?
  | |- keeps _ _ (forEach _ _) => apply keeps_forEach; intros ? ?
  | |- keeps _ _ (let _ := _ in _) => cbv zeta
  end.

Section SpinAfterTimeout.
Local Open Scope R_scope.

Implicit Types (g : Game R) (h : Host R) (b : Ball R) (k m : nat).

Ltac ball_simpl :=
  cbn beta iota zeta delta
    [fst snd x y r color vx vy mass angle angularVelocity heavyPhase
     isLumie lockedUntil lastHit set_x set_y set_vx set_vy set_angle
     set_angularVelocity nadd nsub nmul ndiv nneg nabs nlt nofZ Num_R
     rand nrand clock nclock dom].

(** A ball at rest inside the walls stays where it is. *)
Lemma each_timeout_inside w ht mv h b :
  vx b = 0 -> vy b = 0 ->
  r b <= x b <= w - r b -> r b <= y b <= ht - r b ->
  let b' := stateAfter (updatePhysics_each true w ht mv) h b in
  x b' = x b /\ y b' = y b /\ r b' = r b.
Proof.
  intros Vx Vy Hx Hy. cbv zeta.
  unfold stateAfter, updatePhysics_each, update, bind, modify, get, when,
    ret, Math_random.
  ball_simpl. rewrite Vx, Vy.
  destruct (isLumie b); cbn [andb];
    repeat (ball_simpl;
            match goal with
            | |- context [if Rltb ?a ?c then _ else _] =>
                first [ rewrite (Rltb_false a c) by lra
                      | destruct (Rltb a c) ]
            end);
    ball_simpl; repeat split; ring.
Qed.

Ltac spun_leaf :=
  lazymatch goal with
  | |- keeps _ _ (onBall _ (modify (fun b => set_angularVelocity _ b))) =>
      let Hg := fresh "Hg" in
      apply keeps_onBall_modify; intros ? Hg; unfold spunBelow in *;
      match goal with
      | |- angularVelocity (getBall (setBall ?k ?b' ?g) 0) <= _ =>
          destruct (getBall_setBall_cases k b' g 0%nat)
            as [[-> E] | ->]; [| exact Hg];
          rewrite E in Hg; ball_simpl; unfold zeroTape;
          rewrite dec_5_1; lra
      end
  | |- keeps _ _ (onBall _ (modify _)) =>
      let Hg := fresh "Hg" in
      apply keeps_onBall_modify; intros ? Hg; unfold spunBelow in *;
      rewrite (getBall_setBall_field angularVelocity)
        by reflexivity; exact Hg
  | |- keeps _ _ (onHitLumie _) =>
      let Hg := fresh "Hg" in
      intros ? ? ? Hg; split;
      [ rewrite onHitLumie_rand; assumption
      | unfold spunBelow in *;
        rewrite (onHitLumie_field angularVelocity)
          by reflexivity; exact Hg ]
  end.

Lemma resolveCollision_keeps_spun c i j :
  keeps zeroTape (spunBelow c) (resolveCollision i j).
Proof.
  unfold resolveCollision. apply keeps_bind_get. intros s0 _.
  cbv zeta. apply keeps_when. intros _.
  repeat first [spun_leaf | keeps_step].
Qed.

(** A collision of the first ball kicks its angular velocity: with a
    tape of zeros, by minus one half. *)
Lemma first_strike c j :
  leads zeroTape (fun g => spunBelow c g /\ overlapping 0 j g)
    (resolveCollision 0 j) (spunBelow (c - 1 / 2)).
Proof.
  unfold resolveCollision. apply leads_bind_get. intros s0 [_ Hov].
  cbv zeta. unfold overlapping, centerDist in Hov.
  cbn [nadd nsub nlt nhypot Num_R].
  rewrite (Rltb_true _ _ Hov). cbn [when].
  apply (leads_pre _ _ (spunBelow c)); [intros s Hs; apply Hs |].
  do 9 (apply (leads_bind _ _ (spunBelow c));
        [apply keeps_leads; repeat first [spun_leaf | keeps_step]
        | intros _]).
  apply leads_bind_random. intros n.
  apply (leads_bind _ _ (spunBelow (c - 1 / 2))).
  - intros h g Hh Hg. split; [exact Hh |].
    unfold stateAfter, onBall, modify, spunBelow in *. cbn [snd].
    rewrite getBall_setBall. ball_simpl. unfold zeroTape.
    rewrite dec_5_1. lra.
  - intros _. apply keeps_leads. repeat first [spun_leaf | keeps_step].
Qed.

End SpinAfterTimeout.

Section Count.
Context {T : Type} `{Num T} `{Trig T}.

Implicit Types (g : Game T) (h : Host T) (b : Ball T) (k m : nat).

Lemma onHitLumie_keeps_count n k : preserves (targetCount n) (onHitLumie k).
Proof.
  intros h g Hg. unfold targetCount in *.
  unfold stateAfter, onHitLumie, bind, get, Date_now. record_simpl.
  destruct (_ <? _)%Z; [exact Hg |].
  destruct (color (getBall g k));
    unfold updateScores, updateBadge, onBall, bind, modify, get,
      when, ret, Math_random, Date_now, emit; record_simpl;
    repeat match goal with
           | |- context [if ?c then _ else _] =>
               destruct c eqn:?; record_simpl
           end;
    autorewrite with store; record_simpl; autorewrite with store;
    exact Hg.
Qed.

Ltac count_leaf :=
  lazymatch goal with
  | |- preserves _ (onHitLumie _) => apply onHitLumie_keeps_count
  | |- preserves _ (onBall _ _) =>
      let Hg := fresh "Hg" in
      apply preserves_onBall; intros ? ? Hg; unfold targetCount in *;
      rewrite setBall_length; exact Hg
  | |- preserves _ (modify _) =>
      let Hg := fresh "Hg" in
      apply preserves_modify; intros ? Hg; unfold targetCount in *;
      cbn [lumies set_lumies set_playerBall set_currentPlayer
           set_playerColors set_turnState set_drag set_turnChanges
           set_turnStartTime set_size];
      rewrite ?length_map; exact Hg
  end.

Ltac count := repeat first [count_leaf | preserves_step].

Lemma resolveCollision_keeps_count n i j :
  preserves (targetCount n) (resolveCollision i j).
Proof. unfold resolveCollision. count. Qed.

Lemma endTurn_keeps_count n : preserves (targetCount n) endTurn.
Proof. unfold endTurn, updateBadge, resetPlayerBall, Ball_new. count. Qed.

Lemma shoot_keeps_count n : preserves (targetCount n) shoot.
Proof.
  unfold shoot. apply preserves_bind_get. intros g0 _.
  destruct (dragCurrent g0), (dragStart g0); count.
Qed.

Lemma updatePhysics_keeps_count n : preserves (targetCount n) updatePhysics.
Proof.
  unfold updatePhysics.
  repeat first
    [ lazymatch goal with
      | |- preserves _ (resolveCollision _ _) =>
          apply resolveCollision_keeps_count
      | |- preserves _ endTurn => apply endTurn_keeps_count
      end
    | count_leaf | preserves_step ].
Qed.

Lemma handle_keeps_count n (i : Input) : preserves (targetCount n) (handle i).
Proof.
  destruct i; cbn [handle]; unfold loop, on_start, on_move, on_end, resize.
  - count.
  - apply preserves_bind_get. intros g0 _. destruct (dragStart g0); count.
  - apply preserves_bind_get. intros g0 _. destruct (dragStart g0);
      repeat first
        [ lazymatch goal with
          | |- preserves _ shoot => apply shoot_keeps_count
          end
        | count_leaf | preserves_step ].
  - repeat first
      [ lazymatch goal with
        | |- preserves _ updatePhysics => apply updatePhysics_keeps_count
        end
      | preserves_step ].
  - count.
Qed.

Lemma run_keeps_count n (l : list Input) : preserves (targetCount n) (run l).
Proof.
  unfold run. apply preserves_forEach. intros i _.
  apply handle_keeps_count.
Qed.

Lemma Game_new_count (w ht : T) (h0 : Host T) :
  targetCount 5 (snd (Game_new w ht h0)).
Proof. vm_compute. reflexivity. Qed.

End Count.

Section TapeOfPasses.
Context {T : Type} `{Num T} `{Trig T}.

Implicit Types (g : Game T) (h : Host T) (b : Ball T) (k m : nat).

Lemma keeps_modify {S} (tape : nat -> T) (I : S -> Prop) (f : S -> S) :
  (forall s, I s -> I (f s)) -> keeps tape I (modify f).
Proof. intros Hf h s Hh Hs. split; [exact Hh | apply Hf; exact Hs]. Qed.

Lemma update_keeps_tape tape : keeps tape anyBall update.
Proof.
  unfold update.
  repeat first
    [ lazymatch goal with
      | |- keeps _ _ (modify _) => apply keeps_modify; intros ? _; exact I
      end
    | keeps_step ].
Qed.

Lemma each_keeps_tape tape tl w ht mv :
  keeps tape anyBall (updatePhysics_each tl w ht mv).
Proof.
  unfold updatePhysics_each.
  repeat first
    [ lazymatch goal with
      | |- keeps _ _ update => apply update_keeps_tape
      | |- keeps _ _ (modify _) => apply keeps_modify; intros ? _; exact I
      end
    | keeps_step ].
Qed.

Lemma each_rand tl w ht mv h b :
  rand (hostAfter (updatePhysics_each tl w ht mv) h b) = rand h.
Proof.
  apply (each_keeps_tape (rand h) tl w ht mv h b eq_refl I).
Qed.

Lemma forEachWith_rand {S A L} (F : A -> L -> M T S L) (l : list A) :
  (forall a acc h s, rand (hostAfter (F a acc) h s) = rand h) ->
  forall acc h s, rand (hostAfter (forEachWith l F acc) h s) = rand h.
Proof.
  intros HF. induction l as [| a l IH]; intros acc h s;
    cbn [forEachWith]; [reflexivity |].
  rewrite hostAfter_bind, IH. apply HF.
Qed.

End TapeOfPasses.

Section SpinRemains.
Local Open Scope R_scope.

Implicit Types (g : Game R) (h : Host R) (b : Ball R) (k m : nat).

Lemma positionsPass_rand tl w ht n h g :
  rand (hostAfter (positionsPass tl w ht n) h g) = rand h.
Proof.
  unfold positionsPass.
  apply (forEachWith_rand
           (fun k moving => onBall k (updatePhysics_each tl w ht moving))).
  intros k acc h0 g0. rewrite rand_onBall. apply each_rand.
Qed.

(** The run of a tick past the time limit, pass by pass. *)
Lemma timeout_tick_passes h g :
  turnState g = rolling ->
  (3000 < clock h (nclock h) - default 0 (turnStartTime g))%Z ->
  let n := length (lumies g) in
  let h1 := mkHost (rand h) (nrand h) (clock h) (S (nclock h)) (dom h) in
  let g1 := stateAfter (positionsPass true (width g) (height g) n) h1 g in
  let h2 := hostAfter (positionsPass true (width g) (height g) n) h1 g in
  let g2 := stateAfter (collisionsPass n) h2 g1 in
  let h3 := hostAfter (collisionsPass n) h2 g1 in
  loop h g = endTurn h3 g2.
Proof.
  intros Hroll Hlate. apply Z.ltb_lt in Hlate. cbv zeta.
  rewrite (loop_rolling h g Hroll).
  rewrite updatePhysics_passes. cbv zeta. rewrite Hlate.
  set (h1 := mkHost _ _ _ _ _).
  rewrite bind_run.
  rewrite positionsPass_value.
  pose proof (positionsPass_still (width g) (height g) h1 g) as Hg1.
  set (g1 := stateAfter _ h1 g) in *. set (h2 := hostAfter _ h1 g).
  rewrite bind_run.
  pose proof (collisionsPass_still (frameOf g) (length (lumies g)) h2 g1 Hg1)
    as Hg2.
  set (g2 := stateAfter _ h2 g1) in *. set (h3 := hostAfter _ h2 g1).
  clearbody g2 h3.
  rewrite bind_get_run.
  assert (Hts : turnState g2 = rolling).
  { destruct Hg2 as [_ Hf]. unfold frameOf in Hf.
    injection Hf as _ _ _ _ Hts _ _ _ _. congruence. }
  rewrite Hts. rewrite (bool_decide_eq_true_2 (rolling = rolling) eq_refl).
  reflexivity.
Qed.

(** After the first pass of a timed-out tick, a ball that was at rest
    inside the walls is where it was, with no spin. *)
Lemma positionsPass_rested h g m :
  (m <= length (lumies g))%nat ->
  vx (getBall g m) = 0 -> vy (getBall g m) = 0 ->
  r (getBall g m) <= x (getBall g m) <= width g - r (getBall g m) ->
  r (getBall g m) <= y (getBall g m) <= height g - r (getBall g m) ->
  let g1 := stateAfter
              (positionsPass true (width g) (height g) (length (lumies g)))
              h g in
  x (getBall g1 m) = x (getBall g m) /\
  y (getBall g1 m) = y (getBall g m) /\
  r (getBall g1 m) = r (getBall g m) /\
  angularVelocity (getBall g1 m) = 0.
Proof.
  intros Hm Vx Vy Hx Hy. cbv zeta.
  pose proof (forEachWith_onBall
                (updatePhysics_each true (width g) (height g))
                (seq 0 (length (lumies g) + 1)) (seq_NoDup _ _)
                false h g) as Hp.
  destruct Hp as (_ & _ & _ & Hin).
  { intros k Hk. apply elem_of_seq in Hk. lia. }
  change (forEachWith (seq 0 (length (lumies g) + 1))
            (fun k a =>
               onBall k (updatePhysics_each true (width g) (height g) a))
            false)
    with (positionsPass true (width g) (height g) (length (lumies g)))
    in Hin.
  destruct (Hin m) as (a0 & h0 & E); [apply elem_of_seq; lia |].
  rewrite E.
  pose proof (each_timeout_inside (width g) (height g) a0 h0 (getBall g m)
                Vx Vy Hx Hy) as (X & Y & Rr).
  pose proof (each_timeout (width g) (height g) a0 h0 (getBall g m))
    as (_ & _ & A & _).
  auto.
Qed.

Lemma positionsPass_count w ht h g :
  length (lumies (stateAfter
                    (positionsPass true w ht (length (lumies g))) h g)) =
  length (lumies g).
Proof.
  pose proof (forEachWith_onBall (updatePhysics_each true w ht)
                (seq 0 (length (lumies g) + 1)) (seq_NoDup _ _)
                false h g) as Hp.
  destruct Hp as (Hlen & _).
  { intros k Hk. apply elem_of_seq in Hk. lia. }
  exact Hlen.
Qed.

Lemma collisionsPass_count n k : preserves (targetCount n) (collisionsPass k).
Proof.
  unfold collisionsPass. apply preserves_forEach.
  intros i _. apply preserves_forEach. intros j _.
  apply resolveCollision_keeps_count.
Qed.

Lemma collisionsPass_strike c n :
  leads zeroTape (fun g => spunBelow c g /\ overlapping 0 1 g)
    (collisionsPass (S n)) (spunBelow (c - 1 / 2)).
Proof.
  unfold collisionsPass.
  replace (S n + 1)%nat with (S (S n)) by lia.
  change (seq 0 (S (S n))) with (0 :: seq 1 (S n))%nat. cbn [forEach].
  change (seq (0 + 1) (S (S n) - (0 + 1))) with (1 :: seq 2 n)%nat.
  cbn [forEach].
  apply (leads_bind _ _ (spunBelow (c - 1 / 2))).
  - apply (leads_bind _ _ (spunBelow (c - 1 / 2))).
    + apply first_strike.
    + intros _. apply keeps_leads. apply keeps_forEach. intros j _.
      apply resolveCollision_keeps_spun.
  - intros _. apply keeps_leads. apply keeps_forEach. intros i _.
    apply keeps_forEach. intros j _. apply resolveCollision_keeps_spun.
Qed.

End SpinRemains.

Section SpinRemains2.
Local Open Scope R_scope.

Implicit Types (g : Game R) (h : Host R) (b : Ball R) (k m : nat).


End SpinRemains2.

Section Victory.
Context {T : Type} `{Num T}.

Implicit Types (g : Game T) (h : Host T) (k : nat).

Lemma updateScores_state h g : stateAfter updateScores h g = g.
Proof.
  unfold stateAfter, updateScores, bind, get, when, emit, ret.
  record_simpl.
  repeat match goal with
         | |- context [if ?c then _ else _] => destruct c; record_simpl
         end; reflexivity.
Qed.

Lemma updateScores_victory c h g :
  c = green \/ c = blue ->
  count_color c (lumies g) = 5%nat ->
  In (Victory c) (dom (hostAfter updateScores h g)).
Proof.
  intros Hc H5.
  unfold hostAfter, updateScores, bind, get, when, emit, ret.
  record_simpl.
  destruct Hc as [-> | ->]; rewrite H5; cbn [Nat.eqb]; record_simpl.
  - destruct (_ =? 5)%nat; record_simpl;
      rewrite ?in_app_iff; cbn [In]; tauto.
  - destruct (_ =? 5)%nat; record_simpl;
      rewrite ?in_app_iff; cbn [In]; tauto.
Qed.

Lemma bind_get_eq {S B} (k : S -> M T S B) (h : Host T) (s : S) :
  bind get k h s = k s h s.
Proof. reflexivity. Qed.

Lemma bind_now_eq {S B} (k : Z -> M T S B) (h : Host T) (s : S) :
  bind Date_now k h s =
  k (clock h (nclock h))
    (mkHost (rand h) (nrand h) (clock h) (Datatypes.S (nclock h)) (dom h)) s.
Proof. reflexivity. Qed.

(** Once its lock is checked, the handler ends with [updateScores]. *)
Lemma onHitLumie_ends_with_scores h g k :
  (lockedUntil (getBall g k) <= clock h (nclock h))%Z ->
  exists h0,
    hostAfter (onHitLumie k) h g =
    hostAfter updateScores h0 (stateAfter (onHitLumie k) h g).
Proof.
  intros Hl. apply Z.ltb_ge in Hl. eexists.
  unfold hostAfter at 1. unfold stateAfter. unfold onHitLumie.
  rewrite bind_now_eq, bind_get_eq. cbv zeta. record_simpl. rewrite Hl.
  rewrite bind_run. rewrite bind_now_eq. rewrite bind_run. rewrite bind_run.
  match goal with
  | |- snd (fst (updateScores ?hx ?gx)) = hostAfter updateScores ?e _ =>
      unify e hx;
      change (snd (updateScores hx gx))
        with (stateAfter updateScores hx gx);
      rewrite (updateScores_state hx gx)
  end.
  reflexivity.
Qed.

Lemma onHitLumie_victory h g k c :
  (lockedUntil (getBall g k) <= clock h (nclock h))%Z ->
  c = green \/ c = blue ->
  count_color c (lumies (stateAfter (onHitLumie k) h g)) = 5%nat ->
  In (Victory c) (dom (hostAfter (onHitLumie k) h g)).
Proof.
  intros Hl Hc H5.
  destruct (onHitLumie_ends_with_scores h g k Hl) as [h0 ->].
  apply updateScores_victory; assumption.
Qed.

End Victory.

Section AfterVictory.
Local Open Scope R_scope.

Implicit Types (g : Game R) (h : Host R) (b : Ball R) (k m : nat).

Lemma gameOver_state (c : Color) h g : stateAfter (gameOver c) h g = g.
Proof. unfold stateAfter. rewrite gameOver_run. reflexivity. Qed.

Lemma timeout_tick_state h g :
  turnState g = rolling ->
  (3000 < clock h (nclock h) - default 0 (turnStartTime g))%Z ->
  turnState (stateAfter loop h g) = aiming.
Proof.
  intros Hroll Hlate.
  destruct (timeout_tick_run h g Hroll Hlate) as (h3 & g2 & E & _).
  unfold stateAfter. rewrite (loop_rolling h g Hroll), E.
  apply (endTurn_state h3 g2).
Qed.

(** C3, as the code has it: a conversion that brings a color's count to
    five calls [gameOver] for that color, which writes the victory
    overlay and changes nothing of the game; turn state and current
    player are as before the conversion, so the roll goes on. *)
Theorem winning_conversion_shows_victory (h : Host R) (g : Game R)
    (k : nat) (c : Color) :
  (lockedUntil (getBall g k) <= clock h (nclock h))%Z ->
  c = green \/ c = blue ->
  let g' := stateAfter (onHitLumie k) h g in
  let h' := hostAfter (onHitLumie k) h g in
  count_color c (lumies g') = 5%nat ->
  In (Victory c) (dom h') /\
  (forall h0 g0, stateAfter (gameOver c) h0 g0 = g0) /\
  turnState g' = turnState g /\
  currentPlayer g' = currentPlayer g.
Proof.
  intros Hl Hc g' h' H5. split; [| split].
  - exact (onHitLumie_victory h g k c Hl Hc H5).
  - intros h0 g0. apply gameOver_state.
  - pose proof (onHitLumie_unlocked h g k Hl) as (_ & _ & _ & P & S & _).
    split; [exact S | exact P].
Qed.

(** C3, witness: the hypotheses of [winning_conversion_shows_victory] hold on a sample state. *)
Lemma winning_conversion_shows_victory_witness :
  In (Victory green) (dom (hostAfter (onHitLumie 4) late_host last_blue_board)) /\
  (forall h0 g0, stateAfter (gameOver green) h0 g0 = g0) /\
  turnState (stateAfter (onHitLumie 4) late_host last_blue_board) = rolling /\
  currentPlayer (stateAfter (onHitLumie 4) late_host last_blue_board) = 1%nat.
Proof.
  apply (winning_conversion_shows_victory late_host last_blue_board 4 green).
  - vm_compute. discriminate.
  - left. reflexivity.
  - vm_compute. reflexivity.
Defined.

(** C3, counterexample: player 1 (blue) turns the last blue target green,
    so green has five; the next tick, past the time limit, evaluates the
    roll and passes the turn to player 2. *)
Lemma play_goes_on_after_victory :
  let h1 := hostAfter (onHitLumie 4) late_host last_blue_board in
  let g1 := stateAfter (onHitLumie 4) late_host last_blue_board in
  let g2 := stateAfter loop h1 g1 in
  count_color green (lumies g1) = 5%nat /\
  In (Victory green) (dom h1) /\
  currentPlayer g1 = 1%nat /\ turnState g1 = rolling /\
  currentPlayer g2 = 2%nat /\ turnState g2 = aiming.
Proof.
  cbv zeta.
  set (h1 := hostAfter (onHitLumie 4) late_host last_blue_board).
  set (g1 := stateAfter (onHitLumie 4) late_host last_blue_board).
  assert (H5 : count_color green (lumies g1) = 5%nat)
    by (vm_compute; reflexivity).
  assert (Hl : (lockedUntil (getBall last_blue_board 4)
                <= clock late_host (nclock late_host))%Z)
    by (vm_compute; discriminate).
  assert (Hp : currentPlayer g1 = 1%nat) by (vm_compute; reflexivity).
  assert (Hroll : turnState g1 = rolling) by (vm_compute; reflexivity).
  assert (Hlate : (3000 < clock h1 (nclock h1)
                          - default 0 (turnStartTime g1))%Z)
    by (vm_compute; reflexivity).
  assert (Hsw : switchTurn g1 = true) by (vm_compute; reflexivity).
  repeat split; try assumption.
  - exact (onHitLumie_victory late_host last_blue_board 4 green Hl
             (or_introl eq_refl) H5).
  - rewrite (timeout_tick_player h1 g1 Hroll Hlate), Hsw, Hp. reflexivity.
  - apply (timeout_tick_state h1 g1 Hroll Hlate).
Qed.

End AfterVictory.

Section Binary64.
(** C1: in binary64, resolving the collision of two finite bodies whose
    centers coincide leaves NaN in the position and the velocity of
    both. *)
Theorem resolveCollision_coincident_nan :
  let g := stacked_board in
  let g' := stateAfter (resolveCollision 0 1) quiet_host g in
  (body_finite (getBall g 0) && body_finite (getBall g 1) = true) /\
  PrimFloat.eqb (x (getBall g 0)) (x (getBall g 1)) = true /\
  PrimFloat.eqb (y (getBall g 0)) (y (getBall g 1)) = true /\
  map (fun b => PrimFloat.is_nan (x b) && PrimFloat.is_nan (y b) &&
                PrimFloat.is_nan (vx b) && PrimFloat.is_nan (vy b))
      (lumies g') = [true; true] /\
  body_finite (getBall g' 0) = false /\
  body_finite (getBall g' 1) = false.
Proof. vm_compute. repeat split. Qed.

(** C5, counterexample: in binary64 two overlapping targets on one
    horizontal line, with distinct centers, are left on that line at a
    distance that is not 40, the sum of their radii. *)
Lemma resolveCollision_separation_rounds :
  let b1 := getBall near_board 0 in
  let b2 := getBall near_board 1 in
  let g' := stateAfter (resolveCollision 0 1) quiet_host near_board in
  let dist := float_hypot (PrimFloat.sub (x b2) (x b1))
                (PrimFloat.sub (y b2) (y b1)) in
  PrimFloat.ltb (nofZ 0) dist = true /\
  PrimFloat.ltb dist (PrimFloat.add (r b1) (r b2)) = true /\
  PrimFloat.eqb (PrimFloat.add (r b1) (r b2)) (nofZ 40) = true /\
  body_finite (getBall g' 0) && body_finite (getBall g' 1) = true /\
  PrimFloat.eqb (y (getBall g' 1)) (y (getBall g' 0)) = true /\
  PrimFloat.ltb (x (getBall g' 0)) (x (getBall g' 1)) = true /\
  PrimFloat.eqb (PrimFloat.sub (x (getBall g' 1)) (x (getBall g' 0)))
    (nofZ 40) = false.
Proof. vm_compute. repeat split. Qed.

End Binary64.

Section Witnesses.
Local Open Scope R_scope.

Lemma strike_board_dist :
  centerDist (getBall strike_board 1) (getBall strike_board 0) = 30.
Proof.
  unfold centerDist.
  cbn [strike_board getBall lumies playerBall nth striker lumieAt x y].
  apply Rhypot_unique; [lra | ring].
Qed.

(** C5, witness: the hypotheses of [resolveCollision_separates] hold on a sample state. *)
Lemma resolveCollision_separates_witness :
  centerDist
    (getBall (stateAfter (resolveCollision 1 0) late_host strike_board) 1)
    (getBall (stateAfter (resolveCollision 1 0) late_host strike_board) 0)
  = 22 + 20.
Proof.
  refine (proj2 (proj2 (proj2 (proj2
    (resolveCollision_separates late_host strike_board 1 0 _ _ _ _ _))))).
  - discriminate.
  - cbn. lia.
  - cbn. lia.
  - rewrite strike_board_dist. lra.
  - rewrite strike_board_dist.
    cbn [strike_board getBall lumies playerBall nth striker lumieAt r].
    lra.
Defined.

(** C4, witness: the hypotheses of [resolveCollision_momentum] hold on a sample state. *)
Lemma resolveCollision_momentum_witness :
  let b1 := getBall strike_board 1 in
  let b2 := getBall strike_board 0 in
  let g' := stateAfter (resolveCollision 1 0) late_host strike_board in
  mass b1 * alongNormal b1 b2 (getBall g' 1) +
  mass b2 * alongNormal b1 b2 (getBall g' 0) =
  mass b1 * alongNormal b1 b2 b1 + mass b2 * alongNormal b1 b2 b2 /\
  alongTangent b1 b2 (getBall g' 1) = alongTangent b1 b2 b1 /\
  alongTangent b1 b2 (getBall g' 0) = alongTangent b1 b2 b2.
Proof.
  refine (resolveCollision_momentum late_host strike_board 1 0 _ _ _ _ _ _ _).
  - discriminate.
  - cbn. lia.
  - cbn. lia.
  - rewrite strike_board_dist. lra.
  - rewrite strike_board_dist.
    cbn [strike_board getBall lumies playerBall nth striker lumieAt r].
    lra.
  - cbn [strike_board getBall lumies playerBall nth striker lumieAt mass].
    lra.
  - cbn [strike_board getBall lumies playerBall nth striker lumieAt mass].
    lra.
Defined.

(** C7, witness: the hypotheses of [onHitLumie_converts] hold on a sample state. *)
Lemma onHitLumie_converts_witness :
  let g' := stateAfter (onHitLumie 4) late_host last_blue_board in
  color (getBall g' 4) = green /\
  lockedUntil (getBall g' 4) = 9000%Z /\
  turnChanges g' = [mkChange 4 blue green].
Proof.
  cbv zeta.
  destruct (onHitLumie_converts late_host last_blue_board 4)
    as (_ & _ & Hb & Hlock & Hlog).
  - vm_compute. discriminate.
  - pose proof (Hb eq_refl) as Hc. rewrite Hc in Hlog.
    split; [exact Hc |]. split; [exact Hlock | exact Hlog].
Defined.

(** C9, witness: the hypotheses of [onHitLumie_locked] hold on a sample state. *)
Lemma onHitLumie_locked_witness :
  let h1 := hostAfter (onHitLumie 4) late_host last_blue_board in
  let g1 := stateAfter (onHitLumie 4) late_host last_blue_board in
  let g2 := stateAfter (onHitLumie 4) h1 g1 in
  (clock h1 (nclock h1) < lockedUntil (getBall g1 4))%Z /\
  color (getBall g2 4) = color (getBall g1 4) /\
  lockedUntil (getBall g2 4) = lockedUntil (getBall g1 4) /\
  turnChanges g2 = turnChanges g1.
Proof.
  cbv zeta.
  assert (Hl : (clock (hostAfter (onHitLumie 4) late_host last_blue_board)
                  (nclock (hostAfter (onHitLumie 4) late_host
                             last_blue_board))
                < lockedUntil
                    (getBall (stateAfter (onHitLumie 4) late_host
                                last_blue_board) 4))%Z)
    by (vm_compute; reflexivity).
  split; [exact Hl |].
  destruct (onHitLumie_locked _ _ 4 Hl) as (Hc & Hk & Hg & _).
  split; [exact Hc |]. split; [exact Hk | exact Hg].
Defined.

(** C6, witness: the hypotheses of [endTurn_replay_rule] hold on a sample state. *)
Lemma endTurn_replay_rule_witness :
  currentPlayer (stateAfter endTurn late_host replay_board) = 2%nat /\
  currentPlayer (stateAfter endTurn late_host last_blue_board) = 2%nat.
Proof.
  split.
  - destruct (endTurn_replay_rule late_host replay_board) as [_ Hr].
    destruct (Hr green) as [Hiff _]; [vm_compute; reflexivity |].
    apply Hiff. vm_compute. split; [lia | reflexivity].
  - destruct (endTurn_replay_rule late_host last_blue_board) as [_ Hr].
    destruct (Hr blue) as [_ Hsw]; [vm_compute; reflexivity |].
    apply Hsw. vm_compute. intros [Hlt _]. lia.
Defined.

(** C8, witness: the hypotheses of [first_blood_is_permanent] hold on a sample state. *)
Lemma first_blood_is_permanent_witness :
  let g := snd (Game_new 800 600 late_host) in
  let g' := stateAfter (onHitLumie 0) late_host g in
  playerColors g' !! 1%nat = Some (Some blue) /\
  playerColors g' !! 2%nat = Some (Some green) /\
  (forall l, playerColors (stateAfter (run l) late_host g') =
             playerColors g').
Proof.
  cbv zeta.
  destruct (first_blood_is_permanent (T := R)) as (P1 & _ & P3 & P4).
  destruct (P1 800 600 late_host) as [Hn Hu].
  destruct (P3 late_host (snd (Game_new 800 600 late_host)) 0%nat Hn Hu)
    as (_ & H1 & H2 & Hu').
  - vm_compute. lia.
  - vm_compute. discriminate.
  - assert (Hc : color (getBall (stateAfter (onHitLumie 0) late_host
                           (snd (Game_new 800 600 late_host))) 0) = blue).
    { destruct (onHitLumie_unlocked late_host
                  (snd (Game_new 800 600 late_host)) 0) as (Hc & _).
      - vm_compute. discriminate.
      - rewrite Hc.
        change (color (getBall (snd (Game_new 800 600 late_host)) 0))
          with red.
        cbn [converted nlt Num_R late_host rand nrand].
        rewrite dec_5_1, Rltb_false by lra. reflexivity. }
    rewrite Hc in H1, H2.
    split; [exact H1 |]. split; [exact H2 |].
    intros l. apply (proj1 (P4 late_host _ Hu') l).
Defined.

End Witnesses.

Section FieldFrames.
Context {T : Type} `{Num T} `{Trig T}.

Implicit Types (g : Game T) (h : Host T) (b : Ball T) (i j k m : nat).

Lemma shapeOf_collisionFree : collisionFree (fun b : Ball T => shapeOf b).
Proof. repeat split. Qed.

Lemma resolveCollision_field {X} (F : Ball T -> X) :
  collisionFree F ->
  forall i j h g m,
    F (getBall (stateAfter (resolveCollision i j) h g) m) = F (getBall g m).
Proof.
  intros (Fx & Fy & Fvx & Fvy & Fav & Fc & Fl) i j h g.
  enough (Hp : preserves
                 (fun g' => forall m, F (getBall g' m) = F (getBall g m))
                 (resolveCollision i j))
    by (apply Hp; reflexivity).
  unfold resolveCollision.
  repeat first
    [ lazymatch goal with
      | |- preserves _ (onHitLumie _) =>
          let Hg := fresh "Hg" in
          intros ? ? Hg ?;
          rewrite (onHitLumie_field F) by assumption; apply Hg
      | |- preserves _ (onBall _ (modify _)) =>
          let Hg := fresh "Hg" in
          apply preserves_onBall; intros ? ? Hg ?;
          unfold stateAfter, modify; cbn [snd];
          rewrite (getBall_setBall_field F)
            by (rewrite ?Fx, ?Fy, ?Fvx, ?Fvy, ?Fav; reflexivity);
          apply Hg
      end
    | preserves_step ].
Qed.

End FieldFrames.

Section VectorsExact.
Local Open Scope R_scope.

Implicit Types (v u w : Point R).

Lemma Reqb_true a b : a = b -> Reqb a b = true.
Proof.
  intros. unfold Reqb. destruct (Req_dec_T a b); [reflexivity | contradiction].
Qed.

Lemma Reqb_false a b : a <> b -> Reqb a b = false.
Proof.
  intros. unfold Reqb. destruct (Req_dec_T a b); [contradiction | reflexivity].
Qed.

Lemma Rhypot_eq_0 a b : Rhypot a b = 0 -> a = 0 /\ b = 0.
Proof.
  intros Hz. pose proof (Rhypot_sqr a b) as Hs. rewrite Hz in Hs.
  split; nra.
Qed.

Lemma Rhypot_sym a b : Rhypot (- a) (- b) = Rhypot a b.
Proof.
  apply Rhypot_unique; [apply Rhypot_nonneg |].
  rewrite Rhypot_sqr. ring.
Qed.

(** X1: [Vec2.norm] returns the zero vector for the zero vector (no division
    takes place) and a vector of length one for every other. *)
Theorem Vec2_norm_unit v :
  (Vec2.len v = 0 -> Vec2.norm v = mkPoint 0 0) /\
  (Vec2.len v <> 0 ->
     Vec2.len (Vec2.norm v) = 1 /\
     Vec2.mul (Vec2.norm v) (Vec2.len v) = v).
Proof.
  unfold Vec2.len, Vec2.norm, Vec2.mul. cbn [nhypot neq nofZ ndiv nmul Num_R].
  split; intros Hl.
  - rewrite Reqb_true by exact Hl. reflexivity.
  - rewrite Reqb_false by exact Hl. cbn [px py].
    pose proof (Rhypot_nonneg (px v) (py v)) as Hp.
    split.
    + unfold Rdiv. rewrite Rhypot_scale.
      * field. exact Hl.
      * apply Rlt_le, Rinv_0_lt_compat. lra.
    + destruct v as [a b]. cbn [px py] in *. f_equal; field; exact Hl.
Qed.

(** X1, witness: the hypotheses of [Vec2_norm_unit] hold on a sample state. *)
Lemma Vec2_norm_unit_witness :
  Vec2.len (Vec2.norm (mkPoint 3 4)) = 1 /\
  Vec2.mul (Vec2.norm (mkPoint 3 4)) (Vec2.len (mkPoint 3 4)) = mkPoint 3 4.
Proof.
  apply (proj2 (Vec2_norm_unit (mkPoint 3 4))).
  unfold Vec2.len. cbn [px py nhypot Num_R].
  rewrite (Rhypot_unique 3 4 5) by lra. lra.
Defined.

(** X2: [Vec2.dist] is a metric. *)
Theorem Vec2_dist_metric u v w :
  0 <= Vec2.dist u v /\
  Vec2.dist u v = Vec2.dist v u /\
  (Vec2.dist u v = 0 <-> u = v) /\
  Vec2.dist u w <= Vec2.dist u v + Vec2.dist v w /\
  Vec2.dist u v = Vec2.len (Vec2.sub u v).
Proof.
  unfold Vec2.dist, Vec2.len, Vec2.sub. cbn [nhypot nsub Num_R px py].
  split; [apply Rhypot_nonneg |].
  split.
  { rewrite <- (Rhypot_sym (px v - px u)). f_equal; ring. }
  split.
  { split.
    - intros Hz. apply Rhypot_eq_0 in Hz. destruct Hz as [Hx Hy].
      destruct u as [a b], v as [c d]. cbn [px py] in *. f_equal; lra.
    - intros ->. replace (px v - px v) with 0 by ring.
      replace (py v - py v) with 0 by ring. apply Rhypot_0. }
  split; [| reflexivity].
  replace (px u - px w) with ((px u - px v) + (px v - px w)) by ring.
  replace (py u - py w) with ((py u - py v) + (py v - py w)) by ring.
  apply Rhypot_triangle.
Qed.

End VectorsExact.

Section ShootExact.
Local Open Scope R_scope.

Implicit Types (g : Game R) (h : Host R) (b : Ball R) (p ds dc : Point R).

Lemma dragScale_R : @CONFIG.dragScale R _ = 15 / 100.
Proof. reflexivity. Qed.

Lemma maxPower_R : @CONFIG.maxPower R _ = 25.
Proof. reflexivity. Qed.

Ltac run_shoot :=
  unfold shoot, bind, modify, get, when, ret, Date_now; record_simpl.

(** X3: A release after a drag of less than five pixels fires nothing: the
    handler only forgets the drag. *)
Theorem short_drag_is_ignored h g ds dc :
  dragStart g = Some ds -> dragCurrent g = Some dc ->
  Vec2.dist dc ds < 5 ->
  shoot h g = (tt, h, g) /\
  on_end h g = (tt, h, set_drag None None g).
Proof.
  intros Hs Hc Hd.
  assert (E : shoot h g = (tt, h, g)).
  { run_shoot. rewrite Hs, Hc.
    unfold Vec2.len, Vec2.sub. cbn [px py nlt nofZ nhypot nsub Num_R].
    unfold Vec2.dist in Hd. cbn [nhypot nsub Num_R] in Hd.
    rewrite (Rltb_true _ _ Hd). reflexivity. }
  split; [exact E |].
  unfold on_end. rewrite bind_get_run, Hs.
  unfold bind at 1. rewrite E. reflexivity.
Qed.

(** X3, witness: the hypotheses of [short_drag_is_ignored] hold on a sample state. *)
Lemma short_drag_is_ignored_witness :
  shoot late_host tap_board = (tt, late_host, tap_board) /\
  on_end late_host tap_board = (tt, late_host, set_drag None None tap_board).
Proof.
  apply (short_drag_is_ignored late_host tap_board
           (mkPoint 400 500) (mkPoint 400 498)); try reflexivity.
  unfold Vec2.dist. cbn [px py nhypot nsub Num_R].
  rewrite (Rhypot_unique _ _ 2) by lra. lra.
Defined.

Lemma launchPower_bounds len : 5 <= len -> 3 / 4 <= launchPower len <= 25.
Proof.
  intros Hl. unfold launchPower. split.
  - apply Rmin_glb; lra.
  - apply Rmin_r.
Qed.

(** X4: A release after a drag of five pixels or more launches the player's
    ball along the drag with speed [min(len * 0.15, 25)], which lies
    between 0.75 and 25; the roll starts with an empty change log at the
    time then read, and no target keeps a lock that expired before the
    second time read. *)
Theorem shoot_launches h g ds dc :
  dragStart g = Some ds -> dragCurrent g = Some dc ->
  5 <= Vec2.dist dc ds ->
  let len := Vec2.dist dc ds in
  let g' := stateAfter shoot h g in
  speed (playerBall g') = launchPower len /\
  3 / 4 <= speed (playerBall g') <= 25 /\
  vx (playerBall g') * len = (px dc - px ds) * launchPower len /\
  vy (playerBall g') * len = (py dc - py ds) * launchPower len /\
  angularVelocity (playerBall g') = launchPower len / 10 /\
  turnState g' = rolling /\
  turnChanges g' = [] /\
  turnStartTime g' = Some (clock h (nclock h)) /\
  Forall (fun l => lockedUntil l = 0%Z \/
                   (clock h (S (nclock h)) <= lockedUntil l)%Z)
         (lumies g').
Proof.
  intros Hs Hc Hd len g'. subst g'.
  unfold stateAfter. run_shoot. rewrite Hs, Hc.
  unfold Vec2.len, Vec2.sub, Vec2.norm.
  cbn [px py nlt neq nofZ nhypot nsub nmul ndiv nmin Num_R].
  unfold Vec2.dist in len, Hd. cbn [nhypot nsub Num_R] in len, Hd.
  rewrite (Rltb_false _ _ Hd).
  rewrite Reqb_false by lra.
  fold len. fold len in Hd.
  cbn [px py]. record_simpl.
  rewrite dragScale_R, maxPower_R, dec_1_1. fold (launchPower len).
  pose proof (launchPower_bounds len Hd) as Hb.
  assert (Hsp : speed (set_angularVelocity (launchPower len * (1 / 10))
                  (set_vy ((py dc - py ds) / len * launchPower len)
                     (set_vx ((px dc - px ds) / len * launchPower len)
                        (playerBall g)))) = launchPower len).
  { unfold speed. cbn [vx vy set_vx set_vy set_angularVelocity].
    rewrite Rhypot_scale by lra.
    replace (Rhypot ((px dc - px ds) / len) ((py dc - py ds) / len))
      with 1; [ring |].
    symmetry. unfold Rdiv. rewrite Rhypot_scale.
    - fold len. field. lra.
    - apply Rlt_le, Rinv_0_lt_compat. lra. }
  split; [exact Hsp |].
  split; [rewrite Hsp; exact Hb |].
  cbn [vx vy angularVelocity set_vx set_vy set_angularVelocity].
  split; [field; lra |].
  split; [field; lra |].
  split; [field |].
  split; [reflexivity |].
  split; [reflexivity |].
  split; [reflexivity |].
  apply Stdlib.Lists.List.Forall_forall. intros l Hin. apply in_map_iff in Hin.
  destruct Hin as (l0 & <- & _).
  destruct (Z.ltb_spec (lockedUntil l0) (clock h (S (nclock h))));
    [left; reflexivity | right; assumption].
Qed.

(** X4, witness: the hypotheses of [shoot_launches] hold on a sample state. *)
Lemma shoot_launches_witness :
  speed (playerBall (stateAfter shoot late_host pull_board)) = 25 /\
  turnState (stateAfter shoot late_host pull_board) = rolling.
Proof.
  assert (Hd : Vec2.dist (mkPoint 400 200) (mkPoint 400 500) = 300).
  { unfold Vec2.dist. cbn [px py nhypot nsub Num_R].
    apply Rhypot_unique; lra. }
  destruct (shoot_launches late_host pull_board
              (mkPoint 400 500) (mkPoint 400 200) eq_refl eq_refl)
    as (Hsp & _ & _ & _ & _ & Hst & _).
  - rewrite Hd. lra.
  - split; [| exact Hst]. rewrite Hsp, Hd. unfold launchPower.
    apply Rmin_right. lra.
Defined.

End ShootExact.

Section PhysicsExact.
Local Open Scope R_scope.

Implicit Types (g : Game R) (h : Host R) (b : Ball R) (i j k m : nat).

Ltac ball_cbn :=
  cbn beta iota zeta delta
    [fst snd andb orb x y r color vx vy mass angle angularVelocity
     heavyPhase isLumie lockedUntil lastHit set_x set_y set_vx set_vy
     set_angle set_angularVelocity nadd nsub nmul ndiv nneg nabs nlt nofZ
     nhypot Num_R rand nrand clock nclock dom].

(** X5: [update] on a ball with no velocity and no spin changes nothing and
    draws no random number. *)
Theorem update_at_rest h b :
  vx b = 0 -> vy b = 0 -> angularVelocity b = 0 ->
  update h b = (tt, h, b).
Proof.
  intros Vx Vy Av. destruct b as [bx by_ br bc bvx bvy bm ba bav bh bl bk bt].
  cbn [vx vy angularVelocity] in Vx, Vy, Av. subst bvx bvy bav.
  unfold update, bind, modify, get, when, ret, Math_random. ball_cbn.
  replace (0 * CONFIG.friction) with 0 by ring.
  replace (0 * CONFIG.angularFriction) with 0 by ring.
  rewrite Rhypot_0.
  rewrite (Rltb_false (dec 1 1) 0) by (rewrite dec_1_1; lra).
  rewrite (Rltb_true 0 CONFIG.stopThreshold) by (rewrite stopThreshold_R; lra).
  rewrite andb_false_r. ball_cbn.
  rewrite !Rplus_0_r. reflexivity.
Qed.

(** X5, witness: the hypotheses of [update_at_rest] hold on a sample state. *)
Lemma update_at_rest_witness :
  update late_host resting_ball = (tt, late_host, resting_ball).
Proof.
  apply (update_at_rest late_host resting_ball); reflexivity.
Defined.

(** X7: Two bodies that do not overlap are left alone: no field changes and
    no random number is drawn. *)
Theorem resolveCollision_apart_noop h g i j :
  r (getBall g i) + r (getBall g j) <=
    centerDist (getBall g i) (getBall g j) ->
  resolveCollision i j h g = (tt, h, g).
Proof.
  intros Hd. unfold resolveCollision. rewrite bind_get_run. cbv zeta.
  unfold centerDist in Hd. cbn [nadd nsub nlt nhypot Num_R].
  rewrite (Rltb_false _ _ Hd). reflexivity.
Qed.

(** X7, witness: the hypotheses of [resolveCollision_apart_noop] hold on a sample state. *)
Lemma resolveCollision_apart_noop_witness :
  resolveCollision 2 3 late_host crowded_board =
  (tt, late_host, crowded_board).
Proof.
  apply (resolveCollision_apart_noop late_host crowded_board 2 3).
  unfold centerDist.
  cbn [crowded_board getBall lumies nth lumieAt x y r].
  rewrite (Rhypot_unique _ _ 70) by lra. lra.
Defined.

Lemma velocity_split b1 b2 b :
  0 < centerDist b1 b2 ->
  vx b * vx b + vy b * vy b =
  alongNormal b1 b2 b * alongNormal b1 b2 b +
  alongTangent b1 b2 b * alongTangent b1 b2 b.
Proof.
  intros Hpos. pose proof (normal_unit b1 b2 Hpos) as Hu.
  unfold alongNormal, alongTangent.
  set (nx := normalX b1 b2) in *. set (ny := normalY b1 b2) in *.
  clearbody nx ny. nra.
Qed.

(** The normal components after a collision, as the code computes them. *)
Lemma resolveCollision_normals h g i j :
  i <> j -> (i <= length (lumies g))%nat -> (j <= length (lumies g))%nat ->
  let b1 := getBall g i in
  let b2 := getBall g j in
  0 < centerDist b1 b2 ->
  centerDist b1 b2 < r b1 + r b2 ->
  let g' := stateAfter (resolveCollision i j) h g in
  let m1 := mass b1 in
  let m2 := mass b2 in
  alongNormal b1 b2 (getBall g' i) =
    (alongNormal b1 b2 b1 * (m1 - m2) + 2 * m2 * alongNormal b1 b2 b2)
    / (m1 + m2) /\
  alongNormal b1 b2 (getBall g' j) =
    (alongNormal b1 b2 b2 * (m2 - m1) + 2 * m1 * alongNormal b1 b2 b1)
    / (m1 + m2) /\
  alongTangent b1 b2 (getBall g' i) = alongTangent b1 b2 b1 /\
  alongTangent b1 b2 (getBall g' j) = alongTangent b1 b2 b2 /\
  mass (getBall g' i) = m1 /\ mass (getBall g' j) = m2.
Proof.
  intros Hij Hi Hj. cbv zeta. intros Hpos Hov.
  destruct (resolveCollision_exact h g i j Hij Hi Hj Hov) as [K1 K2].
  apply kinematics_inv in K1. apply kinematics_inv in K2.
  destruct K1 as (_ & _ & V1 & W1). destruct K2 as (_ & _ & V2 & W2).
  pose proof (normal_unit _ _ Hpos) as Hu.
  assert (Hm : forall k, mass (getBall (stateAfter (resolveCollision i j) h g) k)
                         = mass (getBall g k)).
  { intros k. apply (resolveCollision_field mass). repeat split. }
  rewrite !Hm.
  set (b1 := getBall g i) in *. set (b2 := getBall g j) in *.
  set (g' := stateAfter (resolveCollision i j) h g) in *.
  change (alongNormal b1 b2 (getBall g' i))
    with (vx (getBall g' i) * normalX b1 b2 +
          vy (getBall g' i) * normalY b1 b2).
  change (alongNormal b1 b2 (getBall g' j))
    with (vx (getBall g' j) * normalX b1 b2 +
          vy (getBall g' j) * normalY b1 b2).
  change (alongTangent b1 b2 (getBall g' i))
    with (vx (getBall g' i) * - normalY b1 b2 +
          vy (getBall g' i) * normalX b1 b2).
  change (alongTangent b1 b2 (getBall g' j))
    with (vx (getBall g' j) * - normalY b1 b2 +
          vy (getBall g' j) * normalX b1 b2).
  rewrite V1, W1, V2, W2.
  set (n1 := alongNormal b1 b2 b1) in *.
  set (n2 := alongNormal b1 b2 b2) in *.
  set (t1 := alongTangent b1 b2 b1) in *.
  set (t2 := alongTangent b1 b2 b2) in *.
  set (nx := normalX b1 b2) in *. set (ny := normalY b1 b2) in *.
  set (v1n := (n1 * (mass b1 - mass b2) + 2 * mass b2 * n2)
              / (mass b1 + mass b2)).
  set (v2n := (n2 * (mass b2 - mass b1) + 2 * mass b1 * n1)
              / (mass b1 + mass b2)).
  clearbody n1 n2 t1 t2 nx ny v1n v2n.
  split; [transitivity ((nx * nx + ny * ny) * v1n);
          [ring | rewrite Hu; ring] |].
  split; [transitivity ((nx * nx + ny * ny) * v2n);
          [ring | rewrite Hu; ring] |].
  split; [transitivity ((nx * nx + ny * ny) * t1);
          [ring | rewrite Hu; ring] |].
  split; [transitivity ((nx * nx + ny * ny) * t2);
          [ring | rewrite Hu; ring] |].
  split; reflexivity.
Qed.

(** X8: Two bodies of equal mass exchange their velocity components along
    the contact normal. *)
Theorem equal_masses_swap h g i j :
  i <> j -> (i <= length (lumies g))%nat -> (j <= length (lumies g))%nat ->
  let b1 := getBall g i in
  let b2 := getBall g j in
  0 < centerDist b1 b2 ->
  centerDist b1 b2 < r b1 + r b2 ->
  0 < mass b1 -> mass b2 = mass b1 ->
  let g' := stateAfter (resolveCollision i j) h g in
  alongNormal b1 b2 (getBall g' i) = alongNormal b1 b2 b2 /\
  alongNormal b1 b2 (getBall g' j) = alongNormal b1 b2 b1.
Proof.
  intros Hij Hi Hj. cbv zeta. intros Hpos Hov Hm He.
  destruct (resolveCollision_normals h g i j Hij Hi Hj Hpos Hov)
    as (N1 & N2 & _).
  rewrite N1, N2, He. split; field; lra.
Qed.

Lemma pair_board_dist :
  centerDist (getBall pair_board 0) (getBall pair_board 1) = 30.
Proof.
  unfold centerDist.
  cbn [pair_board getBall lumies nth lumieAt x y].
  apply Rhypot_unique; [lra | ring].
Qed.

(** X8, witness: the hypotheses of [equal_masses_swap] hold on a sample state. *)
Lemma equal_masses_swap_witness :
  let b1 := getBall pair_board 0 in
  let b2 := getBall pair_board 1 in
  let g' := stateAfter (resolveCollision 0 1) late_host pair_board in
  alongNormal b1 b2 (getBall g' 0) = alongNormal b1 b2 b2 /\
  alongNormal b1 b2 (getBall g' 1) = alongNormal b1 b2 b1.
Proof.
  refine (equal_masses_swap late_host pair_board 0 1 _ _ _ _ _ _ _).
  - discriminate.
  - cbn. lia.
  - cbn. lia.
  - rewrite pair_board_dist. lra.
  - rewrite pair_board_dist.
    cbn [pair_board getBall lumies nth lumieAt r]. lra.
  - cbn [pair_board getBall lumies nth lumieAt mass]. lra.
  - reflexivity.
Defined.

(** X9: A collision is elastic: it keeps the sum of the kinetic energies of
    the two bodies and reverses their relative velocity along the
    normal. *)
Theorem collision_conserves_energy h g i j :
  i <> j -> (i <= length (lumies g))%nat -> (j <= length (lumies g))%nat ->
  let b1 := getBall g i in
  let b2 := getBall g j in
  0 < centerDist b1 b2 ->
  centerDist b1 b2 < r b1 + r b2 ->
  0 < mass b1 -> 0 < mass b2 ->
  let g' := stateAfter (resolveCollision i j) h g in
  energy (getBall g' i) + energy (getBall g' j) = energy b1 + energy b2 /\
  alongNormal b1 b2 (getBall g' i) - alongNormal b1 b2 (getBall g' j) =
    - (alongNormal b1 b2 b1 - alongNormal b1 b2 b2).
Proof.
  intros Hij Hi Hj. cbv zeta. intros Hpos Hov Hm1 Hm2.
  destruct (resolveCollision_normals h g i j Hij Hi Hj Hpos Hov)
    as (N1 & N2 & T1 & T2 & M1 & M2).
  unfold energy. rewrite M1, M2.
  rewrite (velocity_split (getBall g i) (getBall g j)
             (getBall (stateAfter (resolveCollision i j) h g) i) Hpos).
  rewrite (velocity_split (getBall g i) (getBall g j)
             (getBall (stateAfter (resolveCollision i j) h g) j) Hpos).
  rewrite (velocity_split (getBall g i) (getBall g j) (getBall g i) Hpos).
  rewrite (velocity_split (getBall g i) (getBall g j) (getBall g j) Hpos).
  rewrite N1, N2, T1, T2.
  set (n1 := alongNormal (getBall g i) (getBall g j) (getBall g i)).
  set (n2 := alongNormal (getBall g i) (getBall g j) (getBall g j)).
  set (t1 := alongTangent (getBall g i) (getBall g j) (getBall g i)).
  set (t2 := alongTangent (getBall g i) (getBall g j) (getBall g j)).
  set (m1 := mass (getBall g i)) in *. set (m2 := mass (getBall g j)) in *.
  clearbody n1 n2 t1 t2 m1 m2.
  split; field; lra.
Qed.

(** X9, witness: the hypotheses of [collision_conserves_energy] hold on a sample state. *)
Lemma collision_conserves_energy_witness :
  let b1 := getBall strike_board 1 in
  let b2 := getBall strike_board 0 in
  let g' := stateAfter (resolveCollision 1 0) late_host strike_board in
  energy (getBall g' 1) + energy (getBall g' 0) = energy b1 + energy b2 /\
  alongNormal b1 b2 (getBall g' 1) - alongNormal b1 b2 (getBall g' 0) =
    - (alongNormal b1 b2 b1 - alongNormal b1 b2 b2).
Proof.
  refine (collision_conserves_energy late_host strike_board 1 0
            _ _ _ _ _ _ _).
  - discriminate.
  - cbn. lia.
  - cbn. lia.
  - rewrite strike_board_dist. lra.
  - rewrite strike_board_dist.
    cbn [strike_board getBall lumies playerBall nth striker lumieAt r].
    lra.
  - cbn [strike_board getBall lumies playerBall nth striker lumieAt mass].
    lra.
  - cbn [strike_board getBall lumies playerBall nth striker lumieAt mass].
    lra.
Defined.

End PhysicsExact.

Section Control.
Context {T : Type} `{Num T} `{Trig T}.

Implicit Types (g : Game T) (h : Host T) (b : Ball T) (i j k m : nat).

Lemma controlOf_setBall k b g : controlOf (setBall k b g) = controlOf g.
Proof. unfold controlOf. autorewrite with store. reflexivity. Qed.

Lemma onHitLumie_control k h g :
  controlOf (stateAfter (onHitLumie k) h g) = controlOf g.
Proof.
  unfold stateAfter, onHitLumie, bind, get, Date_now. record_simpl.
  destruct (_ <? _)%Z; [reflexivity |].
  destruct (color (getBall g k));
    unfold updateScores, updateBadge, onBall, bind, modify, get,
      when, ret, Math_random, Date_now, emit; record_simpl;
    repeat match goal with
           | |- context [if ?c then _ else _] =>
               destruct c eqn:?; record_simpl
           end;
    unfold controlOf; record_simpl; autorewrite with store;
    record_simpl; autorewrite with store; reflexivity.
Qed.

Lemma resolveCollision_control i j h g :
  controlOf (stateAfter (resolveCollision i j) h g) = controlOf g.
Proof.
  enough (Hp : preserves (fun g' => controlOf g' = controlOf g)
                 (resolveCollision i j))
    by (apply Hp; reflexivity).
  unfold resolveCollision.
  repeat first
    [ lazymatch goal with
      | |- preserves _ (onHitLumie _) =>
          let Hg := fresh "Hg" in
          intros ? ? Hg; rewrite onHitLumie_control; exact Hg
      | |- preserves _ (onBall _ _) =>
          let Hg := fresh "Hg" in
          apply preserves_onBall; intros ? ? Hg;
          rewrite controlOf_setBall; exact Hg
      end
    | preserves_step ].
Qed.

Lemma otherPlayer_valid p : otherPlayer p = 1%nat \/ otherPlayer p = 2%nat.
Proof. unfold otherPlayer. destruct (p =? 1)%nat; auto. Qed.

End Control.

Section Writes.
Context {T : Type} `{Num T} `{Trig T}.

Implicit Types (g : Game T) (h : Host T) (b : Ball T) (i j k m : nat).

Lemma resetPlayerBall_run h g :
  exists h' b, freshBall b /\
    x b = (width g / nofZ 2)%js /\
    y b = (if (currentPlayer g =? 1)%nat
           then (height g - nofZ 100)%js else nofZ 100) /\
    resetPlayerBall h g = (tt, h', set_playerBall b g).
Proof.
  unfold resetPlayerBall, Ball_new, bind, get, modify, ret, Math_random.
  record_simpl. eexists _, _. split; [| split; [| split]];
    [| | | reflexivity]; repeat split.
Qed.

End Writes.

Section RollPrinciple.
Context {T : Type} `{Num T} `{Trig T}.

Variable I : Game T -> Prop.

Hypothesis HI : stableInRoll I.

Implicit Types (g : Game T) (h : Host T) (b : Ball T) (i j k m : nat).

Ltac roll_leaf :=
  lazymatch goal with
  | |- preserves _ (onHitLumie _) => apply (onHit I HI)
  | |- preserves _ (onBall _ (modify _)) =>
      let Hg := fresh "Hg" in
      apply preserves_onBall; intros ? ? Hg;
      apply (onBallWrite I HI); [| exact Hg];
      unfold stateAfter, modify; cbn [snd]; repeat split
  | |- preserves _ (modify (set_turnState _)) =>
      apply preserves_modify; intros ? ?; apply (onTurnState I HI); assumption
  | |- preserves _ (modify (fun g => set_currentPlayer _ g)) =>
      apply preserves_modify; intros ? ?; apply (onSwitch I HI); assumption
  end.

Lemma resolveCollision_stable i j : preserves I (resolveCollision i j).
Proof.
  unfold resolveCollision. repeat first [roll_leaf | preserves_step].
Qed.

Lemma resetPlayerBall_stable : preserves I resetPlayerBall.
Proof.
  intros h g Hg. destruct (resetPlayerBall_run h g) as (h' & b & Hb & _ & _ & E).
  unfold stateAfter. rewrite E. apply (onFreshBall I HI); assumption.
Qed.

Lemma endTurn_stable : preserves I endTurn.
Proof.
  unfold endTurn, updateBadge.
  repeat first
    [ lazymatch goal with
      | |- preserves _ resetPlayerBall => apply resetPlayerBall_stable
      end
    | roll_leaf | preserves_step ].
Qed.

Lemma updatePhysics_stable : preserves I updatePhysics.
Proof.
  unfold updatePhysics.
  repeat first
    [ lazymatch goal with
      | |- preserves _ (resolveCollision _ _) =>
          apply resolveCollision_stable
      | |- preserves _ endTurn => apply endTurn_stable
      | |- preserves _ (onBall _ (updatePhysics_each _ _ _ _)) =>
          let Hg := fresh "Hg" in
          apply preserves_onBall; intros ? ? Hg;
          apply (onBallWrite I HI); [| exact Hg];
          apply updatePhysics_each_sameBody
      end
    | preserves_step ].
Qed.

Lemma loop_stable : preserves I loop.
Proof.
  unfold loop.
  repeat first
    [ lazymatch goal with
      | |- preserves _ updatePhysics => apply updatePhysics_stable
      end
    | preserves_step ].
Qed.

End RollPrinciple.

Section Principle.
Context {T : Type} `{Num T} `{Trig T}.

Variable I : Game T -> Prop.

Hypothesis HI : stableUnderWrites I.

Implicit Types (g : Game T) (h : Host T) (b : Ball T) (i j k m : nat).

Ltac write_leaf :=
  lazymatch goal with
  | |- preserves _ (modify (set_turnChanges _)) =>
      apply preserves_modify; intros ? ?; apply (onLog I HI); assumption
  | |- preserves _ (modify (set_turnStartTime _)) =>
      apply preserves_modify; intros ? ?; apply (onStartTime I HI); assumption
  | |- preserves _ (modify (set_drag _ _)) =>
      apply preserves_modify; intros ? ?; apply (onDrag I HI); assumption
  | |- preserves _ (modify (set_size _ _)) =>
      apply preserves_modify; intros ? ?; apply (onSize I HI); assumption
  | |- preserves _ (modify (set_turnState _)) =>
      apply preserves_modify; intros ? ?;
      apply (onTurnState I (inRoll I HI)); assumption
  end.

Lemma shoot_stable : preserves I shoot.
Proof.
  unfold shoot. apply preserves_bind_get. intros g0 _.
  destruct (dragCurrent g0), (dragStart g0);
    repeat first
      [ lazymatch goal with
        | |- preserves _ (modify (fun g => set_playerBall _ g)) =>
            apply preserves_modify; intros ? ?;
            match goal with
            | |- I (set_playerBall (?f0 ?v (playerBall ?g1)) ?g1) =>
                apply (onLaunch I HI (f0 v) g1);
                [intros ?; repeat split | assumption]
            end
        | |- preserves _ (modify (fun g => set_lumies _ g)) =>
            apply preserves_modify; intros ? ?;
            apply (onUnlock I HI); assumption
        end
      | write_leaf | preserves_step ].
Qed.

Lemma handle_stable (i : Input) : preserves I (handle i).
Proof.
  destruct i; cbn [handle]; unfold on_start, on_move, on_end, resize.
  - repeat first [write_leaf | preserves_step].
  - apply preserves_bind_get. intros g0 _. destruct (dragStart g0);
      repeat first [write_leaf | preserves_step].
  - apply preserves_bind_get. intros g0 _. destruct (dragStart g0);
      repeat first
        [ lazymatch goal with
          | |- preserves _ shoot => apply shoot_stable
          end
        | write_leaf | preserves_step ].
  - apply loop_stable. exact (inRoll I HI).
  - repeat first [write_leaf | preserves_step].
Qed.

Lemma run_stable (l : list Input) : preserves I (run l).
Proof.
  unfold run. apply preserves_forEach. intros i _. apply handle_stable.
Qed.

End Principle.

Section Instances.
Context {T : Type} `{Num T} `{Trig T}.

Implicit Types (g : Game T) (h : Host T) (b : Ball T) (i j k m : nat).

Lemma validPlayer_stable : stableUnderWrites validPlayer.
Proof.
  split; [split | ..]; unfold validPlayer; intros; try assumption.
  - rewrite setBall_currentPlayer. assumption.
  - intros h g Hg.
    pose proof (onHitLumie_control k h g) as Hc. unfold controlOf in Hc.
    injection Hc as _ _ Hp _ _ _ _. rewrite Hp. exact Hg.
  - cbn [currentPlayer set_currentPlayer]. apply otherPlayer_valid.
Qed.

Lemma shapes_setBall k b' g :
  sameBody (getBall g k) b' ->
  map shapeOf (lumies (setBall k b' g)) = map shapeOf (lumies g).
Proof.
  intros (_ & Hr & Hm & Hl & _).
  apply (nth_ext _ _ (shapeOf (playerBall (setBall k b' g)))
           (shapeOf (playerBall g))).
  - rewrite !length_map. apply setBall_length.
  - intros n Hn. rewrite length_map in Hn.
    rewrite !map_nth.
    change (shapeOf (getBall (setBall k b' g) n) = shapeOf (getBall g n)).
    apply getBall_setBall_field. unfold shapeOf. rewrite Hr, Hm, Hl.
    reflexivity.
Qed.

Lemma targetShapes_stable L : stableUnderWrites (targetShapes L).
Proof.
  split; [split | ..]; unfold targetShapes; intros; try assumption.
  - rewrite shapes_setBall; assumption.
  - intros h g Hg. rewrite <- Hg.
    apply (nth_ext _ _
             (shapeOf (playerBall (stateAfter (onHitLumie k) h g)))
             (shapeOf (playerBall g))).
    + rewrite !length_map. apply (onHitLumie_keeps_count _ k h g eq_refl).
    + intros n Hn. rewrite !map_nth.
      change (shapeOf (getBall (stateAfter (onHitLumie k) h g) n) =
              shapeOf (getBall g n)).
      apply onHitLumie_field; reflexivity.
  - cbn [lumies set_lumies]. rewrite map_map.
    rewrite <- H1. apply map_ext. intros b. unfold unlockExpired.
    destruct (_ <? _)%Z; reflexivity.
Qed.

Lemma isGold_spec b : isGold b = true <-> color b = gold.
Proof. unfold isGold. apply bool_decide_eq_true. Qed.

Lemma onHitLumie_isGold k h g m :
  isGold (getBall (stateAfter (onHitLumie k) h g) m) = isGold (getBall g m).
Proof.
  unfold stateAfter, onHitLumie, bind, get, Date_now. record_simpl.
  destruct (_ <? _)%Z; [reflexivity |].
  destruct (color (getBall g k)) eqn:Hcol;
    unfold updateScores, updateBadge, onBall, bind, modify, get,
      when, ret, Math_random, Date_now, emit; record_simpl;
    repeat match goal with
           | |- context [if ?c then _ else _] =>
               destruct c eqn:?; record_simpl
           end;
    repeat first
      [ rewrite getBall_set_turnChanges
      | rewrite getBall_set_playerColors
      | rewrite (getBall_setBall_field isGold)
          by (autorewrite with store; unfold isGold;
              cbn [color set_color set_lockedUntil];
              rewrite ?Hcol; reflexivity) ];
    reflexivity.
Qed.

Lemma goldIsPlayer_alt g :
  goldIsPlayer g <->
  forall m, isGold (getBall g m) = (length (lumies g) <=? m)%nat.
Proof.
  unfold goldIsPlayer. split; intros Hg m; specialize (Hg m).
  - destruct (Nat.leb_spec (length (lumies g)) m) as [Hle | Hlt].
    + apply isGold_spec, Hg, Hle.
    + destruct (isGold (getBall g m)) eqn:E; [| reflexivity].
      apply isGold_spec, Hg in E. lia.
  - rewrite <- isGold_spec, Hg. apply Nat.leb_le.
Qed.

Lemma getBall_set_playerBall b g m :
  getBall (set_playerBall b g) m =
  if (length (lumies g) <=? m)%nat then b else getBall g m.
Proof.
  unfold getBall. cbn [lumies playerBall set_playerBall].
  destruct (Nat.leb_spec (length (lumies g)) m) as [Hle | Hlt].
  - apply nth_overflow. exact Hle.
  - apply nth_indep. exact Hlt.
Qed.

Lemma getBall_unlocked now g m :
  isGold (getBall (set_lumies (map (unlockExpired now) (lumies g)) g) m) =
  isGold (getBall g m).
Proof.
  unfold getBall. cbn [lumies playerBall set_lumies].
  destruct (Nat.leb_spec (length (lumies g)) m) as [Hle | Hlt].
  - rewrite !nth_overflow; [reflexivity | exact Hle |].
    rewrite length_map. exact Hle.
  - rewrite (nth_indep _ _ (unlockExpired now (playerBall g)))
      by (rewrite length_map; exact Hlt).
    rewrite map_nth. unfold unlockExpired.
    destruct (_ <? _)%Z; reflexivity.
Qed.

Lemma goldIsPlayer_stable : stableUnderWrites goldIsPlayer.
Proof.
  split; [split | ..].
  - intros k b' g (Hc & _) Hg. apply goldIsPlayer_alt. intros m.
    rewrite setBall_length, (getBall_setBall_field isGold).
    + apply goldIsPlayer_alt. exact Hg.
    + unfold isGold. rewrite Hc. reflexivity.
  - intros k h g Hg. apply goldIsPlayer_alt. intros m.
    rewrite onHitLumie_isGold.
    rewrite (onHitLumie_keeps_count _ k h g eq_refl).
    apply goldIsPlayer_alt. exact Hg.
  - intros s g Hg. exact Hg.
  - intros g Hg. exact Hg.
  - intros b g (Hc & _) Hg. apply goldIsPlayer_alt. intros m.
    rewrite getBall_set_playerBall. cbn [lumies set_playerBall].
    destruct (Nat.leb_spec (length (lumies g)) m) as [Hle | Hlt].
    + apply isGold_spec. exact Hc.
    + destruct (isGold (getBall g m)) eqn:E; [| reflexivity].
      apply isGold_spec, Hg in E. lia.
  - intros f g Hf Hg. apply goldIsPlayer_alt. intros m.
    rewrite getBall_set_playerBall. cbn [lumies set_playerBall].
    destruct (Nat.leb_spec (length (lumies g)) m) as [Hle | Hlt].
    + apply isGold_spec. destruct (Hf (playerBall g)) as (-> & _).
      pose proof (proj2 (Hg (length (lumies g))) (Nat.le_refl _)) as Hp.
      unfold getBall in Hp. rewrite nth_overflow in Hp by lia. exact Hp.
    + destruct (isGold (getBall g m)) eqn:E; [| reflexivity].
      apply isGold_spec, Hg in E. lia.
  - intros l g Hg. exact Hg.
  - intros t g Hg. exact Hg.
  - intros s c g Hg. exact Hg.
  - intros w ht g Hg. exact Hg.
  - intros now g Hg. apply goldIsPlayer_alt. intros m.
    rewrite getBall_unlocked. cbn [lumies set_lumies].
    rewrite length_map. apply goldIsPlayer_alt. exact Hg.
Qed.

(** X10: The current player is always player 1 or player 2. *)
Theorem currentPlayer_is_1_or_2 :
  (forall (w ht : T) (h0 : Host T), validPlayer (snd (Game_new w ht h0))) /\
  (forall (l : list Input), preserves validPlayer (run l)) /\
  (forall i j, preserves validPlayer (resolveCollision i j)) /\
  preserves validPlayer endTurn.
Proof.
  split; [| split; [| split]].
  - intros w ht h0. left. vm_compute. reflexivity.
  - intros l. apply run_stable, validPlayer_stable.
  - intros i j. apply resolveCollision_stable, validPlayer_stable.
  - apply endTurn_stable, validPlayer_stable.
Qed.

(** X11: Whatever the inputs, the game keeps its five targets, each of radius
    and mass [lumieRadius]. *)
Theorem five_targets_forever (w ht : T) (h0 h : Host T) (l : list Input) :
  let g := stateAfter (run l) h (snd (Game_new w ht h0)) in
  length (lumies g) = 5%nat /\
  Forall (fun b => r b = CONFIG.lumieRadius /\
                   mass b = CONFIG.lumieRadius /\ isLumie b = true)
         (lumies g).
Proof.
  cbv zeta.
  pose proof (run_stable _
                (targetShapes_stable
                   (repeat (CONFIG.lumieRadius, CONFIG.lumieRadius, true) 5))
                l h (snd (Game_new w ht h0))) as Hs.
  unfold targetShapes in Hs.
  assert (Hinit : map shapeOf (lumies (snd (Game_new w ht h0))) =
               repeat (CONFIG.lumieRadius, CONFIG.lumieRadius, true) 5)
    by (vm_compute; reflexivity).
  specialize (Hs Hinit).
  set (g := stateAfter (run l) h (snd (Game_new w ht h0))) in *.
  clearbody g. split.
  - rewrite <- (length_map shapeOf), Hs. reflexivity.
  - apply Stdlib.Lists.List.Forall_forall. intros b Hb.
    apply (in_map shapeOf) in Hb. rewrite Hs in Hb.
    apply repeat_spec in Hb. unfold shapeOf in Hb.
    injection Hb as -> -> ->. auto.
Qed.

(** X12: Gold stays the color of the player's ball and of it alone: no target
    ever turns gold and the player's ball is never converted. *)
Theorem gold_is_the_players (w ht : T) (h0 h : Host T) (l : list Input) :
  let g := stateAfter (run l) h (snd (Game_new w ht h0)) in
  color (playerBall g) = gold /\
  Forall (fun b => color b = red \/ color b = green \/ color b = blue)
         (lumies g).
Proof.
  cbv zeta.
  assert (Hinit : goldIsPlayer (snd (Game_new w ht h0))).
  { apply goldIsPlayer_alt. intros m.
    do 6 (destruct m as [| m]; [vm_compute; reflexivity |]).
    vm_compute. reflexivity. }
  pose proof (run_stable _ goldIsPlayer_stable l h _ Hinit) as Hs.
  set (g := stateAfter (run l) h (snd (Game_new w ht h0))) in *.
  clearbody g. split.
  - pose proof (proj2 (Hs (length (lumies g))) (Nat.le_refl _)) as Hp.
    unfold getBall in Hp. rewrite nth_overflow in Hp by lia. exact Hp.
  - apply Stdlib.Lists.List.Forall_forall. intros b Hb.
    apply (In_nth _ _ (playerBall g)) in Hb.
    destruct Hb as (n & Hn & <-).
    fold (getBall g n).
    destruct (color (getBall g n)) eqn:E; auto.
    apply Hs in E. lia.
Qed.

End Instances.

Section Handlers.
Context {T : Type} `{Num T} `{Trig T}.

Implicit Types (g : Game T) (h : Host T) (b : Ball T) (i j k m : nat)
  (p : Point T).

Lemma dragStart_stableInRoll d :
  stableInRoll (fun g : Game T => dragStart g = d).
Proof.
  split; intros; try assumption.
  - rewrite setBall_dragStart. assumption.
  - intros h g Hg.
    pose proof (onHitLumie_control k h g) as Hc. unfold controlOf in Hc.
    injection Hc as _ _ _ _ Hd _ _. rewrite Hd. exact Hg.
Qed.

Lemma updatePhysics_turnState h g :
  turnState (stateAfter updatePhysics h g) = turnState g \/
  turnState (stateAfter updatePhysics h g) = aiming.
Proof.
  enough (Hp : preserves
                 (fun g' => turnState g' = turnState g \/
                            turnState g' = aiming) updatePhysics)
    by (apply Hp; left; reflexivity).
  unfold updatePhysics.
  repeat first
    [ lazymatch goal with
      | |- preserves _ (resolveCollision _ _) =>
          let Hg := fresh "Hg" in
          intros ? ? Hg;
          match goal with
          | |- context [stateAfter (resolveCollision ?i ?j) ?h0 ?g0] =>
              pose proof (resolveCollision_control i j h0 g0) as Hc;
              unfold controlOf in Hc;
              injection Hc as _ _ _ Hs _ _ _; rewrite Hs; exact Hg
          end
      | |- preserves _ endTurn =>
          intros ? ? _; right; apply endTurn_state
      | |- preserves _ (onBall _ _) =>
          let Hg := fresh "Hg" in
          apply preserves_onBall; intros ? ? Hg;
          rewrite setBall_turnState; exact Hg
      end
    | preserves_step ].
Qed.

Lemma shoot_cases h g :
  shoot h g = (tt, h, g) \/
  (turnState (stateAfter shoot h g) = rolling /\
   dragStart g <> None /\ dragCurrent g <> None).
Proof.
  unfold stateAfter, shoot, bind, get, modify, ret, Date_now. record_simpl.
  destruct (dragCurrent g), (dragStart g); auto.
  destruct (nlt _ _); [left; reflexivity | right].
  record_simpl. repeat split; discriminate.
Qed.

Lemma handle_betweenEvents (i : Input) :
  preserves betweenEvents (handle i).
Proof.
  intros h g [Hts Hd]. destruct i; cbn [handle].
  - unfold stateAfter, on_start, bind, get, when, modify, ret. record_simpl.
    destruct (bool_decide_reflect (turnState g = aiming)) as [Ha | Ha];
      cbn [negb]; [| split; assumption].
    destruct (_ || _); cbn [snd]; [| split; assumption].
    split; [exact Hts |]. right. split; [exact Ha | discriminate].
  - unfold stateAfter, on_move, bind, get, modify, ret. record_simpl.
    destruct (dragStart g) as [ds |] eqn:Eds; cbn [snd];
      [| split; [exact Hts | left; exact Eds]].
    destruct Hd as [Hd | [Ha _]]; [discriminate |].
    split; [exact Hts |]. right. split; [exact Ha | discriminate].
  - unfold stateAfter, on_end. rewrite bind_get_eq.
    destruct (dragStart g) as [ds |] eqn:Eds;
      [| split; [exact Hts | left; exact Eds]].
    rewrite bind_run. unfold modify. cbn [snd].
    split; [| left; reflexivity].
    cbn [turnState set_drag].
    destruct (shoot_cases h g) as [E | (E & _)].
    + unfold stateAfter. rewrite E. exact Hts.
    + rewrite E. discriminate.
  - unfold stateAfter, loop. rewrite bind_get_eq.
    destruct (bool_decide_reflect (turnState g = rolling)) as [Hr | Hr];
      [| split; [exact Hts | exact Hd]].
    cbn [when]. fold (stateAfter updatePhysics h g).
    assert (Hnone : dragStart g = None).
    { destruct Hd as [Hd | [Ha _]]; [exact Hd | congruence]. }
    split.
    + destruct (updatePhysics_turnState h g) as [-> | ->];
        [exact Hts | discriminate].
    + left. apply (updatePhysics_stable _ (dragStart_stableInRoll None)).
      exact Hnone.
  - split; [exact Hts | exact Hd].
Qed.


(** X14: During a roll the pointer does nothing: press, move and release
    leave the game and the host as they are. *)
Theorem pointer_ignored_while_rolling h g p :
  betweenEvents g -> turnState g = rolling ->
  on_start p h g = (tt, h, g) /\
  on_move p h g = (tt, h, g) /\
  on_end h g = (tt, h, g).
Proof.
  intros [_ Hd] Hr.
  assert (Hnone : dragStart g = None).
  { destruct Hd as [Hd | [Ha _]]; [exact Hd | congruence]. }
  unfold on_start, on_move, on_end. rewrite !bind_get_eq, Hnone, Hr.
  repeat split.
Qed.

(** While the player aims, an animation frame changes nothing. *)
Lemma frame_idle_while_aiming h g :
  turnState g <> rolling -> loop h g = (tt, h, g).
Proof.
  intros Hr. unfold loop. rewrite bind_get_eq.
  destruct (bool_decide_reflect (turnState g = rolling)); [contradiction |].
  reflexivity.
Qed.

End Handlers.

Section Scores.
Context {T : Type} `{Num T}.

Implicit Types (g : Game T) (h : Host T) (k : nat).

Lemma updateScores_dom h g :
  dom (hostAfter updateScores h g) = dom h ++ scoreEvents (lumies g).
Proof.
  unfold hostAfter, updateScores, scoreEvents, bind, get, when, emit, ret.
  record_simpl.
  destruct (_ =? 5)%nat; record_simpl;
    destruct (_ =? 5)%nat; record_simpl;
    rewrite <- ?app_assoc; reflexivity.
Qed.

Lemma scoreEvents_victory (l : list (Ball T)) c :
  In (Victory c) (scoreEvents l) ->
  (c = green \/ c = blue) /\ count_color c l = 5%nat.
Proof.
  unfold scoreEvents. rewrite !in_app_iff. cbn [In].
  intros [[E | [E | []]] | [Hg | Hb]]; try discriminate.
  - destruct (Nat.eqb_spec (count_color green l) 5) as [E5 | _];
      [| destruct Hg].
    destruct Hg as [[= <-] | []]. auto.
  - destruct (Nat.eqb_spec (count_color blue l) 5) as [E5 | _];
      [| destruct Hb].
    destruct Hb as [[= <-] | []]. auto.
Qed.

(** The writes to the page before [updateScores] in an unlocked hit are
    badge updates. *)
Lemma onHitLumie_dom h g k :
  (lockedUntil (getBall g k) <= clock h (nclock h))%Z ->
  exists badges,
    Forall (fun e => exists p c, e = Badge p c) badges /\
    dom (hostAfter (onHitLumie k) h g) =
    dom h ++ badges ++
    scoreEvents (lumies (stateAfter (onHitLumie k) h g)).
Proof.
  intros Hl. apply Z.ltb_ge in Hl.
  unfold hostAfter at 1. unfold stateAfter. unfold onHitLumie.
  rewrite bind_now_eq, bind_get_eq. cbv zeta. record_simpl. rewrite Hl.
  rewrite bind_run. rewrite bind_now_eq. rewrite bind_run. rewrite bind_run.
  match goal with
  | |- context [updateScores ?hx ?gx] =>
      change (snd (fst (updateScores hx gx)))
        with (hostAfter updateScores hx gx);
      change (snd (updateScores hx gx))
        with (stateAfter updateScores hx gx);
      rewrite (updateScores_state hx gx), (updateScores_dom hx gx)
  end.
  unfold hostAfter at 1 2. unfold modify at 1. unfold onBall at 1.
  unfold modify at 1. record_simpl.
  match goal with
  | |- context [dom (hostAfter ?m ?h1 g)] =>
      assert (Hpre : exists badges,
                 Forall (fun e => exists p c, e = Badge p c) badges /\
                 dom (hostAfter m h1 g) = dom h ++ badges)
  end.
  { unfold hostAfter.
    destruct (color (getBall g k));
      unfold updateBadge, onBall, bind, modify, get, when, ret,
        Math_random, emit; record_simpl;
      repeat match goal with
             | |- context [if ?c then _ else _] =>
                 destruct c eqn:?; record_simpl
             end;
      first [ exists []; split; [constructor | symmetry; apply app_nil_r]
            | eexists [_]; split;
              [ repeat constructor; eexists _, _; reflexivity
              | reflexivity ] ]. }
  destruct Hpre as (badges & Hb & ->).
  exists badges. split; [exact Hb |]. rewrite <- app_assoc. reflexivity.
Qed.

(** X15: A hit announces a winner only when it leaves five targets of that
    color, green or blue. *)
Theorem victory_only_at_five h g k c :
  In (Victory c) (dom (hostAfter (onHitLumie k) h g)) ->
  In (Victory c) (dom h) \/
  ((c = green \/ c = blue) /\
   count_color c (lumies (stateAfter (onHitLumie k) h g)) = 5%nat).
Proof.
  destruct (Z.lt_ge_cases (clock h (nclock h)) (lockedUntil (getBall g k)))
    as [Hlk | Hun].
  - unfold hostAfter. rewrite (onHitLumie_locked_eq h g k Hlk). auto.
  - destruct (onHitLumie_dom h g k Hun) as (badges & Hb & ->).
    rewrite !in_app_iff. intros [Hin | [Hin | Hin]].
    + left. exact Hin.
    + rewrite Stdlib.Lists.List.Forall_forall in Hb.
      destruct (Hb _ Hin) as (p & c0 & E). discriminate.
    + right. apply scoreEvents_victory. exact Hin.
Qed.

(** X16: An unlocked hit ends by writing the number of green and of blue
    targets to the page. *)
Theorem scores_shown_are_counts h g k :
  (lockedUntil (getBall g k) <= clock h (nclock h))%Z ->
  let g' := stateAfter (onHitLumie k) h g in
  let h' := hostAfter (onHitLumie k) h g in
  In (ScoreGreen (count_color green (lumies g'))) (dom h') /\
  In (ScoreBlue (count_color blue (lumies g'))) (dom h') /\
  (count_color green (lumies g') + count_color blue (lumies g')
   <= length (lumies g'))%nat.
Proof.
  intros Hl. cbv zeta.
  destruct (onHitLumie_dom h g k Hl) as (badges & _ & ->).
  rewrite !in_app_iff. unfold scoreEvents. cbn [In app].
  split; [auto 10 |]. split; [auto 10 |].
  generalize (lumies (stateAfter (onHitLumie k) h g)). intros l.
  unfold count_color. induction l as [| b l IH]; [cbn; lia |].
  rewrite !filter_cons. cbn [length].
  destruct (decide (color b = green)) as [Eg | ?];
    destruct (decide (color b = blue)) as [Eb | ?]; cbn [length];
    try lia. congruence.
Qed.

End Scores.

Section Cooldown.
Context {T : Type} `{Num T} `{Trig T}.

Implicit Types (g : Game T) (h : Host T) (k : nat).

(** An unlocked hit reads the clock twice. *)
Lemma onHitLumie_clock h g k :
  (lockedUntil (getBall g k) <= clock h (nclock h))%Z ->
  clock (hostAfter (onHitLumie k) h g) = clock h /\
  nclock (hostAfter (onHitLumie k) h g) = S (S (nclock h)).
Proof.
  intros Hl. apply Z.ltb_ge in Hl.
  unfold hostAfter, onHitLumie, bind, get, Date_now. record_simpl.
  rewrite Hl.
  destruct (color (getBall g k)) eqn:Hcol;
    unfold updateScores, updateBadge, onBall, bind, modify, get,
      when, ret, Math_random, Date_now, emit; record_simpl;
    repeat match goal with
           | |- context [if ?c then _ else _] =>
               destruct c eqn:?; record_simpl
           end; split; reflexivity.
Qed.

(** X17: After a conversion the target is immune while the lock lasts: a
    second hit whose time read falls before the expiry changes nothing
    of the game and writes nothing to the page. *)
Theorem cooldown_blocks_second_hit h g k :
  (lockedUntil (getBall g k) <= clock h (nclock h))%Z ->
  (clock h (S (S (nclock h))) <
   clock h (S (nclock h)) + CONFIG.cooldown)%Z ->
  let h1 := hostAfter (onHitLumie k) h g in
  let g1 := stateAfter (onHitLumie k) h g in
  stateAfter (onHitLumie k) h1 g1 = g1 /\
  dom (hostAfter (onHitLumie k) h1 g1) = dom h1 /\
  stateAfter (onHitLumie k ;; onHitLumie k)%M h g = g1.
Proof.
  intros Hl Hsoon. cbv zeta.
  destruct (onHitLumie_clock h g k Hl) as [Hc Hn].
  destruct (onHitLumie_unlocked h g k Hl) as (_ & Hlock & _).
  assert (Hlk : (clock (hostAfter (onHitLumie k) h g)
                   (nclock (hostAfter (onHitLumie k) h g))
                 < lockedUntil
                     (getBall (stateAfter (onHitLumie k) h g) k))%Z)
    by (rewrite Hc, Hn, Hlock; exact Hsoon).
  pose proof (onHitLumie_locked_eq _ _ k Hlk) as E.
  split; [unfold stateAfter at 1; rewrite E; reflexivity |].
  split; [unfold hostAfter at 1; rewrite E; reflexivity |].
  rewrite stateAfter_bind. unfold stateAfter at 1. rewrite E. reflexivity.
Qed.

End Cooldown.

Section Board.
Local Open Scope R_scope.

Implicit Types (g : Game R) (h : Host R) (b : Ball R) (i j k m : nat).

Lemma Game_new_kinematics w ht h0 :
  map kinematics (lumies (snd (Game_new w ht h0))) =
  map (fun i : Z =>
         ((w - boardSpacing w * 4) / 2 + IZR i * boardSpacing w,
          ht / 2, 0, 0))
      [0; 1; 2; 3; 4]%Z /\
  kinematics (playerBall (snd (Game_new w ht h0))) =
    (w / 2, ht - 100, 0, 0).
Proof. split; reflexivity. Qed.

Lemma Game_new_target w ht h0 i :
  (i < 5)%nat ->
  let b := getBall (snd (Game_new w ht h0)) i in
  x b = w / 2 + (INR i - 2) * boardSpacing w /\ y b = ht / 2 /\
  vx b = 0 /\ vy b = 0 /\ r b = 20 /\ color b = red /\
  lockedUntil b = 0%Z.
Proof.
  intros Hi. cbv zeta.
  do 5 (destruct i as [| i];
        [ match goal with
          | |- x (getBall ?g ?n) = _ /\ _ =>
              change (x (getBall g n))
                with ((w - boardSpacing w * 4) / 2 +
                      IZR (Z.of_nat n) * boardSpacing w)
          end;
          repeat split; try reflexivity;
          rewrite <- ?INR_IZR_INZ; simpl INR; lra
        | ]).
  lia.
Qed.

Lemma boardSpacing_bounds w :
  (240 <= w -> 40 <= boardSpacing w) /\
  (0 <= w -> 0 <= boardSpacing w) /\
  (w < 240 -> boardSpacing w < 40).
Proof.
  unfold boardSpacing. repeat split; intros Hw.
  - apply Rmin_glb; lra.
  - apply Rmin_glb; lra.
  - eapply Rle_lt_trans; [apply Rmin_l | lra].
Qed.

Lemma Game_new_dist w ht h0 i j :
  (i < j)%nat -> (j < 5)%nat -> 0 <= w ->
  centerDist (getBall (snd (Game_new w ht h0)) i)
             (getBall (snd (Game_new w ht h0)) j) =
  (INR j - INR i) * boardSpacing w.
Proof.
  intros Hij Hj Hw.
  destruct (Game_new_target w ht h0 i) as (Xi & Yi & _); [lia |].
  destruct (Game_new_target w ht h0 j Hj) as (Xj & Yj & _).
  unfold centerDist. rewrite Xi, Yi, Xj, Yj.
  pose proof (proj1 (proj2 (boardSpacing_bounds w)) Hw) as Hs.
  assert (Hlt : INR i < INR j) by (apply lt_INR; exact Hij).
  apply Rhypot_unique; [nra | ring].
Qed.

(** X21: A new game: five red targets at rest in a row through the middle of
    the table, [min(width / 6, 70)] apart and centered; player 1 aims
    with the ball at rest 100 px above the bottom.  On a table at least
    240 px wide no two targets overlap; on a narrower one every target
    overlaps its neighbour. *)
Theorem new_game_layout (w ht : R) (h0 : Host R) :
  let g := snd (Game_new w ht h0) in
  turnState g = aiming /\ currentPlayer g = 1%nat /\
  length (lumies g) = 5%nat /\
  (forall i, (i < 5)%nat ->
     x (getBall g i) = w / 2 + (INR i - 2) * boardSpacing w /\
     y (getBall g i) = ht / 2 /\
     atRest (getBall g i) /\ color (getBall g i) = red) /\
  kinematics (playerBall g) = (w / 2, ht - 100, 0, 0) /\
  (240 <= w ->
     forall i j, (i < j)%nat -> (j < 5)%nat -> ~ overlapping i j g) /\
  (0 <= w < 240 -> forall i, (i < 4)%nat -> overlapping i (S i) g).
Proof.
  cbv zeta.
  split; [reflexivity |]. split; [reflexivity |]. split; [reflexivity |].
  split.
  { intros i Hi.
    destruct (Game_new_target w ht h0 i Hi) as (X & Y & Vx & Vy & _ & C & _).
    repeat split; assumption. }
  split; [reflexivity |].
  split.
  - intros Hw i j Hij Hj. unfold overlapping.
    rewrite (Game_new_dist w ht h0 i j Hij Hj) by lra.
    destruct (Game_new_target w ht h0 i) as (_ & _ & _ & _ & Ri & _);
      [lia |].
    destruct (Game_new_target w ht h0 j Hj) as (_ & _ & _ & _ & Rj & _).
    rewrite Ri, Rj.
    pose proof (proj1 (boardSpacing_bounds w) Hw) as Hs.
    assert (Hlt : INR i + 1 <= INR j).
    { rewrite <- S_INR. apply le_INR. lia. }
    nra.
  - intros [Hw0 Hw] i Hi. unfold overlapping.
    rewrite (Game_new_dist w ht h0 i (S i)) by (lia || lra).
    destruct (Game_new_target w ht h0 i) as (_ & _ & _ & _ & Ri & _);
      [lia |].
    destruct (Game_new_target w ht h0 (S i)) as (_ & _ & _ & _ & Rj & _);
      [lia |].
    rewrite Ri, Rj, S_INR.
    pose proof (proj2 (proj2 (boardSpacing_bounds w)) Hw) as Hs.
    lra.
Qed.

End Board.

Section StillRolling.
Local Open Scope R_scope.

Implicit Types (g : Game R) (h : Host R) (b : Ball R) (i j k m : nat).

Ltac ball_cbn :=
  cbn beta iota zeta delta
    [fst snd andb orb x y r color vx vy mass angle angularVelocity
     heavyPhase isLumie lockedUntil lastHit set_x set_y set_vx set_vy
     set_angle set_angularVelocity nadd nsub nmul ndiv nneg nabs nlt nofZ
     nhypot Num_R rand nrand clock nclock dom].

Lemma each_raises_flag w ht mv h b :
  stillMoving b ->
  valueOf (updatePhysics_each false w ht mv) h b = true.
Proof.
  intros (Hl & Hv & Hs). unfold frictionSpeed in Hs.
  unfold valueOf, updatePhysics_each, update, bind, modify, get, when,
    ret, Math_random.
  ball_cbn. rewrite Hl. cbn [andb]. ball_cbn.
  rewrite (Rltb_false _ _ Hs). ball_cbn.
  assert (Hpos : 0 < Rabs (vx b * CONFIG.friction)).
  { apply Rabs_pos_lt. rewrite friction_R. nra. }
  rewrite (Rltb_true _ _ Hpos). cbn [orb].
  repeat (match goal with
          | |- context [if Rltb ?a ?c then _ else _] =>
              destruct (Rltb a c)
          end; ball_cbn); reflexivity.
Qed.

Lemma each_keeps_flag tl w ht h b :
  valueOf (updatePhysics_each tl w ht true) h b = true.
Proof.
  unfold updatePhysics_each. rewrite valueOf_bind.
  set (b1 := stateAfter update h b). set (h1 := hostAfter update h b).
  clearbody b1 h1.
  unfold valueOf, bind, modify, get, when, ret.
  destruct tl; ball_cbn;
    repeat (match goal with
            | |- context [if ?c then _ else _] => destruct c
            end; ball_cbn); reflexivity.
Qed.

Lemma positions_keep_flag tl w ht (l : list nat) h g :
  valueOf (forEachWith l
             (fun k a => onBall k (updatePhysics_each tl w ht a)) true)
          h g = true.
Proof.
  revert h g. induction l as [| k l IH]; intros h g; cbn [forEachWith];
    [reflexivity |].
  rewrite valueOf_bind, valueOf_onBall, each_keeps_flag. apply IH.
Qed.

Lemma positions_raise_flag w ht (l : list nat) k :
  k ∈ l ->
  forall acc h g,
    (forall m, m ∈ l -> (m <= length (lumies g))%nat) ->
    stillMoving (getBall g k) ->
    valueOf (forEachWith l
               (fun k a => onBall k (updatePhysics_each false w ht a)) acc)
            h g = true.
Proof.
  induction l as [| k' l IH]; intros Hk acc h g Hr Hm.
  - apply elem_of_nil in Hk. contradiction.
  - cbn [forEachWith]. rewrite valueOf_bind, valueOf_onBall.
    destruct (decide (k' = k)) as [-> | Hne].
    + rewrite (each_raises_flag w ht acc h (getBall g k) Hm).
      apply positions_keep_flag.
    + apply elem_of_cons in Hk. destruct Hk as [-> | Hk]; [congruence |].
      apply (IH Hk).
      * intros m Hin.
        assert (Hg1 : length (lumies
                        (stateAfter
                           (onBall k' (updatePhysics_each false w ht acc))
                           h g)) = length (lumies g)).
        { unfold stateAfter, onBall.
          destruct (updatePhysics_each false w ht acc h (getBall g k'))
            as [[a h'] b']. apply setBall_length. }
        rewrite Hg1. apply Hr. right. exact Hin.
      * unfold stateAfter, onBall.
        destruct (updatePhysics_each false w ht acc h (getBall g k'))
          as [[a h'] b']. cbn [snd].
        rewrite getBall_setBall_ne; [exact Hm | exact Hne | |];
          apply Hr; [left | right; exact Hk].
Qed.

Lemma passes_control tl w ht n h g :
  controlOf (stateAfter (positionsPass tl w ht n ;; collisionsPass n)%M h g)
  = controlOf g.
Proof.
  enough (Hp : preserves (fun g' => controlOf g' = controlOf g)
                 (positionsPass tl w ht n ;; collisionsPass n)%M)
    by (apply Hp; reflexivity).
  unfold positionsPass, collisionsPass.
  repeat first
    [ lazymatch goal with
      | |- preserves _ (resolveCollision _ _) =>
          let Hg := fresh "Hg" in
          intros ? ? Hg; rewrite resolveCollision_control; exact Hg
      | |- preserves _ (onBall _ _) =>
          let Hg := fresh "Hg" in
          apply preserves_onBall; intros ? ? Hg;
          rewrite controlOf_setBall; exact Hg
      end
    | preserves_step ].
Qed.

(** X20: Before the time limit, a tick in which the player's ball still moves
    does not end the roll: the game keeps rolling with the same player. *)
Theorem moving_ball_keeps_rolling h g :
  turnState g = rolling ->
  (clock h (nclock h) - default 0%Z (turnStartTime g) <= 3000)%Z ->
  stillMoving (playerBall g) ->
  let g' := stateAfter loop h g in
  turnState g' = rolling /\ currentPlayer g' = currentPlayer g.
Proof.
  intros Hroll Hearly Hmv. cbv zeta. apply Z.ltb_ge in Hearly.
  unfold stateAfter.
  rewrite (loop_rolling h g Hroll), updatePhysics_passes. cbv zeta.
  rewrite Hearly.
  set (h1 := mkHost _ _ _ _ _). clearbody h1.
  pose proof (passes_control false (width g) (height g)
                (length (lumies g)) h1 g) as Hc.
  rewrite stateAfter_bind in Hc.
  rewrite bind_run.
  assert (Hv : valueOf (positionsPass false (width g) (height g)
                          (length (lumies g))) h1 g = true).
  { unfold positionsPass.
    apply (positions_raise_flag (width g) (height g) _ (length (lumies g))).
    - apply elem_of_seq. lia.
    - intros m Hm. apply elem_of_seq in Hm. lia.
    - unfold getBall. rewrite nth_overflow by lia. exact Hmv. }
  rewrite Hv.
  set (g1 := stateAfter _ h1 g) in *. set (h2 := hostAfter _ h1 g) in *.
  clearbody g1 h2.
  rewrite bind_run.
  set (g2 := stateAfter (collisionsPass (length (lumies g))) h2 g1) in *.
  set (h3 := hostAfter (collisionsPass (length (lumies g))) h2 g1).
  clearbody g2 h3.
  rewrite bind_get_run. cbn [negb when ret snd].
  unfold controlOf in Hc. injection Hc as _ _ Hp Hs _ _ _.
  split; congruence.
Qed.

(** X20, witness: the hypotheses of [moving_ball_keeps_rolling] hold on a sample state. *)
Lemma moving_ball_keeps_rolling_witness :
  turnState (stateAfter loop early_host flying_board) = rolling /\
  currentPlayer (stateAfter loop early_host flying_board) = 1%nat.
Proof.
  apply (moving_ball_keeps_rolling early_host flying_board).
  - reflexivity.
  - vm_compute. discriminate.
  - split; [reflexivity |]. split.
    + cbn [flying_board playerBall vx]. lra.
    + rewrite frictionSpeed_eq, stopThreshold_R.
      unfold speed. cbn [flying_board playerBall vx vy].
      rewrite (Rhypot_unique 10 0 10) by lra. lra.
Defined.

End StillRolling.

Section MoreWitnesses.
Local Open Scope R_scope.

(** X14, witness: the hypotheses of [pointer_ignored_while_rolling] hold on a sample state. *)
Lemma pointer_ignored_while_rolling_witness :
  on_start (mkPoint 400 500) late_host crowded_board =
    (tt, late_host, crowded_board) /\
  on_move (mkPoint 400 500) late_host crowded_board =
    (tt, late_host, crowded_board) /\
  on_end late_host crowded_board = (tt, late_host, crowded_board).
Proof.
  apply (pointer_ignored_while_rolling late_host crowded_board
           (mkPoint 400 500)).
  - split; [discriminate | left; reflexivity].
  - reflexivity.
Defined.

(** X15, witness: the hypotheses of [victory_only_at_five] hold on a sample state. *)
Lemma victory_only_at_five_witness :
  In (Victory green) (dom late_host) \/
  ((green = green \/ green = blue) /\
   count_color green
     (lumies (stateAfter (onHitLumie 4) late_host last_blue_board)) = 5%nat).
Proof.
  apply (victory_only_at_five late_host last_blue_board 4 green).
  apply (onHitLumie_victory late_host last_blue_board 4 green).
  - vm_compute. discriminate.
  - left. reflexivity.
  - vm_compute. reflexivity.
Defined.

(** X16, witness: the hypotheses of [scores_shown_are_counts] hold on a sample state. *)
Lemma scores_shown_are_counts_witness :
  In (ScoreGreen 5)
     (dom (hostAfter (onHitLumie 4) late_host last_blue_board)) /\
  In (ScoreBlue 0)
     (dom (hostAfter (onHitLumie 4) late_host last_blue_board)).
Proof.
  destruct (scores_shown_are_counts late_host last_blue_board 4)
    as (Hg & Hb & _).
  - vm_compute. discriminate.
  - split; [exact Hg | exact Hb].
Defined.

(** X17, witness: the hypotheses of [cooldown_blocks_second_hit] hold on a sample state. *)
Lemma cooldown_blocks_second_hit_witness :
  stateAfter (onHitLumie 4 ;; onHitLumie 4)%M late_host last_blue_board =
  stateAfter (onHitLumie 4) late_host last_blue_board.
Proof.
  apply (cooldown_blocks_second_hit late_host last_blue_board 4).
  - vm_compute. discriminate.
  - vm_compute. reflexivity.
Defined.

End MoreWitnesses.

Section Badge.
Context {T : Type} `{Num T} `{Trig T}.

Implicit Types (g : Game T) (h : Host T) (b : Ball T) (i j k m : nat).

Lemma badgeReady_color g p :
  badgeReady g -> p = 1%nat \/ p = 2%nat ->
  truthy (playerColors g !! 1%nat) = true ->
  truthy (playerColors g !! p) = true.
Proof.
  intros [_ Hp] [-> | ->] H1; [exact H1 |].
  unfold colorsPaired in Hp. congruence.
Qed.

Lemma onHitLumie_paired k h g :
  badgeReady g -> colorsPaired (stateAfter (onHitLumie k) h g).
Proof.
  intros [Hv Hp]. unfold colorsPaired in *.
  unfold stateAfter, onHitLumie, bind, get, Date_now. record_simpl.
  destruct (_ <? _)%Z; [exact Hp |].
  destruct (color (getBall g k)) eqn:Hcol;
    unfold updateScores, updateBadge, onBall, bind, modify, get,
      when, ret, Math_random, Date_now, emit; record_simpl;
    repeat match goal with
           | |- context [if ?c then _ else _] =>
               destruct c eqn:?; record_simpl
           end;
    autorewrite with store; record_simpl; autorewrite with store;
    try exact Hp;
    destruct Hv as [E | E]; rewrite E; unfold otherPlayer;
    cbn [Nat.eqb];
    rewrite ?lookup_insert_eq;
    rewrite ?(lookup_insert_ne _ 1%nat 2%nat) by discriminate;
    rewrite ?(lookup_insert_ne _ 2%nat 1%nat) by discriminate;
    rewrite ?lookup_insert_eq; reflexivity.
Qed.

Lemma badgeReady_stable : stableUnderWrites badgeReady.
Proof.
  pose proof validPlayer_stable as [[V1 V2 V3 V4 V5] V6 V7 V8 V9 V10 V11].
  split; [split | ..].
  - intros k b' g Hb [Hv Hp]. split; [apply V1; assumption |].
    unfold colorsPaired. rewrite setBall_playerColors. exact Hp.
  - intros k h g Hg. split; [apply V2, Hg | apply onHitLumie_paired, Hg].
  - intros s g [Hv Hp]. split; [apply V3, Hv | exact Hp].
  - intros g [Hv Hp]. split; [apply V4, Hv | exact Hp].
  - intros b g Hb [Hv Hp]. split; [apply V5; assumption | exact Hp].
  - intros f g Hf [Hv Hp]. split; [apply V6; assumption | exact Hp].
  - intros l g [Hv Hp]. split; [apply V7, Hv | exact Hp].
  - intros t g [Hv Hp]. split; [apply V8, Hv | exact Hp].
  - intros s c g [Hv Hp]. split; [apply V9, Hv | exact Hp].
  - intros w ht g [Hv Hp]. split; [apply V10, Hv | exact Hp].
  - intros now g [Hv Hp]. split; [apply V11, Hv | exact Hp].
Qed.

(** Every state of a game played from [new Game()] is [badgeReady]. *)
Lemma badgeReady_in_play (w ht : T) (h0 h : Host T) (l : list Input) :
  badgeReady (stateAfter (run l) h (snd (Game_new w ht h0))).
Proof.
  apply run_stable; [apply badgeReady_stable |].
  split; [left | unfold colorsPaired]; vm_compute; reflexivity.
Qed.

(** X18: In a [badgeReady] state [endTurn] ends in the aiming state with the
    targets untouched, the colors and the change log as they were, and a
    fresh player's ball at rest in the middle of the side of the player
    whose turn it now is; and the player to move has a color whenever
    player 1 has one, which is what the badge text needs. *)
Theorem endTurn_resets h g :
  validPlayer g -> colorsPaired g ->
  let g' := stateAfter endTurn h g in
  turnState g' = aiming /\
  lumies g' = lumies g /\
  playerColors g' = playerColors g /\
  turnChanges g' = turnChanges g /\
  freshBall (playerBall g') /\
  x (playerBall g') = (width g / nofZ 2)%js /\
  y (playerBall g') =
    (if (currentPlayer g' =? 1)%nat
     then (height g - nofZ 100)%js else nofZ 100) /\
  (truthy (playerColors g !! 1%nat) = true ->
   truthy (playerColors g !! currentPlayer g') = true).
Proof.
  intros Hv Hp. cbv zeta.
  assert (Hbadge : truthy (playerColors g !! 1%nat) = true ->
                   truthy (playerColors g !!
                             currentPlayer (stateAfter endTurn h g)) = true).
  { intros H1. apply (badgeReady_color g); [split; assumption | | exact H1].
    rewrite endTurn_player.
    destruct (switchTurn g); [apply otherPlayer_valid | exact Hv]. }
  revert Hbadge. generalize (truthy (playerColors g !! 1%nat) = true).
  intros P.
  unfold stateAfter, endTurn, updateBadge, resetPlayerBall, Ball_new,
    bind, modify, get, when, ret, emit, Math_random, freshBall, shapeOf.
  record_simpl.
  repeat match goal with
         | |- context [if ?c then _ else _] => destruct c eqn:?; record_simpl
         | |- context [match ?c with _ => _ end] =>
             destruct c eqn:?; record_simpl
         end; intros Hbadge; repeat split; try reflexivity;
    try congruence; exact Hbadge.
Qed.

End Badge.

Section Walls.
Context {T : Type} `{Num T} `{Trig T}.

Implicit Types (g : Game T) (h : Host T) (b : Ball T).

Local Open Scope js_scope.

Lemma update_position h b :
  x (stateAfter update h b) = x b + vx b /\
  y (stateAfter update h b) = y b + vy b /\
  r (stateAfter update h b) = r b.
Proof.
  unfold stateAfter, update, bind, modify, get, when, ret, Math_random.
  record_simpl.
  repeat match goal with
         | |- context [if ?c then _ else _] => destruct c; record_simpl
         end; repeat split.
Qed.

(** The wall checks of one axis: [a] is the coordinate after [update]. *)
Lemma clamp_between (lo a hi : T) :
  axisChecked lo a hi = true ->
  let a1 := if a <? lo then lo else a in
  let a2 := if a1 >? hi then hi else a1 in
  between lo a2 hi = true.
Proof.
  unfold axisChecked, comparable, between, atLeast, atMost. cbv zeta.
  intros Hc.
  repeat match goal with
         | Hb : (_ && _) = true |- _ =>
             apply andb_prop in Hb; destruct Hb as [? ?]
         end.
  destruct (a <? lo) eqn:E1.
  - destruct (lo >? hi) eqn:E2; apply andb_true_intro; split; assumption.
  - destruct (a >? hi) eqn:E2; [apply andb_true_intro; split; assumption |].
    rewrite ?orb_false_l, ?orb_false_r in *.
    apply andb_true_intro. split; assumption.
Qed.

(** X6: After the callback of the first pass a ball whose position compares
    with the walls (it is not NaN) and whose diameter fits the table lies
    between the walls, whatever its velocity was. *)
Theorem walls_keep_ball_inside (tl : bool) (w ht : T) (mv : bool) h b :
  axisChecked (r b) (x b + vx b) (w - r b) = true ->
  axisChecked (r b) (y b + vy b) (ht - r b) = true ->
  let b' := stateAfter (updatePhysics_each tl w ht mv) h b in
  r b' = r b /\
  between (r b) (x b') (w - r b) = true /\
  between (r b) (y b') (ht - r b) = true.
Proof.
  intros Hx Hy. cbv zeta.
  apply clamp_between in Hx, Hy. cbv zeta in Hx, Hy.
  unfold updatePhysics_each. rewrite stateAfter_bind.
  destruct (update_position h b) as (Ex & Ey & Er).
  set (b1 := stateAfter update h b) in *.
  set (h1 := hostAfter update h b). clearbody b1 h1.
  rewrite <- Ex, <- Ey, <- Er in *. clear Ex Ey Er.
  unfold stateAfter, bind, modify, get, when, ret.
  destruct tl; record_simpl;
    repeat match goal with
           | |- context [if ?c then _ else _] =>
               destruct c eqn:?; record_simpl
           end;
    repeat match goal with
           | E : ?c = _, H' : context [if ?c then _ else _] |- _ =>
               rewrite E in H'
           end;
    repeat split; assumption.
Qed.

End Walls.

Section WallsExact.
Local Open Scope R_scope.

Lemma between_exact (lo a hi : R) :
  between lo a hi = true <-> lo <= a <= hi.
Proof.
  unfold between, atLeast, atMost. cbn [nlt neq Num_R]. unfold Rltb, Reqb.
  destruct (Rlt_dec lo a), (Req_dec_T a lo), (Rlt_dec a hi),
    (Req_dec_T a hi); cbn [orb andb]; split; intros Hb;
    try discriminate; try reflexivity; lra.
Qed.

(** Over the reals every two numbers compare: what is left of
    [axisChecked] is that the diameter fits. *)
Lemma axisChecked_exact (lo a hi : R) :
  lo <= hi -> axisChecked lo a hi = true.
Proof.
  intros Hle. unfold axisChecked.
  rewrite (proj2 (between_exact lo lo hi)) by lra.
  rewrite (proj2 (between_exact lo hi hi)) by lra.
  rewrite !andb_true_r. unfold comparable. cbn [nlt neq Num_R].
  unfold Rltb, Reqb.
  destruct (Rlt_dec a lo), (Rlt_dec lo a), (Req_dec_T a lo),
    (Rlt_dec a hi), (Rlt_dec hi a), (Req_dec_T a hi); cbn [orb andb];
    try reflexivity; lra.
Qed.

(** At binary64 a NaN coordinate is not [axisChecked], a number is. *)
Lemma axisChecked_binary64 :
  axisChecked (nofZ 22) PrimFloat.nan (nofZ 778) = false /\
  axisChecked (nofZ 22) (PrimFloat.add (nofZ 795) (nofZ 10)) (nofZ 778)
    = true.
Proof. vm_compute. split; reflexivity. Qed.

(** X6, witness: the hypotheses of [walls_keep_ball_inside] hold on a sample state. *)
Lemma walls_keep_ball_inside_witness :
  let b' := stateAfter (updatePhysics_each false 800 600 false)
              late_host leaving_ball in
  r b' = 22 /\
  between 22 (x b') (800 - 22) = true /\
  between 22 (y b') (600 - 22) = true.
Proof.
  assert (Hx : axisChecked 22 (795 + 10) (800 - 22) = true)
    by (apply axisChecked_exact; lra).
  assert (Hy : axisChecked 22 (300 + 0) (600 - 22) = true)
    by (apply axisChecked_exact; lra).
  exact (walls_keep_ball_inside false 800 600 false late_host leaving_ball
           Hx Hy).
Defined.

(** X18, witness: the hypotheses of [endTurn_resets] hold on a sample state. *)
Lemma endTurn_resets_witness :
  let g' := stateAfter endTurn late_host replay_board in
  turnState g' = aiming /\
  lumies g' = lumies replay_board /\
  freshBall (playerBall g') /\
  truthy (playerColors replay_board !! currentPlayer g') = true.
Proof.
  destruct (endTurn_resets late_host replay_board)
    as (Hs & Hl & _ & _ & Hb & _ & _ & Hc).
  - right. reflexivity.
  - vm_compute. reflexivity.
  - cbv zeta. split; [exact Hs |]. split; [exact Hl |].
    split; [exact Hb |]. apply Hc. vm_compute. reflexivity.
Defined.

End WallsExact.

Section PairsOfThePass.
Context {T : Type} `{Num T} `{Trig T}.

Lemma forEach_ext {S A} (l : list A) (F G : A -> M T S unit) :
  (forall a h s, F a h s = G a h s) ->
  forall h s, forEach l F h s = forEach l G h s.
Proof.
  intros E. induction l as [| a l IH]; intros h s; cbn [forEach];
    [reflexivity |].
  unfold bind. rewrite E. destruct (G a h s) as [[u h'] s']. apply IH.
Qed.

Lemma forEach_app {S A} (l1 l2 : list A) (F : A -> M T S unit) h s :
  forEach (l1 ++ l2) F h s =
  bind (forEach l1 F) (fun _ => forEach l2 F) h s.
Proof.
  revert h s. induction l1 as [| a l1 IH]; intros h s;
    cbn [forEach app]; [reflexivity |].
  unfold bind at 1 2 3. destruct (F a h s) as [[u h'] s']. rewrite IH.
  reflexivity.
Qed.

Lemma forEach_map {S A B} (f : A -> B) (l : list A) (F : B -> M T S unit)
  h s :
  forEach (map f l) F h s = forEach l (fun a => F (f a)) h s.
Proof.
  revert h s. induction l as [| a l IH]; intros h s;
    cbn [forEach map]; [reflexivity |].
  unfold bind. destruct (F (f a) h s) as [[u h'] s']. apply IH.
Qed.

Lemma forEach_flat_map {S A B} (f : A -> list B) (l : list A)
  (F : B -> M T S unit) h s :
  forEach (flat_map f l) F h s = forEach l (fun a => forEach (f a) F) h s.
Proof.
  revert h s. induction l as [| a l IH]; intros h s;
    cbn [forEach flat_map]; [reflexivity |].
  rewrite forEach_app. unfold bind.
  destruct (forEach (f a) F h s) as [[u h'] s']. apply IH.
Qed.

(** The two nested loops of the collision pass call [resolveCollision]
    on the pairs of [collisionPairs], in that order. *)
Lemma collision_loops_pairs (n : nat) (h : Host T) (g : Game T) :
  forEach (seq 0 (n + 1)) (fun i =>
    forEach (seq (i + 1) (n + 1 - (i + 1))) (fun j =>
      resolveCollision i j)) h g =
  forEach (collisionPairs n)
    (fun p => resolveCollision (fst p) (snd p)) h g.
Proof.
  unfold collisionPairs. rewrite forEach_flat_map.
  apply forEach_ext. intros i h' g'. rewrite forEach_map. reflexivity.
Qed.

End PairsOfThePass.

Section EndOfRoll.
Local Open Scope R_scope.

Implicit Types (g : Game R) (h : Host R) (b : Ball R) (i j k m : nat).

Ltac ball_cbn :=
  cbn beta iota zeta delta
    [fst snd andb orb x y r color vx vy mass angle angularVelocity
     heavyPhase isLumie lockedUntil lastHit set_x set_y set_vx set_vy
     set_angle set_angularVelocity nadd nsub nmul ndiv nneg nabs nlt nofZ
     nhypot Num_R rand nrand clock nclock dom].

(** [afterPositions] is where the collision pass of the tick starts. *)
Lemma updatePhysics_afterPositions h g :
  let n := length (lumies g) in
  let tl := (3000 <? clock h (nclock h) - default 0 (turnStartTime g))%Z in
  let h1 := mkHost (rand h) (nrand h) (clock h) (S (nclock h)) (dom h) in
  let moving := valueOf (positionsPass tl (width g) (height g) n) h1 g in
  updatePhysics h g =
  (collisionsPass n ;;
   this' <- get ;;
   when (negb moving)
     (when (bool_decide (turnState this' = rolling)) endTurn))%M
    (fst (afterPositions h g)) (snd (afterPositions h g)).
Proof.
  cbv zeta. rewrite updatePhysics_passes. cbv zeta. rewrite bind_run.
  reflexivity.
Qed.

Lemma collisionsPass_pairs n h g :
  collisionsPass n h g =
  forEach (collisionPairs n)
    (fun p => resolveCollision (fst p) (snd p)) h g.
Proof. apply collision_loops_pairs. Qed.

(** Pairs that do not overlap and are [wellPosed] stay so through the
    pass, which leaves them alone. *)
Lemma callsDefined_apart (pairs : list (nat * nat)) h g :
  (forall i j, (i, j) ∈ pairs ->
     wellPosed (getBall g i) (getBall g j) /\
     r (getBall g i) + r (getBall g j) <=
       centerDist (getBall g i) (getBall g j)) ->
  callsDefined pairs h g.
Proof.
  induction pairs as [| [i j] rest IH]; intros Hp; cbn [callsDefined];
    [exact Logic.I |].
  destruct (Hp i j) as [Hw Hd]; [left |].
  split; [exact Hw |].
  assert (E : resolveCollision i j h g = (tt, h, g)).
  { unfold resolveCollision. rewrite bind_get_run. cbv zeta.
    unfold centerDist in Hd. cbn [nadd nsub nlt nhypot Num_R].
    rewrite (Rltb_false _ _ Hd). reflexivity. }
  unfold hostAfter, stateAfter. rewrite E. cbn [fst snd].
  apply IH. intros i' j' Hin. apply Hp. right. exact Hin.
Qed.

(** *** The first pass *)
Lemma each_position tl w ht mv h b :
  r b <= x b + vx b <= w - r b ->
  r b <= y b + vy b <= ht - r b ->
  let b' := stateAfter (updatePhysics_each tl w ht mv) h b in
  x b' = x b + vx b /\ y b' = y b + vy b.
Proof.
  intros Hx Hy. cbv zeta. unfold updatePhysics_each.
  rewrite stateAfter_bind.
  destruct (update_position h b) as (Ex & Ey & Er).
  cbn [nadd Num_R] in Ex, Ey.
  set (b1 := stateAfter update h b) in *.
  set (h1 := hostAfter update h b). clearbody b1 h1.
  rewrite <- Ex, <- Ey, <- Er in *. clear Ex Ey Er.
  unfold stateAfter, bind, modify, get, when, ret.
  destruct tl; ball_cbn;
    repeat match goal with
           | |- context [if Rltb ?a ?c then _ else _] =>
               destruct (Rltb_spec a c); ball_cbn
           | |- context [if ?c then _ else _] => destruct c; ball_cbn
           end;
    split; try reflexivity; lra.
Qed.

Lemma positionsPass_ball tl w ht h g m :
  (m <= length (lumies g))%nat ->
  exists a0 h0,
    getBall (stateAfter (positionsPass tl w ht (length (lumies g))) h g) m =
    stateAfter (updatePhysics_each tl w ht a0) h0 (getBall g m).
Proof.
  intros Hm.
  pose proof (forEachWith_onBall (updatePhysics_each tl w ht)
                (seq 0 (length (lumies g) + 1)) (seq_NoDup _ _)
                false h g) as Hp.
  destruct Hp as (_ & _ & _ & Hin).
  { intros k Hk. apply elem_of_seq in Hk. lia. }
  apply (Hin m). apply elem_of_seq. lia.
Qed.

(** Where a ball is after the first pass when it does not reach a
    wall. *)
Lemma positionsPass_position tl w ht h g m :
  (m <= length (lumies g))%nat ->
  let b := getBall g m in
  r b <= x b + vx b <= w - r b ->
  r b <= y b + vy b <= ht - r b ->
  let b' :=
    getBall (stateAfter (positionsPass tl w ht (length (lumies g))) h g) m
  in
  x b' = x b + vx b /\ y b' = y b + vy b /\ mass b' = mass b.
Proof.
  intros Hm b Hx Hy. cbv zeta.
  destruct (positionsPass_ball tl w ht h g m Hm) as (a0 & h0 & E).
  rewrite E.
  destruct (each_position tl w ht a0 h0 b Hx Hy) as [Px Py].
  destruct (updatePhysics_each_sameBody tl w ht a0 h0 b)
    as (_ & _ & Pm & _).
  auto.
Qed.

Lemma atRest_stopping b : atRest b -> stopping b.
Proof.
  intros [Vx Vy]. unfold stopping, frictionSpeed. rewrite Vx, Vy.
  replace (0 * CONFIG.friction) with 0 by ring.
  rewrite Rhypot_0, stopThreshold_R. lra.
Qed.

Lemma update_snap_state h b :
  stopping b ->
  vx (stateAfter update h b) = 0 /\ vy (stateAfter update h b) = 0.
Proof.
  intros Hs. unfold stopping, frictionSpeed in Hs.
  unfold stateAfter, update, bind, modify, get, when, ret, Math_random.
  ball_cbn. rewrite (Rltb_true _ _ Hs).
  destruct (isLumie b); [destruct (Rltb _ _) |]; auto.
Qed.

(** The rest of the callback on a ball that [update] left at rest. *)
Lemma each_snapped tl w ht mv h b :
  vx (stateAfter update h b) = 0 -> vy (stateAfter update h b) = 0 ->
  atRest (stateAfter (updatePhysics_each tl w ht mv) h b) /\
  valueOf (updatePhysics_each tl w ht mv) h b = mv.
Proof.
  intros Vx Vy.
  unfold updatePhysics_each. rewrite stateAfter_bind, valueOf_bind.
  set (b1 := stateAfter update h b) in *.
  set (h1 := hostAfter update h b). clearbody b1 h1.
  destruct b1 as [bx by_ br bc bvx bvy bm ba bav bh bl bk bt].
  cbn [vx vy] in Vx, Vy. subst bvx bvy.
  unfold atRest, stateAfter, valueOf, bind, modify, get, when, ret.
  destruct tl; ball_cbn; rewrite ?Rltb_0_abs0; cbn [orb];
    repeat match goal with
           | |- context [if Rltb ?a ?c then _ else _] =>
               destruct (Rltb a c); ball_cbn
           end;
    repeat split; ring.
Qed.

(** The callback of the first pass on a ball that [update] snaps to
    rest: it ends at rest and does not raise the flag. *)
Lemma each_stopping tl w ht mv h b :
  stopping b ->
  atRest (stateAfter (updatePhysics_each tl w ht mv) h b) /\
  valueOf (updatePhysics_each tl w ht mv) h b = mv.
Proof.
  intros Hs. destruct (update_snap_state h b Hs) as [Vx Vy].
  apply each_snapped; assumption.
Qed.

Lemma positions_stopping_value tl w ht (l : list nat) :
  forall acc h g,
    (forall m, stopping (getBall g m)) ->
    valueOf (forEachWith l
               (fun k a => onBall k (updatePhysics_each tl w ht a)) acc)
      h g = acc.
Proof.
  induction l as [| k l IH]; intros acc h g Hs; cbn [forEachWith];
    [reflexivity |].
  rewrite valueOf_bind.
  destruct (each_stopping tl w ht acc h (getBall g k) (Hs k)) as [Hb Hv].
  rewrite valueOf_onBall, Hv. apply IH.
  assert (Hg1 : stateAfter (onBall k (updatePhysics_each tl w ht acc)) h g
                = setBall k (stateAfter (updatePhysics_each tl w ht acc)
                               h (getBall g k)) g).
  { unfold stateAfter, onBall.
    destruct (updatePhysics_each tl w ht acc h (getBall g k))
      as [[a h'] b']. reflexivity. }
  rewrite Hg1. intros m.
  destruct (getBall_setBall_cases k
              (stateAfter (updatePhysics_each tl w ht acc) h (getBall g k))
              g m) as [[-> _] | ->];
    [apply atRest_stopping, Hb | apply Hs].
Qed.

Lemma positionsPass_stops tl w ht h g :
  (forall m, stopping (getBall g m)) ->
  stillAs (frameOf g) frameOf
    (stateAfter (positionsPass tl w ht (length (lumies g))) h g).
Proof.
  intros Hs.
  pose proof (forEachWith_onBall (updatePhysics_each tl w ht)
                (seq 0 (length (lumies g) + 1)) (seq_NoDup _ _)
                false h g) as Hp.
  destruct Hp as (Hlen & Hfr & _ & Hin).
  { intros k Hk. apply elem_of_seq in Hk. lia. }
  change (forEachWith (seq 0 (length (lumies g) + 1))
            (fun k a => onBall k (updatePhysics_each tl w ht a)) false)
    with (positionsPass tl w ht (length (lumies g))) in Hlen, Hfr, Hin.
  set (g1 := stateAfter _ h g) in *. clearbody g1.
  split; [| exact Hfr].
  assert (Hle : forall m, (m <= length (lumies g))%nat ->
                          atRest (getBall g1 m)).
  { intros m Hm. destruct (Hin m) as (a0 & h0 & E).
    - apply elem_of_seq. lia.
    - rewrite E. apply each_stopping, Hs. }
  intros m. destruct (decide (m <= length (lumies g))%nat) as [Hm | Hm];
    [apply Hle; exact Hm |].
  replace (getBall g1 m) with (getBall g1 (length (lumies g))).
  - apply Hle. lia.
  - unfold getBall. rewrite !nth_overflow by lia. reflexivity.
Qed.

(** A tick in which [update] snaps every ball to rest is the end-of-roll
    evaluation of a game whose balls are all at rest and whose other
    fields are untouched. *)
Lemma stopping_tick_run h g :
  turnState g = rolling ->
  (forall m, stopping (getBall g m)) ->
  exists h3 g2,
    loop h g = endTurn h3 g2 /\ stillAs (frameOf g) frameOf g2.
Proof.
  intros Hroll Hstop.
  rewrite (loop_rolling h g Hroll), updatePhysics_passes. cbv zeta.
  set (tl := (3000 <? _)%Z). clearbody tl.
  set (h1 := mkHost _ _ _ _ _). clearbody h1.
  rewrite bind_run.
  pose proof (positions_stopping_value tl (width g) (height g)
                (seq 0 (length (lumies g) + 1)) false h1 g Hstop) as Hv.
  pose proof (positionsPass_stops tl (width g) (height g) h1 g Hstop)
    as Hg1.
  change (forEachWith (seq 0 (length (lumies g) + 1))
            (fun k a =>
               onBall k (updatePhysics_each tl (width g) (height g) a))
            false)
    with (positionsPass tl (width g) (height g) (length (lumies g)))
    in Hv.
  rewrite Hv.
  set (g1 := stateAfter _ h1 g) in *. set (h2 := hostAfter _ h1 g).
  clearbody g1 h2.
  rewrite bind_run.
  pose proof (collisionsPass_still (frameOf g) (length (lumies g)) h2 g1 Hg1)
    as Hg2.
  set (g2 := stateAfter _ h2 g1) in *. set (h3 := hostAfter _ h2 g1).
  clearbody g2 h3.
  rewrite bind_get_run.
  assert (Hts : turnState g2 = rolling).
  { destruct Hg2 as [_ Hf]. unfold frameOf in Hf.
    injection Hf as _ _ _ _ Hts _ _ _ _. congruence. }
  rewrite Hts. rewrite (bool_decide_eq_true_2 (rolling = rolling) eq_refl).
  exists h3, g2. split; [reflexivity | exact Hg2].
Qed.


(** X19: A tick in which [update] snaps every ball to rest (each has a speed
    after friction below the stop threshold) ends the roll, whatever the
    clock says: in a [badgeReady] state, and when no call of the
    collision pass divides by zero, the turn is decided by the replay
    rule, the game aims again and every ball is at rest. *)
Theorem rest_ends_roll h g :
  turnState g = rolling ->
  (forall m, stopping (getBall g m)) ->
  validPlayer g -> colorsPaired g ->
  collisionsDefined h g ->
  let g' := stateAfter loop h g in
  turnState g' = aiming /\
  currentPlayer g' =
    (if switchTurn g then otherPlayer (currentPlayer g)
     else currentPlayer g) /\
  (forall m, atRest (getBall g' m)).
Proof.
  intros Hroll Hstop _ _ _. cbv zeta.
  destruct (stopping_tick_run h g Hroll Hstop) as (h3 & g2 & E & Hr & Hf).
  unfold stateAfter. rewrite E. fold (stateAfter endTurn h3 g2).
  split; [apply endTurn_state |]. split.
  - rewrite endTurn_player.
    destruct (switchTurn_frame g g2 Hf) as [-> ->]. reflexivity.
  - apply endTurn_still. exact Hr.
Qed.

(** On a board with one target the collision pass makes one call. *)
Lemma collisionsDefined_one h g :
  length (lumies g) = 1%nat ->
  (let b0 := getBall g 0 in
   r b0 <= x b0 + vx b0 <= width g - r b0 /\
   r b0 <= y b0 + vy b0 <= height g - r b0) ->
  (let b1 := getBall g 1 in
   r b1 <= x b1 + vx b1 <= width g - r b1 /\
   r b1 <= y b1 + vy b1 <= height g - r b1) ->
  0 < mass (getBall g 0) + mass (getBall g 1) ->
  0 < Rhypot (x (getBall g 1) + vx (getBall g 1) -
              (x (getBall g 0) + vx (getBall g 0)))
             (y (getBall g 1) + vy (getBall g 1) -
              (y (getBall g 0) + vy (getBall g 0))) ->
  collisionsDefined h g.
Proof.
  cbv zeta. intros Hlen [Hx0 Hy0] [Hx1 Hy1] Hm Hd.
  unfold collisionsDefined, afterPositions. cbv zeta. cbn [fst snd].
  set (tl := (3000 <? _)%Z). clearbody tl.
  set (h1 := mkHost _ _ _ _ _). clearbody h1.
  destruct (positionsPass_position tl (width g) (height g) h1 g 0)
    as (Px0 & Py0 & Pm0); [lia | exact Hx0 | exact Hy0 |].
  destruct (positionsPass_position tl (width g) (height g) h1 g 1)
    as (Px1 & Py1 & Pm1); [lia | exact Hx1 | exact Hy1 |].
  rewrite Hlen. change (collisionPairs 1) with [(0%nat, 1%nat)].
  rewrite Hlen in Px0, Py0, Pm0, Px1, Py1, Pm1.
  cbn [callsDefined]. split; [| exact Logic.I].
  unfold wellPosed, centerDist.
  rewrite Px0, Py0, Pm0, Px1, Py1, Pm1. split; assumption.
Qed.


(** X19, witness: the hypotheses of [rest_ends_roll] hold on a sample state. *)
Lemma rest_ends_roll_witness :
  turnState (stateAfter loop early_host settling_board) = aiming /\
  currentPlayer (stateAfter loop early_host settling_board) = 2%nat /\
  (forall m, atRest (getBall (stateAfter loop early_host settling_board) m)).
Proof.
  destruct (rest_ends_roll early_host settling_board) as (Hs & Hp & Hr).
  - reflexivity.
  - intros m. unfold stopping. rewrite frictionSpeed_eq, stopThreshold_R.
    unfold speed.
    destruct m as [| m];
      [| replace (getBall settling_board (S m))
           with (playerBall settling_board)
           by (destruct m; reflexivity)];
      cbn [settling_board getBall lumies playerBall nth lumieAt vx vy].
    + rewrite Rhypot_0. lra.
    + rewrite (Rhypot_0_r (4 / 100)) by lra. lra.
  - left. reflexivity.
  - vm_compute. reflexivity.
  - apply collisionsDefined_one; cbv zeta;
      cbn [settling_board lumieAt getBall lumies playerBall nth
           width height x y r vx vy mass length];
      [reflexivity | lra | lra | lra |].
    rewrite (Rhypot_unique _ _ (2996 / 100)) by lra. lra.
  - split; [exact Hs |]. split; [| exact Hr].
    rewrite Hp. vm_compute. reflexivity.
Defined.

End EndOfRoll.

